(** * TTMatcher: the table-tennis session scheduler of [TTMatcher.py]

    A shallow embedding of the Flask application in [src/TTMatcher.py]: the
    roster kept in [players.csv], the in-memory [session_data] dictionary,
    the ELO computation and every request handler.

    - Python [int] is [Z]; Python [float] is the kernel's binary64 [float].
    - [session_data['players']] is a [gmap string Player]; the queue and the
      match list are lists, as in the source.
    - A handler is a function from the world (the rows of the CSV file and
      [session_data]) to a result and the world it leaves behind.  An
      uncaught Python exception is a [Raise]: Flask answers 500 and the
      mutations made so far stay, because [session_data] is a module-level
      global.
    - File errors are not modelled: the CSV file can always be read and
      written, and reading gives back the rows that were written. *)

From Stdlib Require Import ZArith Floats Ascii String DecimalString DecimalPos DecimalZ.
From stdpp Require Import gmap strings list sorting.

Open Scope Z_scope.

(** * Part I: the program *)

(** ** Exceptions and results *)

Inductive exn : Type :=
| KeyError (key : string)
| OverflowError
| ValueError
| ZeroDivisionError.

Inductive result (A : Type) : Type :=
| Ok (a : A)
| Raise (e : exn).
Arguments Ok {A} a.
Arguments Raise {A} e.

#[export] Instance result_ret : MRet result := λ A a, Ok a.
#[export] Instance result_bind : MBind result := λ A B k r,
  match r with
  | Ok a => k a
  | Raise e => Raise e
  end.

Definition is_Ok {A} (r : result A) : bool :=
  match r with Ok _ => true | Raise _ => false end.

(** A comprehension whose element expression may raise. *)
Fixpoint mapR {A B} (f : A → result B) (l : list A) : result (list B) :=
  match l with
  | [] => Ok []
  | x :: l' => y ← f x; ys ← mapR f l'; Ok (y :: ys)
  end.

(** ** Python numbers

    The conversions between [int] and [float] that the ELO code performs
    implicitly.  All of them round to nearest, ties to even. *)

Module PyNum.

(** [float(z)], as in [int + float]: the nearest binary64 value, or
    [OverflowError] when [z] is out of range. *)
Definition float_of_int (z : Z) : result float :=
  let f := SF2Prim (binary_normalize prec emax z 0 false) in
  if is_infinity f then Raise OverflowError else Ok f.

(** [a / b] on two [int]s: the correctly rounded quotient.  The quotient is
    taken with enough extra bits and a sticky bit, then rounded once. *)
Definition int_true_divide (a b : Z) : result float :=
  if b =? 0 then Raise ZeroDivisionError
  else
    let negate := xorb (a <? 0) (b <? 0) in
    let n := Z.abs a in
    let d := Z.abs b in
    if n =? 0 then Ok (if negate then (-0)%float else 0%float)
    else
      let s := Z.max 0 (57 + Z.log2 d - Z.log2 n) in
      let q := (n * 2 ^ s) / d in
      let sticky := if (n * 2 ^ s) mod d =? 0 then 0 else 1 in
      let m := 2 * q + sticky in
      let f := SF2Prim (binary_normalize prec emax (if negate then - m else m)
                                         (- s - 1) negate) in
      if is_infinity f then Raise OverflowError else Ok f.

(** [n / d] rounded to the nearest integer, ties to the even one. *)
Definition div_half_even (n d : Z) : Z :=
  let q := n / d in
  let r2 := 2 * (n mod d) in
  if r2 <? d then q
  else if d <? r2 then q + 1
  else if Z.even q then q else q + 1.

(** [round(x)] with no [ndigits]: an [int], ties to even; [OverflowError]
    on an infinity and [ValueError] on a NaN. *)
Definition round (x : float) : result Z :=
  match Prim2SF x with
  | S754_zero _ => Ok 0
  | S754_infinity _ => Raise OverflowError
  | S754_nan => Raise ValueError
  | S754_finite sign m e =>
      let v := if 0 <=? e then Z.pos m * 2 ^ e
               else div_half_even (Z.pos m) (2 ^ (- e)) in
      Ok (if sign then - v else v)
  end.

(** [x / y] on floats raises on a zero divisor. *)
Definition float_div (x y : float) : result float :=
  if is_zero y then Raise ZeroDivisionError else Ok (x / y)%float.

Section Pow.
(** The C library's [pow], which CPython calls for the general case.  No
    standard fixes its results bit for bit, so it stays a parameter. *)
Variable libm_pow : float → float → float.

(** [10 ** iw] for a float [iw]: CPython's [float_pow] at base [10.0].  The
    special cases come first and never reach the C library; an infinite
    result of the library is an [OverflowError]. *)
Definition pow10 (iw : float) : result float :=
  if is_zero iw then Ok 1%float
  else if is_nan iw then Ok iw
  else if is_infinity iw then Ok (if (0 <? iw)%float then infinity else 0%float)
  else
    let ix := libm_pow 10%float iw in
    if is_infinity ix then Raise OverflowError else Ok ix.
End Pow.

End PyNum.

(** ** ELO calculation *)

Section Elo.
Variable libm_pow : float → float → float.

(** [K_BASE = 32]; the only use multiplies it by a float, and 32 converts
    exactly. *)
Definition K_BASE : float := 32%float.

(** The [rating_change] that [calculate_new_ratings] computes on its way:
    [K * (1 - prob_winner)]. *)
Definition rating_change
    (winner_rating loser_rating winner_score loser_score : Z) : result float :=
  let k_multiplier :=
    if (winner_score =? 2) && (loser_score =? 0) then 1.5%float else 1.0%float in
  let K := (K_BASE * k_multiplier)%float in
  exponent ← PyNum.int_true_divide (loser_rating - winner_rating) 400;
  power ← PyNum.pow10 libm_pow exponent;
  prob_winner ← PyNum.float_div 1%float (1 + power)%float;
  Ok (K * (1 - prob_winner))%float.

(** [calculate_new_ratings]: the two new ratings, still floats. *)
Definition calculate_new_ratings
    (winner_rating loser_rating winner_score loser_score : Z) : result (float * float) :=
  change ← rating_change winner_rating loser_rating winner_score loser_score;
  wr ← PyNum.float_of_int winner_rating;
  lr ← PyNum.float_of_int loser_rating;
  Ok ((wr + change)%float, (lr - change)%float).

(** The lines of [record_result] that turn a result into the two integer
    ratings it stores: [calculate_new_ratings], then [round] on each. *)
Definition new_elos (winner_elo loser_elo winner_score loser_score : Z) : result (Z * Z) :=
  ratings ← calculate_new_ratings winner_elo loser_elo winner_score loser_score;
  w ← PyNum.round ratings.1;
  l ← PyNum.round ratings.2;
  Ok (w, l).

End Elo.

(** ** Python strings: [str.strip], [int(str)] and [str(int)]

    Strings are byte strings here, so only ASCII blanks and digits count. *)

Module PyStr.

Definition is_space (c : ascii) : bool :=
  let n := N_of_ascii c in
  ((9 <=? n) && (n <=? 13) || (28 <=? n) && (n <=? 32))%N.

Fixpoint lstrip (cs : list ascii) : list ascii :=
  match cs with
  | c :: cs' => if is_space c then lstrip cs' else cs
  | [] => []
  end.

Definition strip (s : string) : string :=
  string_of_list_ascii
    (reverse (lstrip (reverse (lstrip (list_ascii_of_string s))))).

Definition digit (c : ascii) : option Z :=
  let n := N_of_ascii c in
  if ((48 <=? n) && (n <=? 57))%N then Some (Z.of_N n - 48) else None.

(** Decimal digits, with single underscores allowed between digits. *)
Fixpoint digits (acc : Z) (after_digit : bool) (cs : list ascii) : option Z :=
  match cs with
  | [] => if after_digit then Some acc else None
  | c :: cs' =>
      if Ascii.eqb c "_"%char then
        if after_digit then digits acc false cs' else None
      else
        match digit c with
        | Some d => digits (10 * acc + d) true cs'
        | None => None
        end
  end.

(** [int(s)]: [ValueError] unless [s] is a signed decimal literal. *)
Definition int (s : string) : result Z :=
  let parsed :=
    match list_ascii_of_string (strip s) with
    | c :: cs =>
        if Ascii.eqb c "-"%char then Z.opp <$> digits 0 false cs
        else if Ascii.eqb c "+"%char then digits 0 false cs
        else digits 0 false (c :: cs)
    | [] => None
    end in
  match parsed with
  | Some z => Ok z
  | None => Raise ValueError
  end.

(** [str(z)] *)
Definition str (z : Z) : string := NilZero.string_of_int (Z.to_int z).

End PyStr.
(** ** Data model *)

(** A row of [players.csv], as [get_players_from_csv] returns it. *)
Record Player : Type := mkPlayer {
  id : string;
  name : string;
  elo : Z;
  wins : Z;
  losses : Z;
  is_playing : bool
}.

(** An entry of [session_data['active_matches']]. *)
Record Match : Type := mkMatch {
  match_id : string;
  player1Id : string;
  player2Id : string
}.

(** The module-level dictionary [session_data]. *)
Record SessionData : Type := mkSessionData {
  is_active : bool;
  players : gmap string Player;
  waiting_ids : list string;
  active_matches : list Match;
  max_tables : Z
}.

(** Everything a request can read or write: the rows of [players.csv] and
    [session_data]. *)
Record World : Type := mkWorld {
  players_csv : list Player;
  session_data : SessionData
}.

Definition STARTING_ELO : Z := 1000.

Definition initial_session_data : SessionData :=
  {| is_active := false; players := ∅; waiting_ids := [];
     active_matches := []; max_tables := 0 |}.

(** The server right after start-up, over whatever roster file is on disk. *)
Definition initial_world (roster : list Player) : World :=
  {| players_csv := roster; session_data := initial_session_data |}.

(** *** Field updates *)

Definition set_elo (v : Z) (p : Player) : Player :=
  mkPlayer (id p) (name p) v (wins p) (losses p) (is_playing p).
Definition set_wins (v : Z) (p : Player) : Player :=
  mkPlayer (id p) (name p) (elo p) v (losses p) (is_playing p).
Definition set_losses (v : Z) (p : Player) : Player :=
  mkPlayer (id p) (name p) (elo p) (wins p) v (is_playing p).
Definition set_is_playing (v : bool) (p : Player) : Player :=
  mkPlayer (id p) (name p) (elo p) (wins p) (losses p) v.

Definition set_is_active (v : bool) (sd : SessionData) : SessionData :=
  mkSessionData v (players sd) (waiting_ids sd) (active_matches sd) (max_tables sd).
Definition set_players (v : gmap string Player) (sd : SessionData) : SessionData :=
  mkSessionData (is_active sd) v (waiting_ids sd) (active_matches sd) (max_tables sd).
Definition set_waiting_ids (v : list string) (sd : SessionData) : SessionData :=
  mkSessionData (is_active sd) (players sd) v (active_matches sd) (max_tables sd).
Definition set_active_matches (v : list Match) (sd : SessionData) : SessionData :=
  mkSessionData (is_active sd) (players sd) (waiting_ids sd) v (max_tables sd).
Definition set_max_tables (v : Z) (sd : SessionData) : SessionData :=
  mkSessionData (is_active sd) (players sd) (waiting_ids sd) (active_matches sd) v.

(** *** What the endpoints answer *)

(** An active match of the snapshot: the match with its two players looked up
    by [dict.get], so a missing player is [None] (JSON [null]). *)
Record MatchView : Type := mkMatchView {
  view_match : Match;
  player1 : option Player;
  player2 : option Player
}.

(** The dictionary [get_session_state] builds. *)
Record SessionState : Type := mkSessionState {
  isActive : bool;
  activeMatches : list MatchView;
  waitingPlayers : list Player
}.

Inductive body : Type :=
| JsonSession (s : SessionState)
| JsonPlayers (ps : list Player)
| JsonPlayer (p : Player)
| JsonMessage (message : string)
| JsonError (error : string).

(** A Flask response: the JSON body and the HTTP status. *)
Record response : Type := mkResponse {
  resp_body : body;
  status : Z
}.

(** ** The handler monad: state with exceptions *)

Definition M (A : Type) : Type := World → result A * World.

#[export] Instance M_ret : MRet M := λ A a σ, (Ok a, σ).
#[export] Instance M_bind : MBind M := λ A B k m σ,
  match m σ with
  | (Ok a, σ') => k a σ'
  | (Raise e, σ') => (Raise e, σ')
  end.

Definition liftR {A} (r : result A) : M A := λ σ, (r, σ).
Definition session {A} (f : SessionData → A) : M A := λ σ, (Ok (f (session_data σ)), σ).
Definition update_session (f : SessionData → SessionData) : M unit :=
  λ σ, (Ok (), mkWorld (players_csv σ) (f (session_data σ))).

(** ** Helper functions *)

Definition get_players_from_csv : M (list Player) := λ σ, (Ok (players_csv σ), σ).

Definition write_players_to_csv (ps : list Player) : M unit :=
  λ σ, (Ok (), mkWorld ps (session_data σ)).

(** [max] of a non-empty sequence of integers. *)
Definition py_max (z : Z) (zs : list Z) : Z := foldl Z.max z zs.

Definition get_next_player_id (ps : list Player) : result string :=
  match ps with
  | [] => Ok "1"%string
  | _ :: _ =>
      ids ← mapR (λ p, PyStr.int (id p)) ps;
      match ids with
      | z :: zs => Ok (PyStr.str (py_max z zs + 1))
      | [] => Ok "1"%string
      end
  end.

(** The first row whose id is [pid]: [next((p for p in ... if p['id'] == pid), None)]. *)
Definition find_by_id (pid : string) (ps : list Player) : option Player :=
  List.find (λ p, bool_decide (id p = pid)) ps.

(** In-place mutation of the first row whose id is [pid]. *)
Fixpoint update_first (pid : string) (f : Player → Player) (ps : list Player) : list Player :=
  match ps with
  | [] => []
  | p :: ps' =>
      if bool_decide (id p = pid) then f p :: ps' else p :: update_first pid f ps'
  end.

(** ** Scheduling *)

(** [session_data['players'][pid]['elo']], the sort key of the queue. *)
Definition elo_key (ps : gmap string Player) (pid : string) : result Z :=
  match ps !! pid with
  | Some p => Ok (elo p)
  | None => Raise (KeyError pid)
  end.

(** Stable sort on the key, largest first: what [sorted] and [list.sort] do
    with [reverse=True].  The element being inserted comes from the left of
    the ones already placed, so it only moves past strictly larger keys. *)
Fixpoint insert_desc (x : Z * string) (l : list (Z * string)) : list (Z * string) :=
  match l with
  | [] => [x]
  | y :: l' => if x.1 <? y.1 then y :: insert_desc x l' else x :: l
  end.

Definition sort_desc (l : list (Z * string)) : list (Z * string) :=
  foldr insert_desc [] l.

(** [sorted(ids, key=lambda pid: players[pid]['elo'], reverse=True)]: every
    key is computed first, so a missing player raises before anything moves. *)
Definition sorted_by_elo (ps : gmap string Player) (ids : list string) : result (list string) :=
  keyed ← mapR (λ pid, k ← elo_key ps pid; Ok (k, pid)) ids;
  Ok (map snd (sort_desc keyed)).

Definition new_match (p1_id p2_id : string) : Match :=
  {| match_id := "match-" +:+ p1_id +:+ "-" +:+ p2_id;
     player1Id := p1_id;
     player2Id := p2_id |}.

(** The loop of [fill_empty_tables] on the queue and the match list. *)
Fixpoint fill_loop (tables : Z) (waiting : list string) (matches : list Match)
  : list string * list Match :=
  match waiting with
  | p1_id :: p2_id :: rest =>
      if Z.of_nat (length matches) <? tables
      then fill_loop tables rest (matches ++ [new_match p1_id p2_id])
      else (waiting, matches)
  | _ => (waiting, matches)
  end.

Definition fill_tables (sd : SessionData) : SessionData :=
  let r := fill_loop (max_tables sd) (waiting_ids sd) (active_matches sd) in
  set_active_matches r.2 (set_waiting_ids r.1 sd).

Definition fill_empty_tables : M unit := update_session fill_tables.

(** [session_data['waiting_ids'].sort(key=..., reverse=True)] *)
Definition sort_waiting_ids : M unit :=
  ps ← session players;
  ids ← session waiting_ids;
  sorted ← liftR (sorted_by_elo ps ids);
  update_session (set_waiting_ids sorted).

Definition get_session_state_of (sd : SessionData) : result SessionState :=
  let matches :=
    map (λ m, {| view_match := m;
                 player1 := players sd !! player1Id m;
                 player2 := players sd !! player2Id m |}) (active_matches sd) in
  waiting ←
    mapR (λ pid, match players sd !! pid with
                 | Some p => Ok p
                 | None => Raise (KeyError pid)
                 end) (waiting_ids sd);
  Ok {| isActive := is_active sd; activeMatches := matches; waitingPlayers := waiting |}.

Definition get_session_state : M SessionState :=
  sd ← session (λ sd, sd);
  liftR (get_session_state_of sd).

Definition json (b : body) (code : Z) : M response :=
  mret {| resp_body := b; status := code |}.

(** ** API endpoints *)

Definition get_session : M response :=
  s ← get_session_state;
  json (JsonSession s) 200.

Definition get_players : M response :=
  ps ← get_players_from_csv;
  json (JsonPlayers ps) 200.

(** [POST /api/players].  [data_name] is [data['name']] when the body has one. *)
Definition add_player (data_name : option string) : M response :=
  match data_name with
  | None => json (JsonError "Player name is required") 400
  | Some raw =>
      if bool_decide (PyStr.strip raw = ""%string)
      then json (JsonError "Player name is required") 400
      else
        ps ← get_players_from_csv;
        new_id ← liftR (get_next_player_id ps);
        let new_player :=
          {| id := new_id; name := PyStr.strip raw; elo := STARTING_ELO;
             wins := 0; losses := 0; is_playing := true |} in
        write_players_to_csv (ps ++ [new_player]);;
        active ← session is_active;
        (if active : bool then
           update_session (λ sd, set_players (<[new_id := new_player]> (players sd)) sd);;
           update_session (λ sd, set_waiting_ids (waiting_ids sd ++ [new_id]) sd);;
           sort_waiting_ids;;
           fill_empty_tables
         else mret ());;
        json (JsonPlayer new_player) 201
  end.

(** [DELETE /api/players/<player_id>] *)
Definition delete_player (player_id : string) : M response :=
  ps ← get_players_from_csv;
  let players_to_keep := filter (λ p, id p ≠ player_id) ps in
  if bool_decide (length ps = length players_to_keep)
  then json (JsonError "Player not found") 404
  else
    write_players_to_csv players_to_keep;;
    json (JsonMessage "Player deleted") 200.

(** The [for] loop of [toggle_player_status]: the rows after the toggle and
    the new flag of the row it found, or [None] when no row has the id. *)
Fixpoint toggle_first (player_id : string) (ps : list Player) : option (list Player * bool) :=
  match ps with
  | [] => None
  | p :: ps' =>
      if bool_decide (id p = player_id)
      then Some (set_is_playing (negb (is_playing p)) p :: ps', negb (is_playing p))
      else r ← toggle_first player_id ps'; Some (p :: r.1, r.2)
  end.

(** [POST /api/players/toggle] *)
Definition toggle_player_status (player_id : string) : M response :=
  ps ← get_players_from_csv;
  match toggle_first player_id ps with
  | None => json (JsonError "Player not found") 404
  | Some (ps', now_playing) =>
      active ← session is_active;
      (if active && negb now_playing then
         update_session (λ sd, set_players (delete player_id (players sd)) sd);;
         update_session (λ sd,
           set_waiting_ids (filter (λ pid, pid ≠ player_id) (waiting_ids sd)) sd)
       else mret ());;
      write_players_to_csv ps';;
      json (JsonMessage "Player status updated") 200
  end.

(** [{p['id']: p for p in ps}]: a later row replaces an earlier one. *)
Definition players_by_id (ps : list Player) : gmap string Player :=
  foldl (λ m p, <[id p := p]> m) ∅ ps.

(** [POST /api/session/start].  [tableCount] is [None] when the body has no
    such key, and [data.get] then answers 1. *)
Definition start_session (tableCount : option Z) : M response :=
  update_session (set_max_tables (default 1 tableCount));;
  all_players ← get_players_from_csv;
  let players_for_session := filter (λ p, is_playing p = true) all_players in
  if bool_decide (length players_for_session < 2)%nat
  then json (JsonError "Need at least 2 active players") 400
  else
    update_session (set_is_active true);;
    update_session (set_players (players_by_id players_for_session));;
    ps ← session players;
    sorted ← liftR (sorted_by_elo ps (map id players_for_session));
    update_session (set_waiting_ids sorted);;
    update_session (set_active_matches []);;
    fill_empty_tables;;
    s ← get_session_state;
    json (JsonSession s) 200.

(** [POST /api/session/end] *)
Definition end_session : M response :=
  update_session (λ _, initial_session_data);;
  json (JsonMessage "Session ended") 200.

(** [session_data['players'][pid][field] = ...]: [KeyError] when the session
    does not know [pid]. *)
Definition update_session_player (pid : string) (f : Player → Player) : M unit :=
  ps ← session players;
  match ps !! pid with
  | None => liftR (Raise (KeyError pid))
  | Some p => update_session (set_players (<[pid := f p]> ps))
  end.

(** Whether a match is the one between the two players, in either order. *)
Definition is_match_of (winner_id loser_id : string) (m : Match) : Prop :=
  (player1Id m = winner_id ∧ player2Id m = loser_id) ∨
  (player1Id m = loser_id ∧ player2Id m = winner_id).

#[export] Instance is_match_of_dec w l m : Decision (is_match_of w l m).
Proof. unfold is_match_of. apply _. Defined.

Section Record.
Variable libm_pow : float → float → float.

(** [POST /api/session/record] *)
Definition record_result (winner_id loser_id : string) (winner_score loser_score : Z)
  : M response :=
  all_players ← get_players_from_csv;
  match find_by_id winner_id all_players, find_by_id loser_id all_players with
  | Some winner, Some loser =>
      r ← liftR (new_elos libm_pow (elo winner) (elo loser) winner_score loser_score);
      let winner_row p := set_wins (wins p + 1) (set_elo r.1 p) in
      let loser_row p := set_losses (losses p + 1) (set_elo r.2 p) in
      (* [winner] and [loser] are the same row object when the ids agree,
         and then [winner['elo']] reads what the loser update stored. *)
      let winner_elo := if bool_decide (winner_id = loser_id) then r.2 else r.1 in
      let loser_elo := r.2 in
      write_players_to_csv
        (update_first loser_id loser_row (update_first winner_id winner_row all_players));;
      active ← session is_active;
      (if active : bool then
         update_session_player winner_id (set_elo winner_elo);;
         update_session_player winner_id (λ p, set_wins (wins p + 1) p);;
         update_session_player loser_id (set_elo loser_elo);;
         update_session_player loser_id (λ p, set_losses (losses p + 1) p);;
         update_session (λ sd,
           set_active_matches
             (filter (λ m, ¬ is_match_of winner_id loser_id m) (active_matches sd)) sd);;
         update_session (λ sd,
           set_waiting_ids (waiting_ids sd ++ [winner_id; loser_id]) sd);;
         sort_waiting_ids;;
         fill_empty_tables
       else mret ());;
      s ← get_session_state;
      json (JsonSession s) 200
  | _, _ => json (JsonError "Winner or loser not found in master list") 404
  end.

(** ** Requests and runs *)

Inductive request : Type :=
| GetSession
| GetPlayers
| AddPlayer (data_name : option string)
| DeletePlayer (player_id : string)
| TogglePlayerStatus (player_id : string)
| StartSession (tableCount : option Z)
| EndSession
| RecordResult (winner_id loser_id : string) (winner_score loser_score : Z).

Definition handle (req : request) : M response :=
  match req with
  | GetSession => get_session
  | GetPlayers => get_players
  | AddPlayer data_name => add_player data_name
  | DeletePlayer player_id => delete_player player_id
  | TogglePlayerStatus player_id => toggle_player_status player_id
  | StartSession tableCount => start_session tableCount
  | EndSession => end_session
  | RecordResult w l ws ls => record_result w l ws ls
  end.

(** The world after serving the requests in order. *)
Definition run (reqs : list request) (σ : World) : World :=
  foldl (λ σ req, (handle req σ).2) σ reqs.

(** The worlds the server can be in: start-up over any roster, then any
    sequence of requests. *)
Inductive reachable : World → Prop :=
| reachable_initial roster : reachable (initial_world roster)
| reachable_step req σ : reachable σ → reachable (handle req σ).2.

End Record.

(** * Part II: the vocabulary of the properties *)

(** ** The rating update as the specification words it *)

Section SpecElo.
Variable libm_pow : float → float → float.

(** Base K-factor 32, times 1.5 for a shutout and 1.0 otherwise. *)
Definition spec_K (winner_score loser_score : Z) : float :=
  (32 * (if ((winner_score =? 2) && (loser_score =? 0))%Z then 1.5 else 1.0))%float.

(** [1 / (1 + 10^((loserRating - winnerRating)/400))] *)
Definition spec_expectedWinProb (winner_rating loser_rating : Z) : result float :=
  x ← PyNum.int_true_divide (loser_rating - winner_rating) 400;
  p ← PyNum.pow10 libm_pow x;
  PyNum.float_div 1%float (1 + p)%float.

(** [delta = K * (1 - expectedWinProb)] *)
Definition spec_delta (winner_rating loser_rating winner_score loser_score : Z)
  : result float :=
  p ← spec_expectedWinProb winner_rating loser_rating;
  Ok (spec_K winner_score loser_score * (1 - p))%float.

(** [round(winnerRating + delta)] and [round(loserRating - delta)] *)
Definition spec_computeUpdate (winner_rating loser_rating winner_score loser_score : Z)
  : result (Z * Z) :=
  delta ← spec_delta winner_rating loser_rating winner_score loser_score;
  wr ← PyNum.float_of_int winner_rating;
  lr ← PyNum.float_of_int loser_rating;
  new_winner ← PyNum.round (wr + delta)%float;
  new_loser ← PyNum.round (lr - delta)%float;
  Ok (new_winner, new_loser).

End SpecElo.

(** ** Binary64 values as integers

    Every finite binary64 number is a multiple of [2 ^ -1074], so its value
    in that unit is an integer, and the order of floats is the order of
    those integers.  The definitions below describe what [SpecFloat]'s
    rounding does in these terms. *)

(** The exponent the format gives to a number whose leading bit has weight
    [2 ^ (e - 1)]: 53 bits of mantissa, and no exponent below -1074. *)
Definition fexp64 (e : Z) : Z := Z.max (e - 53) (-1074).

(** No bit has been shifted out of [mrs] yet. *)
Definition shr_exact (mrs : shr_record) : Prop := shr_r mrs = false ∧ shr_s mrs = false.

(** [mrs'] is [mrs] shifted right by [k] bits. *)
Definition shifted (k : Z) (mrs mrs' : shr_record) : Prop :=
  shr_m mrs' = shr_m mrs / 2 ^ k ∧
  (shr_exact mrs' ↔ shr_exact mrs ∧ shr_m mrs mod 2 ^ k = 0).

(** The float [binary_round_aux] builds from a rounded mantissa [m2] at
    exponent [e2]. *)
Definition packed (s : bool) (m2 e2 : Z) : spec_float :=
  if m2 =? 0 then S754_zero s
  else if m2 =? 2 ^ 53 then
    if e2 + 1 <=? 971 then S754_finite s (Z.to_pos (2 ^ 52)) (e2 + 1) else S754_infinity s
  else
    if e2 <=? 971 then S754_finite s (Z.to_pos m2) e2 else S754_infinity s.

(** [m * 2 ^ e] in units of [2 ^ -1074], the smallest positive binary64
    number: an integer for every exponent a binary64 float can have. *)
Definition scaled (m e : Z) : Z := m * 2 ^ (e + 1074).

(** A mantissa and exponent in canonical form: the exponent is the one the
    format gives to numbers of that magnitude. *)
Definition canon (m e : Z) : Prop := fexp64 (Zdigits2 m + e) = e.

(** The value of a float in units of [2 ^ -1074]; zero where there is none. *)
Definition Zval (x : spec_float) : Z :=
  match x with
  | S754_finite s m e => cond_Zopp s (scaled (Z.pos m) e)
  | _ => 0
  end.

(** [x] is a number: a zero or a finite float. *)
Definition SFfinite (x : spec_float) : Prop :=
  match x with
  | S754_zero _ | S754_finite _ _ _ => True
  | _ => False
  end.

(** [x] is [+inf] or a number that is at least [A]. *)
Definition lower (A : Z) (x : spec_float) : Prop :=
  x = S754_infinity false ∨ (SFfinite x ∧ A ≤ Zval x).

(** [x] is [-inf] or a number that is at most [A]. *)
Definition upper (A : Z) (x : spec_float) : Prop :=
  x = S754_infinity true ∨ (SFfinite x ∧ Zval x ≤ A).

(** [x] is not below zero: a NaN, a zero of either sign, [+inf] or a
    positive number. *)
Definition nonneg (x : spec_float) : Prop :=
  match x with
  | S754_nan | S754_zero _ => True
  | S754_infinity s | S754_finite s _ _ => s = false
  end.

(** The float [1.0]. *)
Definition one64 : spec_float := S754_finite false 4503599627370496 (-52).

(** The integer nearest to a value given in units of [2 ^ -1074], ties to
    even. *)
Definition nearest_int (z : Z) : Z :=
  if 0 <=? z then PyNum.div_half_even z (2 ^ 1074)
  else - PyNum.div_half_even (- z) (2 ^ 1074).

(** A rating that converts to a float and back without loss. *)
Definition float_exact (z : Z) : Prop :=
  (f ← PyNum.float_of_int z; PyNum.round f) = Ok z.

(** ** Weakest preconditions of handlers

    [wp m Q σ] says that [Q] holds of the result of [m] from [σ] and of the
    world it leaves, whether [m] returns or raises. *)

Definition wp {A} (m : M A) (Q : result A → World → Prop) (σ : World) : Prop :=
  Q (m σ).1 (m σ).2.

Definition with_session (f : SessionData → SessionData) (σ : World) : World :=
  mkWorld (players_csv σ) (f (session_data σ)).

(** [P] holds of the world whenever the handler returned. *)
Definition returned {A} (P : World → Prop) (r : result A) (σ : World) : Prop :=
  is_Ok r = true → P σ.

(** ** Sorting *)

(** Keys in descending order. *)
Definition desc (x y : Z * string) : Prop := y.1 ≤ x.1.

(** The decorated list [sorted_by_elo] sorts. *)
Definition keyed_ids (ps : gmap string Player) (ids : list string)
  : result (list (Z * string)) :=
  mapR (λ pid, k ← elo_key ps pid; Ok (k, pid)) ids.

(** [a] may stand before [b] in the queue: [b] is not rated above [a]. *)
Definition elo_desc (ps : gmap string Player) (a b : string) : Prop :=
  ∀ pa pb, ps !! a = Some pa → ps !! b = Some pb → elo pb ≤ elo pa.

(** ** Properties of a world *)

(** The waiting queue is in descending order of rating. *)
Definition queue_sorted (σ : World) : Prop :=
  StronglySorted (elo_desc (players (session_data σ))) (waiting_ids (session_data σ)).

(** Every queued id is a session player. *)
Definition queue_known (σ : World) : Prop :=
  ∀ pid, pid ∈ waiting_ids (session_data σ) → is_Some (players (session_data σ) !! pid).

(** The ids at the tables, match by match. *)
Definition match_ids (ms : list Match) : list string :=
  concat (map (λ m, [player1Id m; player2Id m]) ms).

Definition playing_ids (σ : World) : list string :=
  match_ids (active_matches (session_data σ)).

(** No queued id is at a table. *)
Definition queue_disjoint (σ : World) : Prop :=
  ∀ pid, pid ∈ waiting_ids (session_data σ) → pid ∉ playing_ids σ.

(** No id twice in the queue, twice at the tables, or in both. *)
Definition partitioned (σ : World) : Prop :=
  NoDup (waiting_ids (session_data σ) ++ playing_ids σ).



Definition active_players (σ : World) : list Player :=
  filter (λ p, is_playing p = true) (players_csv σ).


(** No active match is between [w] and [l]. *)
Definition no_match_for (w l : string) (σ : World) : Prop :=
  Forall (λ m, ¬ is_match_of w l m) (active_matches (session_data σ)).

(** ** Answers *)

Definition insufficient_players : response :=
  {| resp_body := JsonError "Need at least 2 active players"; status := 400 |}.

Definition status_updated : response :=
  {| resp_body := JsonMessage "Player status updated"; status := 200 |}.

Definition not_in_master_list : response :=
  {| resp_body := JsonError "Winner or loser not found in master list"; status := 404 |}.

Definition snapshot_response (r : result response) : Prop :=
  ∃ s, r = Ok {| resp_body := JsonSession s; status := 200 |}.

Definition error_response (r : result response) : Prop :=
  ∃ message code, r = Ok {| resp_body := JsonError message; status := code |}.

(** A session that has just started with one match and nobody waiting. *)
Definition started_one_match (r : result response) (σ' : World) : Prop :=
  (∃ s, r = Ok {| resp_body := JsonSession s; status := 200 |} ∧
        length (activeMatches s) = 1%nat ∧ waitingPlayers s = []) ∧
  is_active (session_data σ') = true ∧
  length (active_matches (session_data σ')) = 1%nat ∧
  waiting_ids (session_data σ') = [].

(** Recording a result for a pair that is not playing, read as an error
    that leaves the schedule alone. *)
Definition match_not_found_claim (libm_pow : float → float → float) : Prop :=
  ∀ σ w l ws ls,
    reachable libm_pow σ →
    is_Some (find_by_id w (players_csv σ)) →
    is_Some (find_by_id l (players_csv σ)) →
    no_match_for w l σ →
    error_response (record_result libm_pow w l ws ls σ).1 ∧
    waiting_ids (session_data (record_result libm_pow w l ws ls σ).2)
      = waiting_ids (session_data σ) ∧
    active_matches (session_data (record_result libm_pow w l ws ls σ).2)
      = active_matches (session_data σ).

(** ** Vocabulary of the further properties *)

(** How many matches [fill_empty_tables] can make: one for each free table,
    as long as two players wait. *)
Definition fill_count (tables : Z) (waiting : list string) (matches : list Match) : nat :=
  Nat.min (Z.to_nat (tables - Z.of_nat (length matches))) (length waiting / 2).

(** The session a successful [start_session] builds from the roster, before
    the tables are filled. *)
Definition fresh_session (roster : list Player) (tables : Z) (sorted : list string)
  : SessionData :=
  {| is_active := true;
     players := players_by_id (filter (λ p, is_playing p = true) roster);
     waiting_ids := sorted;
     active_matches := [];
     max_tables := tables |}.

(** The same session once the tables are filled. *)
Definition started_session (roster : list Player) (tables : Z) (sorted : list string)
  : SessionData :=
  fill_tables (fresh_session roster tables sorted).

(** While no session is active the session holds nothing. *)
Definition idle_empty (σ : World) : Prop :=
  is_active (session_data σ) = false →
  players (session_data σ) = ∅ ∧
  waiting_ids (session_data σ) = [] ∧
  active_matches (session_data σ) = [].


(** The session after [toggle_player_status] has written [now_playing] for
    [pid]: a player switched off during a session leaves its players and its
    queue. *)
Definition toggled_session (pid : string) (now_playing : bool) (sd : SessionData)
  : SessionData :=
  if is_active sd && negb now_playing
  then set_waiting_ids (filter (λ q, q ≠ pid) (waiting_ids sd))
         (set_players (delete pid (players sd)) sd)
  else sd.


(** *** More answers *)

Definition player_not_found : response :=
  {| resp_body := JsonError "Player not found"; status := 404 |}.

Definition player_deleted : response :=
  {| resp_body := JsonMessage "Player deleted"; status := 200 |}.


(** The snapshot of a server with no session. *)
Definition idle_snapshot : response :=
  {| resp_body := JsonSession {| isActive := false; activeMatches := []; waitingPlayers := [] |};
     status := 200 |}.

(** *** Rating points *)

(** The points a match between equally rated players moves: half of K. *)
Definition even_match_points (winner_score loser_score : Z) : Z :=
  if bool_decide (winner_score = 2 ∧ loser_score = 0) then 24 else 16.

(** The most a match can move a rating: K. *)
Definition max_points (winner_score loser_score : Z) : Z :=
  if bool_decide (winner_score = 2 ∧ loser_score = 0) then 48 else 32.

(** The float [x] holds the integer [z]. *)
Definition holds_int (x : float) (z : Z) : Prop :=
  SFfinite (Prim2SF x) ∧ Zval (Prim2SF x) = z * 2 ^ 1074.

(** [x] is a NaN or a number between zero and [A]. *)
Definition within (A : Z) (x : spec_float) : Prop :=
  x = S754_nan ∨ (SFfinite x ∧ 0 ≤ Zval x ≤ A).

(** ** Sample rosters *)

Definition newcomer (pid : string) (playing : bool) : Player :=
  {| id := pid; name := "player " +:+ pid; elo := STARTING_ELO;
     wins := 0; losses := 0; is_playing := playing |}.

Definition four_players : list Player :=
  [newcomer "1" true; newcomer "2" true; newcomer "3" true; newcomer "4" true].

Definition two_and_a_spectator : list Player :=
  [newcomer "1" true; newcomer "2" true; newcomer "3" false].

Definition four_and_a_spectator : list Player :=
  four_players ++ [newcomer "5" false].

(** A C library that is never consulted: the examples below have equal
    ratings, and [10 ** 0.0] is answered by CPython itself. *)
Definition libm_unused : float → float → float := λ _ _, nan.

(** A table of the C library's [pow] at the points the examples need:
    [x ** 1 = x] and [10 ** -22.5], about 3.16e-23; a NaN elsewhere. *)
Definition libm_sample (x y : float) : float :=
  if (y =? 1)%float then x
  else if (x =? 10)%float && (y =? -22.5)%float then 0x1.31d633deb8924p-75%float
  else nan.

(** * Part III: proofs *)

(** ** Lists of results *)

Lemma mapR_Ok_Forall2 {A B} (f : A → result B) l l' :
  mapR f l = Ok l' → Forall2 (λ x y, f x = Ok y) l l'.
Proof.
  revert l'. induction l as [|x l IH]; intros l' H; simpl in H.
  - injection H as <-. constructor.
  - destruct (f x) as [y|] eqn:Hx; [|discriminate]. simpl in H.
    destruct (mapR f l) as [ys|] eqn:Hl; [|discriminate]. simpl in H.
    injection H as <-. constructor; auto.
Qed.

Lemma mapR_total {A B} (f : A → result B) l :
  Forall (λ x, ∃ y, f x = Ok y) l → ∃ l', mapR f l = Ok l'.
Proof.
  induction 1 as [|x l [y Hy] _ [ys Hys]]; simpl.
  - eauto.
  - rewrite Hy. simpl. rewrite Hys. simpl. eauto.
Qed.

(** ** The queue sort *)

Lemma insert_desc_Permutation x l : insert_desc x l ≡ₚ x :: l.
Proof.
  induction l as [|y l IH]; simpl; [done|].
  destruct (x.1 <? y.1); [|done].
  rewrite IH. apply Permutation_swap.
Qed.

Lemma sort_desc_Permutation l : sort_desc l ≡ₚ l.
Proof.
  induction l as [|x l IH]; simpl; [done|].
  rewrite insert_desc_Permutation. by rewrite IH.
Qed.

#[export] Instance desc_transitive : Transitive desc.
Proof. unfold desc. intros x y z ??. lia. Qed.

Lemma insert_desc_Sorted x l : Sorted desc l → Sorted desc (insert_desc x l).
Proof.
  induction 1 as [|y l Hl IH Hhd]; simpl.
  - repeat constructor.
  - destruct (Z.ltb_spec x.1 y.1).
    + constructor; [done|].
      destruct Hhd as [|z l Hz]; simpl.
      * constructor. unfold desc. lia.
      * destruct (x.1 <? z.1); constructor; unfold desc in *; lia.
    + constructor; [by constructor|]. constructor. unfold desc. lia.
Qed.

Lemma sort_desc_Sorted l : Sorted desc (sort_desc l).
Proof.
  induction l as [|x l IH]; simpl; [constructor|]. by apply insert_desc_Sorted.
Qed.

(** Stability: among the entries with one key, the order is the input's. *)
Lemma insert_desc_filter_key k x l :
  Sorted desc l →
  filter (λ y, y.1 = k) (insert_desc x l) = filter (λ y, y.1 = k) (x :: l).
Proof.
  induction 1 as [|y l Hl IH Hhd]; simpl; [done|].
  destruct (Z.ltb_spec x.1 y.1); [|done].
  rewrite !filter_cons in *. rewrite IH.
  destruct (decide (y.1 = k)), (decide (x.1 = k)); try done. lia.
Qed.

Lemma sort_desc_stable k l :
  filter (λ y, y.1 = k) (sort_desc l) = filter (λ y, y.1 = k) l.
Proof.
  induction l as [|x l IH]; simpl; [done|].
  rewrite insert_desc_filter_key by apply sort_desc_Sorted.
  rewrite !filter_cons. by rewrite IH.
Qed.

Lemma keyed_ids_Ok ps ids keyed :
  keyed_ids ps ids = Ok keyed →
  Forall2 (λ pid kp, kp.2 = pid ∧ ∃ p, ps !! pid = Some p ∧ kp.1 = elo p) ids keyed.
Proof.
  intros H%mapR_Ok_Forall2. eapply Forall2_impl; [exact H|].
  intros pid kp. simpl. unfold elo_key.
  destruct (ps !! pid) as [p|]; simpl; [|discriminate].
  intros [= <-]. eauto.
Qed.

Lemma keyed_ids_snd ps ids keyed : keyed_ids ps ids = Ok keyed → map snd keyed = ids.
Proof.
  intros H%keyed_ids_Ok.
  induction H as [|pid kp ids keyed [Hpid _] _ IH]; simpl; [done|]. by rewrite Hpid, IH.
Qed.

Lemma keyed_ids_keys ps ids keyed :
  keyed_ids ps ids = Ok keyed →
  Forall (λ kp, ∃ p, ps !! kp.2 = Some p ∧ kp.1 = elo p) keyed.
Proof.
  intros H%keyed_ids_Ok.
  induction H as [|pid kp ids' keyed' [<- Hp] _ IH]; constructor; auto.
Qed.

Lemma sorted_by_elo_Permutation ps ids ids' :
  sorted_by_elo ps ids = Ok ids' → ids' ≡ₚ ids.
Proof.
  unfold sorted_by_elo. fold (keyed_ids ps ids).
  destruct (keyed_ids ps ids) as [keyed|] eqn:Hk; simpl; [|discriminate].
  intros [= <-]. rewrite sort_desc_Permutation. by rewrite (keyed_ids_snd _ _ _ Hk).
Qed.

Lemma sorted_by_elo_total ps ids :
  (∀ pid, pid ∈ ids → is_Some (ps !! pid)) → ∃ ids', sorted_by_elo ps ids = Ok ids'.
Proof.
  intros Hknown. unfold sorted_by_elo.
  destruct (mapR_total (λ pid, k ← elo_key ps pid; Ok (k, pid)) ids) as [keyed ->].
  - apply Forall_forall. intros pid [p Hp]%Hknown. unfold elo_key. rewrite Hp. simpl. eauto.
  - simpl. eauto.
Qed.

Lemma StronglySorted_snd_keyed ps (keyed : list (Z * string)) :
  Forall (λ kp, ∃ p, ps !! kp.2 = Some p ∧ kp.1 = elo p) keyed →
  StronglySorted desc keyed →
  StronglySorted (elo_desc ps) (map snd keyed).
Proof.
  intros Hkeys Hsorted. induction Hsorted as [|kp keyed _ IH Hall]; simpl; [constructor|].
  apply Forall_cons in Hkeys as [(p & Hp & Hk) Hkeys].
  constructor; [by apply IH|].
  apply Forall_fmap, Forall_forall. intros kq Hkq pa pb Hpa Hpb. simpl in *.
  rewrite Forall_forall in Hall, Hkeys.
  destruct (Hkeys kq Hkq) as (q & Hq & Hkq'). specialize (Hall kq Hkq). unfold desc in Hall.
  simplify_eq. lia.
Qed.

(** What [sorted_by_elo] returns is in descending order of rating. *)
Lemma sorted_by_elo_sorted ps ids sorted :
  sorted_by_elo ps ids = Ok sorted → StronglySorted (elo_desc ps) sorted.
Proof.
  unfold sorted_by_elo. fold (keyed_ids ps ids).
  destruct (keyed_ids ps ids) as [keyed|] eqn:Hk; simpl; [|discriminate].
  intros [= <-]. apply StronglySorted_snd_keyed.
  - rewrite sort_desc_Permutation. by apply keyed_ids_keys in Hk.
  - apply Sorted_StronglySorted; [apply _|]. apply sort_desc_Sorted.
Qed.

Lemma filter_key_snd (ps : gmap string Player) (k : Z) (keyed : list (Z * string)) :
  Forall (λ kp, ∃ p, ps !! kp.2 = Some p ∧ kp.1 = elo p) keyed →
  map snd (filter (λ kp, kp.1 = k) keyed)
    = filter (λ pid, elo <$> ps !! pid = Some k) (map snd keyed).
Proof.
  induction 1 as [|kp keyed (p & Hp & Hk) _ IH]; [done|].
  simpl. rewrite !filter_cons. rewrite Hp. simpl. rewrite <- Hk.
  destruct (decide (kp.1 = k)), (decide (Some kp.1 = Some k)); simpl; congruence.
Qed.

(** Each re-sort is stable: the players of one rating keep their order. *)
Lemma sorted_by_elo_stable (ps : gmap string Player) ids sorted (k : Z) :
  sorted_by_elo ps ids = Ok sorted →
  filter (λ pid, elo <$> ps !! pid = Some k) sorted
    = filter (λ pid, elo <$> ps !! pid = Some k) ids.
Proof.
  unfold sorted_by_elo. fold (keyed_ids ps ids).
  destruct (keyed_ids ps ids) as [keyed|] eqn:Hk; simpl; [|discriminate].
  intros [= <-]. pose proof (keyed_ids_keys _ _ _ Hk) as Hkeys.
  rewrite <- (filter_key_snd ps) by (by rewrite sort_desc_Permutation).
  rewrite sort_desc_stable, (filter_key_snd ps) by done.
  by rewrite (keyed_ids_snd _ _ _ Hk).
Qed.

Lemma elo_desc_delete pid ps a b : elo_desc ps a b → elo_desc (delete pid ps) a b.
Proof.
  intros H pa pb Ha Hb. apply lookup_delete_Some in Ha as [_ Ha].
  apply lookup_delete_Some in Hb as [_ Hb]. eauto.
Qed.

Lemma StronglySorted_filter_mono {A} (R R' : relation A) (P : A → Prop)
    `{∀ x, Decision (P x)} l :
  (∀ x y, R x y → R' x y) → StronglySorted R l → StronglySorted R' (filter P l).
Proof.
  intros Hmono. induction 1 as [|x l _ IH Hall]; [constructor|].
  rewrite filter_cons. destruct (decide (P x)); [|done].
  constructor; [done|]. apply Forall_forall. intros y [_ Hy]%list_elem_of_filter.
  rewrite Forall_forall in Hall. auto.
Qed.

Lemma filter_Forall_id {A} (P : A → Prop) `{∀ x, Decision (P x)} l :
  Forall P l → filter P l = l.
Proof.
  induction 1 as [|x l Hx _ IH]; [done|]. rewrite filter_cons_True by done. by rewrite IH.
Qed.

(** ** Filling tables *)

Lemma match_ids_app ms1 ms2 : match_ids (ms1 ++ ms2) = match_ids ms1 ++ match_ids ms2.
Proof. unfold match_ids. by rewrite map_app, concat_app. Qed.

Lemma match_ids_elem m ms :
  m ∈ ms → player1Id m ∈ match_ids ms ∧ player2Id m ∈ match_ids ms.
Proof.
  induction ms as [|m' ms IH]; [by intros ?%elem_of_nil|].
  change (match_ids (m' :: ms)) with ([player1Id m'; player2Id m'] ++ match_ids ms).
  intros [->|Hm]%elem_of_cons.
  - split; [apply elem_of_cons; by left|].
    apply elem_of_cons; right. apply elem_of_cons; by left.
  - destruct (IH Hm). split; do 2 (apply elem_of_cons; right); done.
Qed.

(** The loop takes pairs off the front of the queue and appends them as
    matches, and stops at the table count. *)
Lemma fill_loop_spec tables waiting matches :
  ∃ taken added,
    waiting = taken ++ (fill_loop tables waiting matches).1 ∧
    (fill_loop tables waiting matches).2 = matches ++ added ∧
    taken = match_ids added ∧
    (Z.of_nat (length (fill_loop tables waiting matches).2)
       ≤ Z.max (Z.of_nat (length matches)) tables).
Proof.
  remember (length waiting) as n eqn:Hn.
  revert waiting matches Hn.
  induction (lt_wf n) as [n _ IH]. intros waiting matches ->.
  destruct waiting as [|p1 [|p2 rest]]; cbn [fill_loop fst snd].
  - exists [], []. rewrite !app_nil_r. split_and!; try done. lia.
  - exists [], []. rewrite !app_nil_r. split_and!; try done. lia.
  - destruct (Z.ltb_spec (Z.of_nat (length matches)) tables); cbn [fst snd].
    + assert (Hlt : (length rest < length (p1 :: p2 :: rest))%nat) by (simpl; lia).
      destruct (IH _ Hlt rest (matches ++ [new_match p1 p2]) eq_refl)
        as (taken & added & Hw & Hm & Ht & Hlen).
      exists (p1 :: p2 :: taken), (new_match p1 p2 :: added).
      split_and!.
      * simpl. by rewrite <- Hw.
      * rewrite Hm. by rewrite <- app_assoc.
      * change (match_ids (new_match p1 p2 :: added))
          with ([p1; p2] ++ match_ids added). by rewrite Ht.
      * rewrite length_app in Hlen. cbn [length] in Hlen. lia.
    + exists [], []. rewrite !app_nil_r. split_and!; try done. lia.
Qed.

Lemma fill_loop_pair tables p1 p2 :
  1 ≤ tables → fill_loop tables [p1; p2] [] = ([], [new_match p1 p2]).
Proof.
  intros H. cbn [fill_loop length app].
  destruct (Z.ltb_spec (Z.of_nat 0) tables); [done|lia].
Qed.

Lemma fill_tables_waiting_suffix sd :
  ∃ taken, waiting_ids sd = taken ++ waiting_ids (fill_tables sd).
Proof.
  destruct (fill_loop_spec (max_tables sd) (waiting_ids sd) (active_matches sd))
    as (taken & _ & Hw & _). by exists taken.
Qed.

Lemma fill_tables_players sd : players (fill_tables sd) = players sd.
Proof. done. Qed.

Lemma fill_tables_matches_prefix sd :
  active_matches sd `prefix_of` active_matches (fill_tables sd).
Proof.
  destruct (fill_loop_spec (max_tables sd) (waiting_ids sd) (active_matches sd))
    as (_ & added & _ & Hm & _). by exists added.
Qed.


Lemma queue_known_fill σ : queue_known σ → queue_known (with_session fill_tables σ).
Proof.
  intros Hk pid Hpid. cbn in *. apply Hk.
  destruct (fill_tables_waiting_suffix (session_data σ)) as [taken ->].
  apply elem_of_app. by right.
Qed.

Lemma queue_sorted_fill σ : queue_sorted σ → queue_sorted (with_session fill_tables σ).
Proof.
  unfold queue_sorted. cbn [with_session session_data]. rewrite fill_tables_players.
  destruct (fill_tables_waiting_suffix (session_data σ)) as [taken Hw]. rewrite Hw at 1.
  apply StronglySorted_app_1_r.
Qed.

(** Filling tables moves ids from the queue to the tables and keeps them
    apart. *)
Lemma partitioned_fill σ : partitioned σ → partitioned (with_session fill_tables σ).
Proof.
  unfold partitioned, playing_ids, with_session, fill_tables.
  cbn [session_data waiting_ids active_matches set_waiting_ids set_active_matches].
  destruct (fill_loop_spec (max_tables (session_data σ)) (waiting_ids (session_data σ))
              (active_matches (session_data σ)))
    as (taken & added & Hw & Hm & Ht & _).
  rewrite Hm, match_ids_app. rewrite <- Ht.
  rewrite Hw at 1. intros H. eapply NoDup_Permutation_proper; [|exact H].
  rewrite <- !app_assoc. rewrite (Permutation_app_comm taken). by rewrite <- !app_assoc.
Qed.

Lemma partitioned_queue_disjoint σ : partitioned σ → queue_disjoint σ.
Proof. unfold partitioned. rewrite NoDup_app. intros (_ & H & _). exact H. Qed.

(** ** Running a handler *)

Lemma wp_ret {A} (a : A) Q σ : Q (Ok a) σ → wp (mret a) Q σ.
Proof. done. Qed.

Lemma wp_bind {A B} (m : M A) (k : A → M B) Q σ :
  wp m (λ r σ', match r with
                | Ok a => wp (k a) Q σ'
                | Raise e => Q (Raise e) σ'
                end) σ →
  wp (m ≫= k) Q σ.
Proof.
  unfold wp, mbind, M_bind. destruct (m σ) as [[a|e] σ']; simpl; [|done].
  by destruct (k a σ').
Qed.

Lemma wp_liftR {A} (r : result A) Q σ : Q r σ → wp (liftR r) Q σ.
Proof. done. Qed.

Lemma wp_session {A} (f : SessionData → A) Q σ :
  Q (Ok (f (session_data σ))) σ → wp (session f) Q σ.
Proof. done. Qed.

Lemma wp_update_session f Q σ :
  Q (Ok ()) (with_session f σ) → wp (update_session f) Q σ.
Proof. done. Qed.

Lemma wp_get_players_from_csv Q σ :
  Q (Ok (players_csv σ)) σ → wp get_players_from_csv Q σ.
Proof. done. Qed.

Lemma wp_write_players_to_csv ps Q σ :
  Q (Ok ()) (mkWorld ps (session_data σ)) → wp (write_players_to_csv ps) Q σ.
Proof. done. Qed.

Lemma wp_json b code Q σ :
  Q (Ok {| resp_body := b; status := code |}) σ → wp (json b code) Q σ.
Proof. done. Qed.

Lemma wp_fill_empty_tables Q σ :
  Q (Ok ()) (with_session fill_tables σ) → wp fill_empty_tables Q σ.
Proof. done. Qed.

Lemma wp_sort_waiting_ids Q σ :
  match sorted_by_elo (players (session_data σ)) (waiting_ids (session_data σ)) with
  | Ok sorted => Q (Ok ()) (with_session (set_waiting_ids sorted) σ)
  | Raise e => Q (Raise e) σ
  end →
  wp sort_waiting_ids Q σ.
Proof.
  unfold wp, sort_waiting_ids, mbind, M_bind, session, liftR, update_session. simpl.
  by destruct (sorted_by_elo _ _).
Qed.

Lemma wp_update_session_player pid f Q σ :
  match players (session_data σ) !! pid with
  | Some p =>
      Q (Ok ()) (with_session (set_players (<[pid := f p]> (players (session_data σ)))) σ)
  | None => Q (Raise (KeyError pid)) σ
  end →
  wp (update_session_player pid f) Q σ.
Proof.
  unfold wp, update_session_player, mbind, M_bind, session, liftR, update_session. simpl.
  by destruct (_ !! _).
Qed.

Lemma wp_get_session_state Q σ :
  Q (get_session_state_of (session_data σ)) σ → wp get_session_state Q σ.
Proof. done. Qed.

Lemma wp_get_session Q σ :
  match get_session_state_of (session_data σ) with
  | Ok s => Q (Ok {| resp_body := JsonSession s; status := 200 |}) σ
  | Raise e => Q (Raise e) σ
  end →
  wp get_session Q σ.
Proof.
  unfold wp, get_session, get_session_state, mbind, M_bind, session, liftR, json. simpl.
  by destruct (get_session_state_of _).
Qed.

(** One step of symbolic execution. *)
Ltac wp_step :=
  lazymatch goal with
  | |- wp (mbind _ _) _ _ => apply wp_bind
  | |- wp (mret _) _ _ => apply wp_ret
  | |- wp (liftR _) _ _ => apply wp_liftR
  | |- wp (session _) _ _ => apply wp_session
  | |- wp (update_session _) _ _ => apply wp_update_session
  | |- wp get_players_from_csv _ _ => apply wp_get_players_from_csv
  | |- wp (write_players_to_csv _) _ _ => apply wp_write_players_to_csv
  | |- wp (json _ _) _ _ => apply wp_json
  | |- wp fill_empty_tables _ _ => apply wp_fill_empty_tables
  | |- wp sort_waiting_ids _ _ => apply wp_sort_waiting_ids
  | |- wp (update_session_player _ _) _ _ => apply wp_update_session_player
  | |- wp get_session_state _ _ => apply wp_get_session_state
  | |- wp get_session _ _ => apply wp_get_session
  end.

Ltac wp_steps := repeat wp_step.

Ltac wp_returned := wp_steps; unfold returned; cbn [is_Ok]; try done.

(** Names the world a handler ends in and asks for [P] of it. *)
Ltac final_world P H :=
  match goal with
  | |- context [get_session_state_of (session_data ?σ')] => assert (P σ') as H
  end.

(** ** Starting a session *)

Lemma players_by_id_lookup ps p :
  p ∈ ps → is_Some (players_by_id ps !! id p).
Proof.
  unfold players_by_id. generalize (∅ : gmap string Player).
  induction ps as [|q ps IH]; intros m Hp; [by apply elem_of_nil in Hp|].
  apply elem_of_cons in Hp as [->|Hp]; simpl; [|by apply IH].
  clear IH. assert (is_Some (<[id q:=q]> m !! id q)) as H by (rewrite lookup_insert_eq; eauto).
  revert H. generalize (<[id q:=q]> m). induction ps as [|r ps IH]; intros m' H; simpl; [done|].
  apply IH. destruct (decide (id r = id q)) as [->|].
  - rewrite lookup_insert_eq. eauto.
  - by rewrite lookup_insert_ne.
Qed.

Lemma start_session_sorted_total ps :
  ∃ sorted, sorted_by_elo (players_by_id ps) (map id ps) = Ok sorted.
Proof.
  apply sorted_by_elo_total. intros pid (p & -> & Hp)%list_elem_of_fmap.
  by apply players_by_id_lookup.
Qed.

(** A rejected start answers 400 and changes [max_tables], nothing else. *)
Lemma start_session_rejected tableCount σ :
  (length (active_players σ) < 2)%nat →
  start_session tableCount σ =
    (Ok insufficient_players,
     with_session (set_max_tables (default 1 tableCount)) σ).
Proof.
  intros Hfew. unfold start_session, mbind, M_bind, update_session,
    get_players_from_csv, json, mret, M_ret. cbn [players_csv].
  fold (active_players σ). by rewrite bool_decide_eq_true_2.
Qed.

Lemma start_session_two tableCount σ :
  length (active_players σ) = 2%nat →
  1 ≤ default 1 tableCount →
  wp (start_session tableCount) started_one_match σ.
Proof.
  intros Htwo Htables. unfold start_session. wp_steps. cbn [players_csv with_session].
  fold (active_players σ). case_bool_decide; [lia|]. wp_steps.
  cbn [with_session session_data players set_players].
  destruct (start_session_sorted_total (active_players σ)) as [sorted Hs].
  rewrite Hs. wp_steps.
  pose proof (Permutation_length (sorted_by_elo_Permutation _ _ _ Hs)) as Hlen.
  rewrite length_map, Htwo in Hlen.
  destruct sorted as [|p1 [|p2 [|]]]; try discriminate Hlen.
  unfold with_session, fill_tables, get_session_state_of.
  cbn [session_data waiting_ids active_matches max_tables set_max_tables set_is_active
       set_players set_waiting_ids set_active_matches players is_active].
  rewrite fill_loop_pair by done. cbn. wp_steps.
  unfold started_one_match. cbn. eauto 10.
Qed.

(** ** The capacity bound, handler by handler *)

Section Capacity.
Variable libm_pow : float → float → float.









End Capacity.

(** ** Every queued id is a session player *)

Lemma queue_known_sorted σ sorted :
  sorted_by_elo (players (session_data σ)) (waiting_ids (session_data σ)) = Ok sorted →
  queue_known σ → queue_known (with_session (set_waiting_ids sorted) σ).
Proof.
  intros Hs%sorted_by_elo_Permutation Hk pid Hpid. cbn in *. apply Hk. by rewrite <- Hs.
Qed.

Lemma queue_known_insert pid p σ :
  queue_known σ →
  queue_known (with_session (set_players (<[pid := p]> (players (session_data σ)))) σ).
Proof.
  intros Hk x Hx. cbn in *. apply lookup_insert_is_Some'. right. by apply Hk.
Qed.

Lemma queue_known_append pid σ :
  is_Some (players (session_data σ) !! pid) →
  queue_known σ →
  queue_known (with_session (λ sd, set_waiting_ids (waiting_ids sd ++ [pid]) sd) σ).
Proof.
  intros Hp Hk x Hx. cbn in *.
  apply elem_of_app in Hx as [Hx|Hx%list_elem_of_singleton]; [by apply Hk | by subst].
Qed.

(** The snapshot can be built whenever every queued id is known. *)
Lemma queue_known_get_session_state σ :
  queue_known σ → ∃ s, get_session_state_of (session_data σ) = Ok s.
Proof.
  intros Hk. unfold get_session_state_of.
  destruct (mapR_total
              (λ pid, match players (session_data σ) !! pid with
                      | Some p => Ok p
                      | None => Raise (KeyError pid)
                      end) (waiting_ids (session_data σ))) as [waiting ->].
  - apply Forall_forall. intros pid [p Hp]%Hk. rewrite Hp. eauto.
  - simpl. eauto.
Qed.

Lemma get_session_state_of_matches sd s :
  get_session_state_of sd = Ok s →
  activeMatches s =
    map (λ m, {| view_match := m;
                 player1 := players sd !! player1Id m;
                 player2 := players sd !! player2Id m |}) (active_matches sd).
Proof.
  unfold get_session_state_of. destruct (mapR _ _); simpl; [|done]. by intros [= <-].
Qed.

Section QueueKnown.
Variable libm_pow : float → float → float.

Lemma add_player_queue_known data_name σ :
  queue_known σ → wp (add_player data_name) (λ _, queue_known) σ.
Proof.
  intros Hk. unfold add_player.
  destruct data_name as [raw|]; [|by wp_steps].
  case_bool_decide; [by wp_steps|].
  wp_steps. destruct (get_next_player_id _) as [new_id|]; [|done].
  wp_steps. cbn [session_data]. destruct (is_active (session_data σ)); [|by wp_steps].
  wp_steps.
  match goal with |- context [with_session ?f (with_session ?g ?w)] =>
    assert (queue_known (with_session f (with_session g w))) as Hk'
  end.
  { apply queue_known_append; [cbn; by rewrite lookup_insert_eq|].
    by apply (queue_known_insert new_id _ (mkWorld _ (session_data σ))). }
  destruct (sorted_by_elo _ _) as [sorted|] eqn:Hs; [|done].
  wp_steps. apply queue_known_fill. by apply queue_known_sorted.
Qed.

Lemma toggle_player_status_queue_known player_id σ :
  queue_known σ → wp (toggle_player_status player_id) (λ _, queue_known) σ.
Proof.
  intros Hk. unfold toggle_player_status. wp_steps.
  destruct (toggle_first _ _) as [[ps' now_playing]|]; [|by wp_steps].
  wp_steps. destruct (_ && _); wp_steps; [|done].
  intros pid [Hne Hpid]%list_elem_of_filter. cbn in *.
  rewrite lookup_delete_ne by done. by apply Hk.
Qed.

Lemma start_session_queue_known tableCount σ :
  queue_known σ → wp (start_session tableCount) (λ _, queue_known) σ.
Proof.
  intros Hk. unfold start_session. wp_steps. cbn [players_csv with_session].
  fold (active_players σ). case_bool_decide; [by wp_steps|]. wp_steps.
  cbn [with_session session_data players set_players].
  destruct (start_session_sorted_total (active_players σ)) as [sorted Hs].
  rewrite Hs. wp_steps. final_world queue_known Hfin.
  { apply queue_known_fill. intros pid Hpid. cbn in *.
    apply sorted_by_elo_Permutation in Hs. rewrite Hs in Hpid.
    apply list_elem_of_fmap in Hpid as (p & -> & Hp). by apply players_by_id_lookup. }
  by destruct (get_session_state_of _); wp_steps.
Qed.

Lemma record_result_queue_known w l ws ls σ :
  queue_known σ → wp (record_result libm_pow w l ws ls) (λ _, queue_known) σ.
Proof.
  intros Hk. unfold record_result. wp_steps.
  destruct (find_by_id w _) as [winner|]; [|by wp_steps].
  destruct (find_by_id l _) as [loser|]; [|by wp_steps].
  wp_steps. destruct (new_elos _ _ _ _ _) as [r|]; [|done].
  wp_steps. cbn [session_data].
  destruct (is_active (session_data σ)).
  - wp_steps. cbn [session_data].
    destruct (players (session_data σ) !! w) as [pw|] eqn:Hw; [|done]. wp_steps.
    cbn [with_session session_data players set_players]. rewrite lookup_insert_eq. wp_steps.
    cbn [with_session session_data players set_players].
    destruct (_ !! l) as [pl|] eqn:Hl.
    2:{ intros pid Hpid. cbn in *. rewrite !lookup_insert_is_Some'. right. right. by apply Hk. }
    wp_steps.
    cbn [with_session session_data players set_players]. rewrite lookup_insert_eq. wp_steps.
    match goal with |- match sorted_by_elo ?ps ?ids with _ => _ end =>
      assert (∀ pid, pid ∈ ids → is_Some (ps !! pid)) as Hk'
    end.
    { intros pid Hpid. cbn in *. rewrite !lookup_insert_is_Some'.
      apply elem_of_app in Hpid as [Hpid|Hpid].
      - do 4 right. by apply Hk.
      - apply elem_of_cons in Hpid as [->|Hpid%list_elem_of_singleton].
        + do 3 right. by left.
        + left. by subst. }
    destruct (sorted_by_elo _ _) as [sorted|] eqn:Hs; wp_steps.
    + final_world queue_known Hfin.
      { apply queue_known_fill. intros pid Hpid. cbn in *.
        apply sorted_by_elo_Permutation in Hs. rewrite Hs in Hpid. by apply Hk'. }
      by destruct (get_session_state_of _); wp_steps.
    + exact Hk'.
  - wp_steps. by destruct (get_session_state_of _); wp_steps.
Qed.

Lemma handle_queue_known req σ :
  queue_known σ → queue_known (handle libm_pow req σ).2.
Proof.
  intros Hk. change (wp (handle libm_pow req) (λ _, queue_known) σ).
  destruct req; simpl.
  - by destruct (get_session_state_of (session_data σ)) eqn:E; wp_steps; rewrite E.
  - by unfold get_players; wp_steps.
  - by apply add_player_queue_known.
  - unfold delete_player. wp_steps. case_bool_decide; by wp_steps.
  - by apply toggle_player_status_queue_known.
  - by apply start_session_queue_known.
  - unfold end_session. wp_steps. intros pid Hpid. by apply elem_of_nil in Hpid.
  - by apply record_result_queue_known.
Qed.

Lemma reachable_queue_known σ : reachable libm_pow σ → queue_known σ.
Proof.
  induction 1 as [roster|req σ _ IH].
  - intros pid Hpid. by apply elem_of_nil in Hpid.
  - by apply handle_queue_known.
Qed.

Lemma run_reachable reqs σ :
  reachable libm_pow σ → reachable libm_pow (run libm_pow reqs σ).
Proof.
  revert σ. induction reqs as [|req reqs IH]; intros σ Hσ; simpl; [done|].
  apply IH. by constructor.
Qed.

End QueueKnown.

(** ** The queue order, handler by handler *)

Section QueueSorted.
Variable libm_pow : float → float → float.

Lemma add_player_queue_sorted data_name σ :
  queue_sorted σ → wp (add_player data_name) (returned queue_sorted) σ.
Proof.
  intros Hsorted. unfold add_player.
  destruct data_name as [raw|]; [|wp_returned].
  case_bool_decide; [wp_returned|].
  wp_steps. destruct (get_next_player_id _) as [new_id|]; [|wp_returned].
  wp_steps. cbn [session_data]. destruct (is_active (session_data σ)); [|wp_returned].
  wp_steps. destruct (sorted_by_elo _ _) as [sorted|] eqn:Hs; [|wp_returned].
  wp_returned. intros _. apply queue_sorted_fill. by apply sorted_by_elo_sorted in Hs.
Qed.

Lemma toggle_player_status_queue_sorted player_id σ :
  queue_sorted σ → wp (toggle_player_status player_id) (returned queue_sorted) σ.
Proof.
  intros Hsorted. unfold toggle_player_status. wp_steps.
  destruct (toggle_first _ _) as [[ps' now_playing]|]; [|wp_returned].
  wp_steps. destruct (_ && _); wp_returned.
  intros _. unfold queue_sorted. cbn.
  eapply StronglySorted_filter_mono; [|exact Hsorted]. intros a b. apply elo_desc_delete.
Qed.

Lemma start_session_queue_sorted tableCount σ :
  queue_sorted σ → wp (start_session tableCount) (returned queue_sorted) σ.
Proof.
  intros Hsorted. unfold start_session. wp_steps. cbn [players_csv with_session].
  case_bool_decide; [wp_returned|]. wp_steps.
  cbn [with_session session_data players set_players].
  destruct (sorted_by_elo _ _) as [sorted|] eqn:Hs; [|wp_returned].
  wp_steps. final_world queue_sorted Hfin.
  { apply queue_sorted_fill. by apply sorted_by_elo_sorted in Hs. }
  destruct (get_session_state_of _); wp_returned.
Qed.

Lemma record_result_queue_sorted w l ws ls σ :
  queue_sorted σ → wp (record_result libm_pow w l ws ls) (returned queue_sorted) σ.
Proof.
  intros Hsorted. unfold record_result. wp_steps.
  destruct (find_by_id w _) as [winner|]; [|wp_returned].
  destruct (find_by_id l _) as [loser|]; [|wp_returned].
  wp_steps. destruct (new_elos _ _ _ _ _) as [r|]; [|wp_returned].
  wp_steps. cbn [session_data].
  destruct (is_active (session_data σ)).
  - wp_steps. cbn [session_data].
    destruct (players (session_data σ) !! w) as [pw|] eqn:Hw; [|wp_returned]. wp_steps.
    cbn [with_session session_data players set_players]. rewrite lookup_insert_eq. wp_steps.
    cbn [with_session session_data players set_players].
    destruct (_ !! l) as [pl|] eqn:Hl; [|wp_returned].
    wp_steps.
    cbn [with_session session_data players set_players]. rewrite lookup_insert_eq. wp_steps.
    destruct (sorted_by_elo _ _) as [sorted|] eqn:Hs; wp_steps; [|wp_returned].
    final_world queue_sorted Hfin.
    { apply queue_sorted_fill. by apply sorted_by_elo_sorted in Hs. }
    destruct (get_session_state_of _); wp_returned.
  - wp_steps. destruct (get_session_state_of _); wp_returned.
Qed.

(** The queue stays in descending order of rating across every request
    that returns.  (A request that raises may leave it out of order, see
    [record_result_failure_leaves_queue_unsorted].) *)
Lemma handle_queue_sorted req σ :
  queue_sorted σ →
  is_Ok (handle libm_pow req σ).1 = true →
  queue_sorted (handle libm_pow req σ).2.
Proof.
  intros Hsorted. change (wp (handle libm_pow req) (returned queue_sorted) σ).
  destruct req; simpl.
  - destruct (get_session_state_of (session_data σ)) eqn:E; wp_steps; rewrite E; wp_returned.
  - unfold get_players. wp_returned.
  - by apply add_player_queue_sorted.
  - unfold delete_player. wp_steps. case_bool_decide; wp_returned.
  - by apply toggle_player_status_queue_sorted.
  - by apply start_session_queue_sorted.
  - unfold end_session. wp_returned. constructor.
  - by apply record_result_queue_sorted.
Qed.

End QueueSorted.

(** ** The queue and the tables, when the recorded pair is playing *)

Lemma filter_other_matches w l (ms : list Match) :
  (∀ x, x ∈ [w; l] → x ∉ match_ids ms) →
  filter (λ m, ¬ is_match_of w l m) ms = ms.
Proof.
  intros Hfresh. apply filter_Forall_id, Forall_forall. intros m Hm Hmatch.
  destruct (match_ids_elem m ms Hm) as [Hin _].
  destruct Hmatch as [[H1 _]|[H1 _]]; rewrite H1 in Hin;
    (eapply Hfresh; [|exact Hin]).
  - apply elem_of_cons; by left.
  - apply elem_of_cons; right. apply elem_of_cons; by left.
Qed.

Lemma partitioned_requeue w l m σ :
  partitioned σ →
  m ∈ active_matches (session_data σ) →
  is_match_of w l m →
  NoDup ((waiting_ids (session_data σ) ++ [w; l]) ++
         match_ids (filter (λ m, ¬ is_match_of w l m) (active_matches (session_data σ)))).
Proof.
  unfold partitioned, playing_ids. intros Hnodup Hm Hmatch.
  apply list_elem_of_split in Hm as (ms1 & ms2 & Hsplit). rewrite Hsplit in *.
  rewrite match_ids_app in Hnodup. change (match_ids (m :: ms2))
    with ([player1Id m; player2Id m] ++ match_ids ms2) in Hnodup.
  assert ([player1Id m; player2Id m] ≡ₚ [w; l]) as Hpair.
  { destruct Hmatch as [[-> ->]|[-> ->]]; [done|apply Permutation_swap]. }
  rewrite Hpair in Hnodup.
  assert (NoDup (waiting_ids (session_data σ) ++ [w; l] ++ match_ids ms1 ++ match_ids ms2))
    as Hnodup'.
  { eapply NoDup_Permutation_proper; [|exact Hnodup].
    rewrite !app_assoc. f_equiv. rewrite <- !app_assoc. f_equiv. apply Permutation_app_comm. }
  rewrite filter_app, filter_cons_False by (intros H; by apply H).
  rewrite <- match_ids_app in Hnodup'.
  rewrite <- filter_app, filter_other_matches; [by rewrite <- app_assoc|].
  apply NoDup_app in Hnodup' as (_ & _ & Hnodup').
  apply NoDup_app in Hnodup' as (_ & Hfresh & _). exact Hfresh.
Qed.

Section Partition.
Variable libm_pow : float → float → float.

(** Recording the result of a match that is being played moves its two
    players from the table to the queue and keeps queue and tables apart. *)
Lemma record_result_of_match_partitioned w l ws ls m σ :
  partitioned σ →
  m ∈ active_matches (session_data σ) →
  is_match_of w l m →
  partitioned (record_result libm_pow w l ws ls σ).2.
Proof.
  intros Hpart Hm Hmatch.
  change (wp (record_result libm_pow w l ws ls) (λ _, partitioned) σ).
  unfold record_result. wp_steps.
  destruct (find_by_id w _) as [winner|]; [|by wp_steps].
  destruct (find_by_id l _) as [loser|]; [|by wp_steps].
  wp_steps. destruct (new_elos _ _ _ _ _) as [r|]; [|done].
  wp_steps. cbn [session_data].
  destruct (is_active (session_data σ)).
  - wp_steps. cbn [session_data].
    destruct (players (session_data σ) !! w) as [pw|] eqn:Hw; [|done]. wp_steps.
    cbn [with_session session_data players set_players]. rewrite lookup_insert_eq. wp_steps.
    cbn [with_session session_data players set_players].
    destruct (_ !! l) as [pl|] eqn:Hl; [|done].
    wp_steps.
    cbn [with_session session_data players set_players]. rewrite lookup_insert_eq. wp_steps.
    pose proof (partitioned_requeue w l m σ Hpart Hm Hmatch) as Hrequeued.
    destruct (sorted_by_elo _ _) as [sorted|] eqn:Hs; wp_steps; [|exact Hrequeued].
    final_world partitioned Hfin.
    { apply partitioned_fill. unfold partitioned, playing_ids. cbn.
      apply sorted_by_elo_Permutation in Hs. cbn in Hs. by rewrite Hs. }
    by destruct (get_session_state_of _); wp_steps.
  - wp_steps. by destruct (get_session_state_of _); wp_steps.
Qed.

End Partition.

(** ** Looking rows up after an update *)

Lemma find_by_id_update_first_eq pid f ps :
  (∀ p, id (f p) = id p) →
  find_by_id pid (update_first pid f ps) = f <$> find_by_id pid ps.
Proof.
  intros Hid. unfold find_by_id. induction ps as [|p ps IH]; simpl; [done|].
  case_bool_decide as Hp; simpl.
  - by rewrite bool_decide_eq_true_2 by (by rewrite Hid).
  - by rewrite bool_decide_eq_false_2 by done.
Qed.

Lemma find_by_id_update_first_ne pid pid' f ps :
  pid ≠ pid' → (∀ p, id (f p) = id p) →
  find_by_id pid (update_first pid' f ps) = find_by_id pid ps.
Proof.
  intros Hne Hid. unfold find_by_id. induction ps as [|p ps IH]; simpl; [done|].
  case_bool_decide as Hp; simpl.
  - rewrite bool_decide_eq_false_2 by (rewrite Hid; congruence).
    by rewrite bool_decide_eq_false_2 by congruence.
  - by rewrite IH.
Qed.

Lemma toggle_first_found pid ps p :
  find_by_id pid ps = Some p →
  ∃ ps', toggle_first pid ps = Some (ps', negb (is_playing p)).
Proof.
  unfold find_by_id. induction ps as [|q ps IH]; simpl; [done|].
  case_bool_decide as Hq.
  - intros [= ->]. eauto.
  - intros [ps' ->]%IH. simpl. eauto.
Qed.

(** An id that is not in the roster is answered 404 before anything is
    written. *)
Lemma record_result_not_in_roster libm_pow w l ws ls σ :
  find_by_id w (players_csv σ) = None ∨ find_by_id l (players_csv σ) = None →
  record_result libm_pow w l ws ls σ = (Ok not_in_master_list, σ).
Proof.
  intros H. unfold record_result, mbind, M_bind, get_players_from_csv, json, mret, M_ret.
  destruct H as [-> | ->]; [done|]. by destruct (find_by_id w _).
Qed.

(** ** The rating update *)

Lemma new_elos_unfold libm_pow w l ws ls :
  new_elos libm_pow w l ws ls = spec_computeUpdate libm_pow w l ws ls.
Proof.
  unfold new_elos, spec_computeUpdate, spec_delta, spec_expectedWinProb,
    calculate_new_ratings, rating_change, spec_K, K_BASE.
  destruct (PyNum.int_true_divide (l - w) 400) as [x|]; simpl; [|done].
  destruct (PyNum.pow10 libm_pow x) as [p|]; simpl; [|done].
  destruct (PyNum.float_div 1 (1 + p)) as [prob|]; simpl; [|done].
  destruct (PyNum.float_of_int w) as [wr|]; simpl; [|done].
  destruct (PyNum.float_of_int l) as [lr|]; simpl; [|done].
  done.
Qed.

Lemma spec_K_shutout ws ls :
  spec_K ws ls = (if bool_decide (ws = 2 ∧ ls = 0) then 48%float else 32%float).
Proof.
  unfold spec_K. case_bool_decide as H.
  - destruct H as [-> ->]. reflexivity.
  - destruct (Z.eqb_spec ws 2), (Z.eqb_spec ls 0); simpl; try reflexivity. tauto.
Qed.

(** [round] sends a tie to the even neighbour, on both sides of zero. *)
Lemma round_ties_to_even :
  PyNum.round 0.5 = Ok 0 ∧ PyNum.round 1.5 = Ok 2 ∧ PyNum.round 2.5 = Ok 2 ∧
  PyNum.round (-0.5) = Ok 0 ∧ PyNum.round (-1.5) = Ok (-2) ∧
  PyNum.round 1023.5 = Ok 1024 ∧ PyNum.round 1024.5 = Ok 1024.
Proof. vm_compute. done. Qed.

(** C4: for every pair of ratings and scores the stored ratings are the
    specification's formula computed step by step in binary64: K is 32 times
    1.5 for a 2-0 result and 32 otherwise, the expected win probability is
    1 / (1 + 10^((loser - winner) / 400)), delta is K (1 - probability), and
    both new ratings are integers obtained by the same [round] from
    winner + delta and loser - delta; ratings (1000, 1000) with a 2-0 result
    give probability 0.5, delta 24 and new ratings (1024, 976). *)
Theorem rating_update_formula libm_pow w l ws ls :
  new_elos libm_pow w l ws ls = spec_computeUpdate libm_pow w l ws ls ∧
  spec_K ws ls = (if bool_decide (ws = 2 ∧ ls = 0) then 48%float else 32%float) ∧
  (∀ nw nl, new_elos libm_pow w l ws ls = Ok (nw, nl) →
     ∃ fw fl, calculate_new_ratings libm_pow w l ws ls = Ok (fw, fl) ∧
              PyNum.round fw = Ok nw ∧ PyNum.round fl = Ok nl) ∧
  spec_expectedWinProb libm_pow 1000 1000 = Ok 0.5%float ∧
  spec_delta libm_pow 1000 1000 2 0 = Ok 24%float ∧
  new_elos libm_pow 1000 1000 2 0 = Ok (1024, 976).
Proof.
  split_and!.
  - apply new_elos_unfold.
  - apply spec_K_shutout.
  - intros nw nl. unfold new_elos.
    destruct (calculate_new_ratings libm_pow w l ws ls) as [[fw fl]|]; simpl; [|done].
    destruct (PyNum.round fw) as [nw'|] eqn:Hw; simpl; [|done].
    destruct (PyNum.round fl) as [nl'|] eqn:Hl; simpl; [|done].
    intros [= <- <-]. eauto.
  - reflexivity.
  - reflexivity.
  - reflexivity.
Qed.

(** ** Rounding to binary64: the length of a mantissa *)

Lemma fexp64_eq e : SpecFloat.fexp prec emax e = fexp64 e.
Proof. reflexivity. Qed.

Lemma digits2_pos_size p : digits2_pos p = Pos.size p.
Proof. induction p as [p IH|p IH|]; simpl; congruence. Qed.

Lemma Zdigits2_log2 m : 0 < m → Zdigits2 m = Z.log2 m + 1.
Proof.
  destruct m as [|p|p]; try lia. intros _. simpl. rewrite digits2_pos_size.
  destruct p as [p|p|]; simpl; lia.
Qed.

Lemma Zdigits2_bounds m : 0 < m → 2 ^ (Zdigits2 m - 1) ≤ m < 2 ^ Zdigits2 m.
Proof.
  intros Hm. rewrite Zdigits2_log2 by done.
  replace (Z.log2 m + 1 - 1) with (Z.log2 m) by lia.
  apply Z.log2_spec. done.
Qed.

Lemma Zdigits2_pos m : 0 < m → 0 < Zdigits2 m.
Proof. intros Hm. rewrite Zdigits2_log2 by done. pose proof (Z.log2_nonneg m). lia. Qed.

Lemma Zdigits2_le m n : 0 < m → m ≤ n → Zdigits2 m ≤ Zdigits2 n.
Proof.
  intros Hm Hmn. rewrite !Zdigits2_log2 by lia.
  pose proof (Z.log2_le_mono m n Hmn). lia.
Qed.

Lemma Zdigits2_lt_pow2 m k : 0 < m → m < 2 ^ k → Zdigits2 m ≤ k.
Proof.
  intros Hm Hk. rewrite Zdigits2_log2 by done.
  destruct (Z.le_gt_cases 0 k) as [Hk0|Hk0].
  - apply Z.log2_lt_pow2 in Hk; lia.
  - rewrite Z.pow_neg_r in Hk by done. lia.
Qed.

Lemma Zdigits2_ge_pow2 m k : 0 ≤ k → 2 ^ k ≤ m → k + 1 ≤ Zdigits2 m.
Proof.
  intros Hk Hm. assert (0 < m) by (pose proof (Z.pow_pos_nonneg 2 k); lia).
  rewrite Zdigits2_log2 by done. apply Z.log2_le_pow2 in Hm; lia.
Qed.

Lemma Zdigits2_mul_pow2 m k : 0 < m → 0 ≤ k → Zdigits2 (m * 2 ^ k) = Zdigits2 m + k.
Proof.
  intros Hm Hk. assert (0 < 2 ^ k) by (apply Z.pow_pos_nonneg; lia).
  rewrite !Zdigits2_log2 by nia. rewrite Z.log2_mul_pow2 by done. lia.
Qed.

Lemma Zdigits2_div_pow2 m k :
  0 < m → 0 ≤ k → k < Zdigits2 m → Zdigits2 (m / 2 ^ k) = Zdigits2 m - k.
Proof.
  intros Hm Hk Hlt. rewrite Zdigits2_log2 in Hlt by done.
  assert (2 ^ k ≤ m) as Hle.
  { apply Z.log2_le_pow2; lia. }
  assert (0 < 2 ^ k) by (apply Z.pow_pos_nonneg; lia).
  assert (0 < m / 2 ^ k) by (apply Z.div_str_pos; lia).
  rewrite Zdigits2_log2 by done.
  rewrite <- Z.shiftr_div_pow2 by done. rewrite Z.log2_shiftr by done.
  rewrite (Zdigits2_log2 m) by done. lia.
Qed.

(** ** Shifting a mantissa right *)

Lemma shifted_shr_1 mrs : 0 ≤ shr_m mrs → shifted 1 mrs (shr_1 mrs).
Proof.
  destruct mrs as [m r s]. simpl. intros Hm. unfold shifted, shr_exact.
  destruct m as [|[p|p|]|p]; try lia; simpl shr_1; cbn [shr_m shr_r shr_s];
    change (2 ^ 1) with 2.
  - split; [done|]. destruct r, s; simpl; intuition congruence.
  - split; [rewrite Pos2Z.inj_xI; apply Z.div_unique with 1; lia|].
    rewrite Pos2Z.inj_xI.
    replace ((2 * Z.pos p + 1) mod 2) with 1
      by (apply Z.mod_unique with (Z.pos p); lia).
    destruct r, s; simpl; intuition congruence.
  - split; [rewrite Pos2Z.inj_xO; apply Z.div_unique with 0; lia|].
    rewrite Pos2Z.inj_xO.
    replace ((2 * Z.pos p) mod 2) with 0
      by (apply Z.mod_unique with (Z.pos p); lia).
    destruct r, s; simpl; intuition congruence.
  - split; [done|]. change (1 mod 2) with 1.
    destruct r, s; simpl; intuition congruence.
Qed.

Lemma shifted_nonneg k mrs mrs' :
  0 ≤ k → 0 ≤ shr_m mrs → shifted k mrs mrs' → 0 ≤ shr_m mrs'.
Proof.
  intros Hk Hm [-> _]. apply Z.div_pos; [done|]. apply Z.pow_pos_nonneg; lia.
Qed.

Lemma shifted_trans k1 k2 a b c :
  0 ≤ k1 → 0 ≤ k2 → 0 ≤ shr_m a →
  shifted k1 a b → shifted k2 b c → shifted (k1 + k2) a c.
Proof.
  intros Hk1 Hk2 Ha [Hb Hbe] [Hc Hce]. unfold shifted.
  assert (0 < 2 ^ k1) by (apply Z.pow_pos_nonneg; lia).
  assert (0 < 2 ^ k2) by (apply Z.pow_pos_nonneg; lia).
  rewrite Z.pow_add_r by done. split.
  - rewrite Hc, Hb. by rewrite Z.div_div by lia.
  - rewrite Hce, Hbe, Hb.
    assert (shr_m a mod (2 ^ k1 * 2 ^ k2) = 0 ↔
            shr_m a mod 2 ^ k1 = 0 ∧ (shr_m a / 2 ^ k1) mod 2 ^ k2 = 0) as Hmod.
    { rewrite Z.rem_mul_r by lia. 
      pose proof (Z.mod_pos_bound (shr_m a) (2 ^ k1) ltac:(lia)).
      pose proof (Z.mod_pos_bound (shr_m a / 2 ^ k1) (2 ^ k2) ltac:(lia)).
      nia. }
    tauto.
Qed.

Lemma shifted_iter_pos n mrs :
  0 ≤ shr_m mrs → shifted (Z.pos n) mrs (SpecFloat.iter_pos shr_1 n mrs).
Proof.
  revert mrs. induction n as [n IH|n IH|]; intros mrs Hm; simpl.
  - rewrite Pos2Z.inj_xI. replace (2 * Z.pos n + 1) with (1 + (Z.pos n + Z.pos n)) by lia.
    pose proof (shifted_shr_1 mrs Hm) as H1.
    pose proof (shifted_nonneg 1 _ _ ltac:(lia) Hm H1) as Hm1.
    pose proof (IH _ Hm1) as H2.
    pose proof (shifted_nonneg (Z.pos n) _ _ ltac:(lia) Hm1 H2) as Hm2.
    pose proof (IH _ Hm2) as H3.
    apply (shifted_trans 1 (Z.pos n + Z.pos n) mrs (shr_1 mrs)); [lia|lia|done|done|].
    by apply (shifted_trans (Z.pos n) (Z.pos n) _
                (SpecFloat.iter_pos shr_1 n (shr_1 mrs))); [lia|lia|..].
  - rewrite Pos2Z.inj_xO. replace (2 * Z.pos n) with (Z.pos n + Z.pos n) by lia.
    pose proof (IH _ Hm) as H2.
    pose proof (shifted_nonneg (Z.pos n) _ _ ltac:(lia) Hm H2) as Hm2.
    pose proof (IH _ Hm2) as H3.
    by apply (shifted_trans (Z.pos n) (Z.pos n) _ (SpecFloat.iter_pos shr_1 n mrs));
      [lia|lia|..].
  - by apply shifted_shr_1.
Qed.

Lemma shr_record_of_loc_m m l : shr_m (shr_record_of_loc m l) = m.
Proof. by destruct l as [|[]]. Qed.

Lemma shr_record_of_loc_exact m l : shr_exact (shr_record_of_loc m l) ↔ l = loc_Exact.
Proof. unfold shr_exact. destruct l as [|[]]; simpl; intuition congruence. Qed.

Lemma loc_of_shr_record_exact mrs : loc_of_shr_record mrs = loc_Exact ↔ shr_exact mrs.
Proof. unfold shr_exact. destruct mrs as [m [] []]; simpl; intuition congruence. Qed.

Lemma shifted_0 mrs : shifted 0 mrs mrs.
Proof.
  unfold shifted. change (2 ^ 0) with 1. rewrite Z.div_1_r, Z.mod_1_r. tauto.
Qed.

Lemma shr_fexp_spec m e l :
  0 ≤ m →
  ∃ mrs', shr_fexp prec emax m e l = (mrs', Z.max e (fexp64 (Zdigits2 m + e))) ∧
          shifted (Z.max e (fexp64 (Zdigits2 m + e)) - e) (shr_record_of_loc m l) mrs'.
Proof.
  intros Hm. unfold shr_fexp. rewrite fexp64_eq. set (f := fexp64 (Zdigits2 m + e)).
  unfold shr. destruct (f - e) as [|n|n] eqn:Hn.
  - exists (shr_record_of_loc m l). replace (Z.max e f) with e by lia.
    rewrite Z.sub_diag. split; [done|apply shifted_0].
  - exists (SpecFloat.iter_pos shr_1 n (shr_record_of_loc m l)).
    replace (Z.max e f) with (e + Z.pos n) by lia.
    replace (e + Z.pos n - e) with (Z.pos n) by lia.
    split; [done|]. apply shifted_iter_pos. by rewrite shr_record_of_loc_m.
  - exists (shr_record_of_loc m l). replace (Z.max e f) with e by lia.
    rewrite Z.sub_diag. split; [done|apply shifted_0].
Qed.

Lemma round_nearest_even_bounds q l :
  q ≤ round_nearest_even q l ≤ q + 1 ∧ (l = loc_Exact → round_nearest_even q l = q).
Proof.
  destruct l as [|[]]; simpl; try destruct (Z.even q); split; try done; lia.
Qed.

Lemma binary_round_aux_shape s m e l :
  0 ≤ m →
  let e2 := Z.max e (fexp64 (Zdigits2 m + e)) in
  let q := m / 2 ^ (e2 - e) in
  ∃ m2, q ≤ m2 ≤ q + 1 ∧
        (l = loc_Exact → m mod 2 ^ (e2 - e) = 0 → m2 = q) ∧
        m2 ≤ 2 ^ 53 ∧
        binary_round_aux prec emax s m e l = packed s m2 e2.
Proof.
  intros Hm e2 q.
  destruct (shr_fexp_spec m e l Hm) as (mrs' & Hshr & Hq & Hexact). fold e2 in Hshr, Hq, Hexact.
  rewrite shr_record_of_loc_m in Hq. rewrite shr_record_of_loc_m in Hexact.
  fold q in Hq.
  assert (0 ≤ e2 - e) as Hk by lia.
  assert (0 < 2 ^ (e2 - e)) as Hpow by (apply Z.pow_pos_nonneg; lia).
  assert (0 ≤ q) as Hq0 by (by apply Z.div_pos).
  assert (q < 2 ^ 53) as Hq53.
  { destruct (Z.eq_dec m 0) as [->|Hm0]; [unfold q; by rewrite Z.div_0_l by lia|].
    destruct (Z.le_gt_cases (Zdigits2 m) (e2 - e)) as [Hsmall|Hbig].
    - unfold q. rewrite Z.div_small; [done|]. split; [done|].
      pose proof (Zdigits2_bounds m ltac:(lia)).
      assert (2 ^ Zdigits2 m ≤ 2 ^ (e2 - e)); [|lia].
      apply Z.pow_le_mono_r; lia.
    - assert (0 < q) by (apply Z.div_str_pos; split; [lia|];
        pose proof (Zdigits2_bounds m ltac:(lia));
        assert (2 ^ (e2 - e) ≤ 2 ^ (Zdigits2 m - 1)); [apply Z.pow_le_mono_r; lia|lia]).
      pose proof (Zdigits2_div_pow2 m (e2 - e) ltac:(lia) Hk Hbig) as Hd. fold q in Hd.
      pose proof (Zdigits2_bounds q ltac:(lia)) as [_ Hub].
      assert (2 ^ Zdigits2 q ≤ 2 ^ 53); [|lia].
      apply Z.pow_le_mono_r; [lia|]. unfold e2, fexp64 in *. lia. }
  set (m2 := round_nearest_even (shr_m mrs') (loc_of_shr_record mrs')).
  destruct (round_nearest_even_bounds (shr_m mrs') (loc_of_shr_record mrs')) as [Hb He].
  fold m2 in Hb, He. rewrite Hq in Hb, He.
  exists m2. split; [done|]. split.
  { intros -> Hmod. apply He. apply loc_of_shr_record_exact, Hexact.
    split; [by apply shr_record_of_loc_exact|done]. }
  split; [lia|].
  unfold binary_round_aux. rewrite Hshr. fold m2.
  assert (-1074 ≤ e2) as He2 by (unfold e2, fexp64; lia).
  assert (0 ≤ m2) as Hm2 by lia.
  destruct (shr_fexp_spec m2 e2 loc_Exact Hm2) as (mrs'' & Hshr2 & Hq2 & _).
  rewrite shr_record_of_loc_m in Hq2. rewrite Hshr2. unfold packed.
  destruct (Z.eqb_spec m2 0) as [Hz|Hnz].
  - rewrite Hq2, Hz. rewrite Z.div_0_l by (apply Z.pow_nonzero; lia). done.
  - destruct (Z.eqb_spec m2 (2 ^ 53)) as [H53|Hn53].
    + rewrite H53 in *. change (Zdigits2 (2 ^ 53)) with 54 in *.
      replace (Z.max e2 (fexp64 (54 + e2))) with (e2 + 1) in * by (unfold fexp64; lia).
      replace (e2 + 1 - e2) with 1 in Hq2 by lia. rewrite Hq2.
      change (2 ^ 53 / 2 ^ 1) with (Z.pos (Z.to_pos (2 ^ 52))). cbn beta iota.
      change (emax - prec) with 971. done.
    + assert (Zdigits2 m2 ≤ 53) as Hd2 by (apply Zdigits2_lt_pow2; lia).
      replace (Z.max e2 (fexp64 (Zdigits2 m2 + e2))) with e2 in * by (unfold fexp64; lia).
      rewrite Z.sub_diag in Hq2. change (2 ^ 0) with 1 in Hq2. rewrite Z.div_1_r in Hq2.
      rewrite Hq2. destruct m2 as [|p|p]; try lia. simpl Z.to_pos.
      change (emax - prec) with 971. done.
Qed.

(** ** Values in units of [2 ^ -1074] *)

Lemma pow2_pos k : 0 ≤ k → 0 < 2 ^ k.
Proof. intros. apply Z.pow_pos_nonneg; lia. Qed.

Lemma pow2_split a b : 0 ≤ b → b ≤ a → 2 ^ a = 2 ^ (a - b) * 2 ^ b.
Proof. intros. rewrite <- Z.pow_add_r by lia. f_equal. lia. Qed.

Lemma pow2_lt_inv a b : 0 ≤ b → 2 ^ a < 2 ^ b → a < b.
Proof. intros Hb H. apply (Z.pow_lt_mono_r_iff 2); [lia|done|done]. Qed.

Lemma pow2_le a b : 0 ≤ a → a ≤ b → 2 ^ a ≤ 2 ^ b.
Proof. intros. apply Z.pow_le_mono_r; lia. Qed.

Lemma scaled_shift m e e' : -1074 ≤ e' → e' ≤ e → scaled m e = scaled (m * 2 ^ (e - e')) e'.
Proof.
  intros. unfold scaled. rewrite (pow2_split (e + 1074) (e' + 1074)) by lia.
  replace (e + 1074 - (e' + 1074)) with (e - e') by lia. lia.
Qed.

Lemma level_le m1 e1 m2 e2 :
  0 < m1 → 0 < m2 → -1074 ≤ e1 → -1074 ≤ e2 →
  scaled m1 e1 ≤ scaled m2 e2 → Zdigits2 m1 + e1 ≤ Zdigits2 m2 + e2.
Proof.
  intros Hm1 Hm2 He1 He2 Hle. unfold scaled in Hle.
  pose proof (Zdigits2_bounds m1 Hm1) as [Hl1 _].
  pose proof (Zdigits2_bounds m2 Hm2) as [_ Hu2].
  pose proof (Zdigits2_pos m1 Hm1). pose proof (Zdigits2_pos m2 Hm2).
  pose proof (pow2_pos (e1 + 1074) ltac:(lia)).
  pose proof (pow2_pos (e2 + 1074) ltac:(lia)).
  assert (2 ^ (Zdigits2 m1 - 1 + (e1 + 1074)) < 2 ^ (Zdigits2 m2 + (e2 + 1074))) as Hlt.
  { rewrite (Z.pow_add_r 2 (Zdigits2 m1 - 1)), (Z.pow_add_r 2 (Zdigits2 m2)) by lia.
    apply Z.le_lt_trans with (m1 * 2 ^ (e1 + 1074)).
    - apply Z.mul_le_mono_nonneg_r; lia.
    - apply Z.le_lt_trans with (m2 * 2 ^ (e2 + 1074)); [done|].
      apply Z.mul_lt_mono_pos_r; lia. }
  apply pow2_lt_inv in Hlt; lia.
Qed.

Lemma valid_finite s m e :
  valid_binary (S754_finite s m e) = true → canon (Z.pos m) e ∧ e ≤ 971.
Proof.
  unfold valid_binary, SpecFloat.valid_binary, bounded, canonical_mantissa.
  rewrite fexp64_eq. intros [H1 H2]%andb_true_iff.
  apply Z.eqb_eq in H1. apply Z.leb_le in H2. split; [done|].
  by change (emax - prec) with 971 in H2.
Qed.

Lemma canon_bounds m e : 0 < m → canon m e → -1074 ≤ e ∧ m < 2 ^ 53.
Proof.
  unfold canon, fexp64. intros Hm Hc. split; [lia|].
  pose proof (Zdigits2_bounds m Hm) as [_ Hu].
  assert (2 ^ Zdigits2 m ≤ 2 ^ 53); [apply pow2_le; [|lia]|lia].
  pose proof (Zdigits2_pos m Hm). lia.
Qed.

Lemma binary_round_aux_scaled s m e l :
  0 ≤ m → -1074 ≤ e →
  let e2 := Z.max e (fexp64 (Zdigits2 m + e)) in
  let V := scaled m e in
  let W := 2 ^ (e2 + 1074) in
  ∃ m2, V / W ≤ m2 ≤ V / W + 1 ∧
        (l = loc_Exact → V mod W = 0 → m2 = V / W) ∧
        m2 ≤ 2 ^ 53 ∧
        binary_round_aux prec emax s m e l = packed s m2 e2.
Proof.
  intros Hm He e2 V W.
  destruct (binary_round_aux_shape s m e l Hm) as (m2 & Hb & Hex & H53 & Heq).
  fold e2 in Hb, Hex, Heq.
  assert (W = 2 ^ (e2 - e) * 2 ^ (e + 1074)) as HW.
  { unfold W. rewrite (pow2_split (e2 + 1074) (e + 1074)) by lia.
    do 2 f_equal. lia. }
  pose proof (pow2_pos (e + 1074) ltac:(lia)).
  pose proof (pow2_pos (e2 - e) ltac:(lia)).
  assert (V / W = m / 2 ^ (e2 - e)) as HQ.
  { rewrite HW. unfold V, scaled. apply Z.div_mul_cancel_r; lia. }
  assert (V mod W = (m mod 2 ^ (e2 - e)) * 2 ^ (e + 1074)) as HR.
  { rewrite HW. unfold V, scaled. apply Z.mul_mod_distr_r; lia. }
  exists m2. rewrite HQ. split; [done|]. split; [|done].
  intros Hl Hmod. apply Hex; [done|]. rewrite HR in Hmod. nia.
Qed.

Lemma iter_xO_pow2 mx d : Z.pos (Pos.iter xO mx d) = Z.pos mx * 2 ^ Z.pos d.
Proof.
  induction d as [|d IH] using Pos.peano_ind.
  - simpl. lia.
  - rewrite Pos.iter_succ, Pos2Z.inj_succ, Z.pow_succ_r by lia.
    rewrite Pos2Z.inj_xO, IH. lia.
Qed.

Lemma shl_align_spec mx ex ex' :
  (shl_align mx ex ex').2 = Z.min ex ex' ∧
  Z.pos (shl_align mx ex ex').1 = Z.pos mx * 2 ^ (ex - Z.min ex ex').
Proof.
  unfold shl_align. destruct (ex' - ex) as [|d|d] eqn:Hd; cbn [fst snd].
  - replace (Z.min ex ex') with ex by lia. rewrite Z.sub_diag. split; [done|]. simpl. lia.
  - replace (Z.min ex ex') with ex by lia. rewrite Z.sub_diag. split; [done|]. simpl. lia.
  - replace (Z.min ex ex') with ex' by lia. split; [done|].
    replace (ex - ex') with (Z.pos d) by lia.
    apply iter_xO_pow2.
Qed.

Lemma binary_round_scaled s m e :
  -1074 ≤ e →
  let e2 := fexp64 (Zdigits2 (Z.pos m) + e) in
  let V := scaled (Z.pos m) e in
  let W := 2 ^ (e2 + 1074) in
  ∃ m2, V / W ≤ m2 ≤ V / W + 1 ∧ (V mod W = 0 → m2 = V / W) ∧ m2 ≤ 2 ^ 53 ∧
        binary_round prec emax s m e = packed s m2 e2.
Proof.
  intros He e2 V W. unfold binary_round. rewrite fexp64_eq.
  change (Z.pos (digits2_pos m)) with (Zdigits2 (Z.pos m)). fold e2.
  destruct (shl_align_spec m e e2) as [He' Hm'].
  destruct (shl_align m e e2) as [m' e'] eqn:Hal. cbn [fst snd] in He', Hm'.
  assert (-1074 ≤ e2) as He2 by (unfold e2, fexp64; lia).
  assert (Zdigits2 (Z.pos m') + e' = Zdigits2 (Z.pos m) + e) as Hlev.
  { rewrite Hm', Zdigits2_mul_pow2 by lia. lia. }
  destruct (binary_round_aux_scaled s (Z.pos m') e' loc_Exact ltac:(lia) ltac:(lia))
    as (m2 & Hb & Hex & H53 & Heq).
  rewrite Hlev in Hb, Hex, Heq. fold e2 in Hb, Hex, Heq.
  replace (Z.max e' e2) with e2 in Hb, Hex, Heq by lia.
  assert (scaled (Z.pos m') e' = V) as HV.
  { unfold V. rewrite (scaled_shift (Z.pos m) e e') by lia. by rewrite Hm', He'. }
  rewrite HV in Hb, Hex. fold W in Hb, Hex.
  exists m2. split; [done|]. split; [by apply Hex|]. done.
Qed.

(** ** Rounding is monotone *)

(** Rounding never goes below a representable number that the exact value
    reaches. *)
Lemma round_lower m e ma ea :
  0 < m → -1074 ≤ e → 0 < ma → canon ma ea →
  scaled ma ea ≤ scaled m e →
  let W := 2 ^ (fexp64 (Zdigits2 m + e) + 1074) in
  scaled ma ea ≤ scaled m e / W * W.
Proof.
  intros Hm He Hma Hca Hle W.
  destruct (canon_bounds ma ea Hma Hca) as [Hea _].
  pose proof (level_le ma ea m e Hma Hm Hea He Hle) as Hlev.
  set (L := Zdigits2 m + e) in *. set (e2 := fexp64 L) in *.
  assert (-1074 ≤ e2) as He2 by (unfold e2, fexp64; lia).
  assert (0 < W) as HW by (apply pow2_pos; lia).
  pose proof (Zdigits2_pos m Hm) as Hdm.
  destruct (Z.eq_dec (Zdigits2 ma + ea) L) as [Heq|Hne].
  - assert (ea = e2) as -> by (unfold e2; rewrite <- Heq; by rewrite Hca).
    assert (scaled ma e2 = ma * W) as HA by reflexivity.
    assert (ma ≤ scaled m e / W) as Hq.
    { apply Z.div_le_lower_bound; [done|]. lia. }
    rewrite HA. nia.
  - assert (scaled ma ea < 2 ^ (L - 1 + 1074)) as Hlt.
    { pose proof (Zdigits2_bounds ma Hma) as [_ Hu].
      pose proof (Zdigits2_pos ma Hma).
      pose proof (pow2_pos (ea + 1074) ltac:(lia)).
      apply Z.lt_le_trans with (2 ^ (Zdigits2 ma + (ea + 1074))).
      - rewrite Z.pow_add_r by lia. unfold scaled. apply Z.mul_lt_mono_pos_r; lia.
      - apply pow2_le; lia. }
    assert (2 ^ (L - 1 + 1074) ≤ scaled m e) as Hge.
    { pose proof (Zdigits2_bounds m Hm) as [Hl _].
      pose proof (pow2_pos (e + 1074) ltac:(lia)).
      replace (L - 1 + 1074) with (Zdigits2 m - 1 + (e + 1074)) by (unfold L; lia).
      rewrite Z.pow_add_r by lia. unfold scaled. apply Z.mul_le_mono_nonneg_r; lia. }
    assert (e2 + 1074 ≤ L - 1 + 1074) as Hk by (unfold e2, fexp64, L; lia).
    assert (2 ^ (L - 1 + 1074) = 2 ^ (L - 1 + 1074 - (e2 + 1074)) * W) as Hsplit.
    { unfold W. apply pow2_split; lia. }
    assert (2 ^ (L - 1 + 1074 - (e2 + 1074)) ≤ scaled m e / W) as Hq.
    { apply Z.div_le_lower_bound; [done|]. lia. }
    nia.
Qed.

(** Rounding never goes above a representable number that bounds the exact
    value, and does not overflow under it. *)
Lemma round_upper m e ma ea m2 (exact : Prop) :
  0 ≤ m → -1074 ≤ e → e ≤ ea → 0 < ma → canon ma ea →
  let e2 := Z.max e (fexp64 (Zdigits2 m + e)) in
  let V := scaled m e in
  let W := 2 ^ (e2 + 1074) in
  V ≤ scaled ma ea →
  (exact ∨ V < scaled ma ea) →
  V / W ≤ m2 ≤ V / W + 1 →
  (exact → V mod W = 0 → m2 = V / W) →
  m2 * W ≤ scaled ma ea ∧ e2 ≤ ea ∧ (m2 = 2 ^ 53 → e2 < ea).
Proof.
  intros Hm He Hea Hma Hca e2 V W Hle Hstrict Hb Hex.
  destruct (canon_bounds ma ea Hma Hca) as [Hea' Hma53].
  assert (e2 ≤ ea) as He2.
  { destruct (Z.eq_dec m 0) as [->|Hm0].
    - unfold e2, fexp64. simpl. lia.
    - pose proof (level_le m e ma ea ltac:(lia) Hma He Hea' Hle) as Hlev.
      unfold canon in Hca. unfold e2, fexp64 in *. lia. }
  assert (-1074 ≤ e2) as He2' by (unfold e2; lia).
  assert (0 < W) as HW by (apply pow2_pos; lia).
  assert (scaled ma ea = ma * 2 ^ (ea - e2) * W) as HA.
  { unfold scaled, W. rewrite (pow2_split (ea + 1074) (e2 + 1074)) by lia.
    replace (ea + 1074 - (e2 + 1074)) with (ea - e2) by lia. lia. }
  set (A' := ma * 2 ^ (ea - e2)) in *.
  pose proof (Z.div_mod V W ltac:(lia)) as Hdm.
  pose proof (Z.mod_pos_bound V W HW) as Hrem.
  assert (m2 ≤ A') as Hm2.
  { destruct (Z.eq_dec (V mod W) 0) as [Hz|Hnz].
    - destruct Hstrict as [Hexact|Hlt].
      + rewrite (Hex Hexact Hz). apply Z.div_le_upper_bound; [done|]. lia.
      + assert (V / W < A'); [|lia]. apply Z.div_lt_upper_bound; [done|]. lia.
    - assert (V / W < A'); [|lia].
      assert (V / W * W < A' * W) by lia. nia. }
  split; [rewrite HA; nia|]. split; [done|].
  intros ->.
  destruct (Z.eq_dec ea e2) as [Heq|]; [|lia].
  exfalso. unfold A' in Hm2. rewrite Heq, Z.sub_diag in Hm2.
  change (2 ^ 0) with 1 in Hm2. lia.
Qed.

Lemma packed_cases s m2 e2 :
  0 ≤ m2 → -1074 ≤ e2 →
  (m2 = 0 ∧ packed s m2 e2 = S754_zero s) ∨
  (0 < m2 ∧ packed s m2 e2 = S754_infinity s) ∨
  (0 < m2 ∧ ∃ m3 e3, packed s m2 e2 = S754_finite s m3 e3 ∧
                     scaled (Z.pos m3) e3 = m2 * 2 ^ (e2 + 1074)).
Proof.
  intros Hm He. unfold packed.
  destruct (Z.eqb_spec m2 0) as [->|Hnz]; [by left|]. right.
  destruct (Z.eqb_spec m2 (2 ^ 53)) as [->|Hn53].
  - destruct (e2 + 1 <=? 971); [right|left; split; [done|done]].
    split; [done|]. eexists _, _. split; [done|]. unfold scaled.
    replace (e2 + 1 + 1074) with (1 + (e2 + 1074)) by lia.
    rewrite Z.pow_add_r by lia. change (Z.pos (Z.to_pos (2 ^ 52))) with (2 ^ 52).
    change (2 ^ 53) with (2 ^ 52 * 2 ^ 1). lia.
  - destruct (e2 <=? 971); [right|left; split; [lia|done]].
    split; [lia|]. eexists _, _. split; [done|]. unfold scaled.
    rewrite Z2Pos.id by lia. done.
Qed.

Lemma packed_not_inf s m2 e2 :
  (m2 = 2 ^ 53 → e2 + 1 ≤ 971) → e2 ≤ 971 → packed s m2 e2 ≠ S754_infinity s.
Proof.
  intros H53 He. unfold packed.
  destruct (Z.eqb_spec m2 0); [done|].
  destruct (Z.eqb_spec m2 (2 ^ 53)) as [E|].
  - destruct (Z.leb_spec (e2 + 1) 971); [done|]. specialize (H53 E). lia.
  - destruct (Z.leb_spec e2 971); [done|lia].
Qed.

Lemma binary_round_lower m e ma ea :
  -1074 ≤ e → canon (Z.pos ma) ea →
  scaled (Z.pos ma) ea ≤ scaled (Z.pos m) e →
  lower (scaled (Z.pos ma) ea) (binary_round prec emax false m e).
Proof.
  intros He Hca Hle.
  destruct (binary_round_scaled false m e He) as (m2 & Hb & _ & H53 & ->).
  pose proof (round_lower (Z.pos m) e (Z.pos ma) ea ltac:(lia) He ltac:(lia) Hca Hle) as Hlow.
  cbv zeta in Hlow.
  set (e2 := fexp64 (Zdigits2 (Z.pos m) + e)) in *.
  set (W := 2 ^ (e2 + 1074)) in *.
  assert (-1074 ≤ e2) as He2 by (unfold e2, fexp64; lia).
  assert (0 < W) as HW by (apply pow2_pos; lia).
  assert (0 < scaled (Z.pos ma) ea) as Hpos.
  { destruct (canon_bounds (Z.pos ma) ea ltac:(lia) Hca) as [Hea _].
    unfold scaled. pose proof (pow2_pos (ea + 1074) ltac:(lia)). lia. }
  assert (scaled (Z.pos ma) ea ≤ m2 * W) as Hm2 by nia.
  destruct (packed_cases false m2 e2 ltac:(nia) He2) as [[-> _]|[[_ ->]|[_ (m3 & e3 & -> & Hv)]]].
  - lia.
  - by left.
  - right. split; [done|]. simpl. fold W in Hv. lia.
Qed.

Lemma binary_round_upper s m e ma ea :
  -1074 ≤ e → canon (Z.pos ma) ea → ea ≤ 971 →
  scaled (Z.pos m) e ≤ scaled (Z.pos ma) ea →
  ∃ r, binary_round prec emax s m e = r ∧ SFfinite r ∧
       (r = S754_zero s ∨ ∃ m3 e3, r = S754_finite s m3 e3 ∧
                                   scaled (Z.pos m3) e3 ≤ scaled (Z.pos ma) ea).
Proof.
  intros He Hca Hea Hle.
  unfold binary_round. rewrite fexp64_eq.
  change (Z.pos (digits2_pos m)) with (Zdigits2 (Z.pos m)).
  set (e0 := fexp64 (Zdigits2 (Z.pos m) + e)).
  destruct (shl_align_spec m e e0) as [He' Hm'].
  destruct (shl_align m e e0) as [m' e'] eqn:Hal. cbn [fst snd] in He', Hm'.
  assert (-1074 ≤ e0) as He0 by (unfold e0, fexp64; lia).
  assert (Zdigits2 (Z.pos m') + e' = Zdigits2 (Z.pos m) + e) as Hlev.
  { rewrite Hm', Zdigits2_mul_pow2 by lia. lia. }
  assert (scaled (Z.pos m') e' = scaled (Z.pos m) e) as HV.
  { rewrite (scaled_shift (Z.pos m) e e') by lia. by rewrite Hm', He'. }
  destruct (canon_bounds (Z.pos ma) ea ltac:(lia) Hca) as [Hea' _].
  assert (e' ≤ ea) as He'a.
  { pose proof (level_le (Z.pos m) e (Z.pos ma) ea ltac:(lia) ltac:(lia) He Hea' Hle).
    unfold canon in Hca. rewrite <- Hca. unfold e0, fexp64 in *. lia. }
  destruct (binary_round_aux_scaled s (Z.pos m') e' loc_Exact ltac:(lia) ltac:(lia))
    as (m2 & Hb & Hex & H53 & ->).
  rewrite HV in Hb, Hex.
  destruct (round_upper (Z.pos m') e' (Z.pos ma) ea m2 True ltac:(lia) ltac:(lia) He'a
              ltac:(lia) Hca) as (Hm2 & He2 & He253).
  { by rewrite HV. } { by left. } { by rewrite HV. } { rewrite HV. auto. }
  set (e2 := Z.max e' (fexp64 (Zdigits2 (Z.pos m') + e'))) in *.
  assert (-1074 ≤ e2) as He2' by (unfold e2; lia).
  assert (0 ≤ m2) as Hm2pos.
  { assert (0 ≤ scaled (Z.pos m) e / 2 ^ (e2 + 1074)); [|lia].
    apply Z.div_pos; [|apply pow2_pos; lia].
    unfold scaled. pose proof (pow2_pos (e + 1074) ltac:(lia)). lia. }
  eexists. split; [done|].
  destruct (packed_cases s m2 e2 Hm2pos He2') as [[_ ->]|[[_ Hinf]|[_ (m3 & e3 & -> & Hv)]]].
  - split; [done|by left].
  - exfalso. revert Hinf. apply packed_not_inf; lia.
  - split; [done|]. right. eexists _, _. split; [done|]. lia.
Qed.

(** ** Negation, sums and differences *)

Lemma scaled_pos m e : 0 < m → -1074 ≤ e → 0 < scaled m e.
Proof. intros. unfold scaled. pose proof (pow2_pos (e + 1074) ltac:(lia)). nia. Qed.

Lemma valid_finite_pos s m e :
  valid_binary (S754_finite s m e) = true → -1074 ≤ e ∧ 0 < scaled (Z.pos m) e.
Proof.
  intros [Hc _]%valid_finite. destruct (canon_bounds (Z.pos m) e ltac:(lia) Hc) as [He _].
  split; [done|]. by apply scaled_pos.
Qed.

Lemma binary_round_opp s m e :
  binary_round prec emax (negb s) m e = SFopp (binary_round prec emax s m e).
Proof.
  unfold binary_round. destruct (shl_align _ _ _) as [mz ez].
  unfold binary_round_aux. destruct (shr_fexp _ _ _ _ _) as [mrs' e'].
  destruct (shr_fexp _ _ _ _ _) as [mrs'' e'']. destruct (shr_m mrs''); try done.
  by destruct (_ <=? _).
Qed.

Lemma SFopp_involutive x : SFopp (SFopp x) = x.
Proof. destruct x as [[]|[]| |[] m e]; done. Qed.

Lemma binary_normalize_opp M e sz :
  binary_normalize prec emax (- M) e (negb sz) = SFopp (binary_normalize prec emax M e sz).
Proof.
  destruct M as [|m|m]; cbn [Z.opp binary_normalize SFopp]; [done| |].
  - exact (binary_round_opp false m e).
  - change true with (negb false). rewrite binary_round_opp, SFopp_involutive. done.
Qed.

Lemma Zval_opp x : Zval (SFopp x) = - Zval x.
Proof. destruct x as [| | |[] m e]; simpl; lia. Qed.

Lemma SFfinite_opp x : SFfinite (SFopp x) ↔ SFfinite x.
Proof. by destruct x. Qed.

Lemma valid_opp x : valid_binary (SFopp x) = valid_binary x.
Proof. by destruct x. Qed.

Lemma upper_opp A x : upper A x ↔ lower (- A) (SFopp x).
Proof.
  unfold upper, lower. rewrite Zval_opp, SFfinite_opp. split.
  - intros [->|[Hf Hle]]; [by left|right; split; [done|lia]].
  - intros [Hinf|[Hf Hle]]; [left|right; split; [done|lia]].
    rewrite <- (SFopp_involutive x), Hinf. done.
Qed.

Lemma binary_round_nonneg m e A :
  -1074 ≤ e → A ≤ 0 → lower A (binary_round prec emax false m e).
Proof.
  intros He HA.
  destruct (binary_round_scaled false m e He) as (m2 & Hb & _ & H53 & ->).
  set (e2 := fexp64 (Zdigits2 (Z.pos m) + e)) in *.
  assert (-1074 ≤ e2) as He2 by (unfold e2, fexp64; lia).
  assert (0 ≤ m2) as Hm2.
  { assert (0 ≤ scaled (Z.pos m) e / 2 ^ (e2 + 1074)); [|lia].
    apply Z.div_pos; [|apply pow2_pos; lia].
    pose proof (scaled_pos (Z.pos m) e ltac:(lia) He). lia. }
  destruct (packed_cases false m2 e2 Hm2 He2) as [[_ ->]|[[_ ->]|[Hpos (m3 & e3 & -> & Hv)]]].
  - right. split; [done|]. simpl. lia.
  - by left.
  - right. split; [done|]. simpl. pose proof (pow2_pos (e2 + 1074) ltac:(lia)). nia.
Qed.

(** [binary_normalize] rounds monotonically around every representable
    number. *)
Lemma binary_normalize_lower M e sz a :
  -1074 ≤ e → valid_binary a = true → SFfinite a →
  Zval a ≤ scaled M e →
  lower (Zval a) (binary_normalize prec emax M e sz).
Proof.
  intros He Hva Hfa Hle. destruct M as [|m|m]; simpl.
  - right. split; [done|]. unfold scaled in Hle. simpl in *. lia.
  - destruct a as [sa|sa| |[] ma ea]; try done.
    + by apply binary_round_nonneg.
    + apply binary_round_nonneg; [done|]. simpl.
      destruct (valid_finite_pos _ _ _ Hva). lia.
    + apply valid_finite in Hva as [Hc _]. by apply binary_round_lower.
  - assert (scaled (Z.neg m) e = - scaled (Z.pos m) e) as HM by (unfold scaled; lia).
    pose proof (scaled_pos (Z.pos m) e ltac:(lia) He) as Hpos.
    destruct a as [sa|sa| |[] ma ea]; try done; simpl in Hle; try lia.
    + apply valid_finite in Hva as [Hc Hea].
      destruct (binary_round_upper true m e ma ea He Hc Hea ltac:(lia))
        as (r & -> & Hfr & [->|(m3 & e3 & -> & Hv)]).
      * right. split; [done|]. simpl. pose proof (scaled_pos (Z.pos ma) ea). 
        destruct (canon_bounds (Z.pos ma) ea ltac:(lia) Hc). lia.
      * right. split; [done|]. simpl. lia.
    + destruct (valid_finite_pos _ _ _ Hva). lia.
Qed.

Lemma binary_normalize_upper M e sz a :
  -1074 ≤ e → valid_binary a = true → SFfinite a →
  scaled M e ≤ Zval a →
  upper (Zval a) (binary_normalize prec emax M e sz).
Proof.
  intros He Hva Hfa Hle. apply upper_opp.
  rewrite <- Zval_opp. rewrite <- (negb_involutive sz) at 1.
  rewrite <- binary_normalize_opp.
  apply binary_normalize_lower; [done|by rewrite valid_opp|by apply SFfinite_opp|].
  rewrite Zval_opp. unfold scaled in *. lia.
Qed.

(** The exact sum and difference of two finite floats, as [SFadd] and
    [SFsub] hand them to [binary_normalize]. *)
Lemma aligned_val s m e e' :
  -1074 ≤ e' → e' ≤ e →
  scaled (cond_Zopp s (Z.pos (shl_align m e e').1)) e' = cond_Zopp s (scaled (Z.pos m) e).
Proof.
  intros He' Hle. destruct (shl_align_spec m e e') as [_ ->].
  replace (Z.min e e') with e' by lia.
  rewrite (scaled_shift (Z.pos m) e e') by lia. unfold scaled. destruct s; simpl; lia.
Qed.

Lemma scaled_add m1 m2 e : scaled (m1 + m2) e = scaled m1 e + scaled m2 e.
Proof. unfold scaled. lia. Qed.

Lemma scaled_sub m1 m2 e : scaled (m1 - m2) e = scaled m1 e - scaled m2 e.
Proof. unfold scaled. lia. Qed.

Section AddSub.
Context (x y a : spec_float).
Hypothesis (Hvx : valid_binary x = true) (Hvy : valid_binary y = true)
  (Hva : valid_binary a = true).
Hypothesis (Hfx : SFfinite x) (Hfy : SFfinite y) (Hfa : SFfinite a).

Lemma SFadd_lower : Zval a ≤ Zval x + Zval y → lower (Zval a) (SFadd prec emax x y).
Proof using All.
  intros Hle. destruct x as [sx|sx| |sx mx ex], y as [sy|sy| |sy my ey]; try done.
  - right. simpl in Hle. by destruct sx, sy.
  - right. split; [done|]. simpl in *. lia.
  - right. split; [done|]. simpl in *. lia.
  - unfold SFadd. destruct (valid_finite_pos _ _ _ Hvx), (valid_finite_pos _ _ _ Hvy).
    apply binary_normalize_lower; [lia|done|done|].
    rewrite scaled_add, !aligned_val by lia. done.
Qed.

Lemma SFadd_upper : Zval x + Zval y ≤ Zval a → upper (Zval a) (SFadd prec emax x y).
Proof using All.
  intros Hle. destruct x as [sx|sx| |sx mx ex], y as [sy|sy| |sy my ey]; try done.
  - right. simpl in Hle. by destruct sx, sy.
  - right. split; [done|]. simpl in *. lia.
  - right. split; [done|]. simpl in *. lia.
  - unfold SFadd. destruct (valid_finite_pos _ _ _ Hvx), (valid_finite_pos _ _ _ Hvy).
    apply binary_normalize_upper; [lia|done|done|].
    rewrite scaled_add, !aligned_val by lia. done.
Qed.

Lemma SFsub_lower : Zval a ≤ Zval x - Zval y → lower (Zval a) (SFsub prec emax x y).
Proof using All.
  intros Hle. destruct x as [sx|sx| |sx mx ex], y as [sy|sy| |sy my ey]; try done.
  - right. simpl in Hle. by destruct sx, sy.
  - right. split; [done|]. simpl in *. destruct sy; simpl in *; lia.
  - right. split; [done|]. simpl in *. lia.
  - unfold SFsub. destruct (valid_finite_pos _ _ _ Hvx), (valid_finite_pos _ _ _ Hvy).
    apply binary_normalize_lower; [lia|done|done|].
    rewrite scaled_sub, !aligned_val by lia. done.
Qed.

Lemma SFsub_upper : Zval x - Zval y ≤ Zval a → upper (Zval a) (SFsub prec emax x y).
Proof using All.
  intros Hle. destruct x as [sx|sx| |sx mx ex], y as [sy|sy| |sy my ey]; try done.
  - right. simpl in Hle. by destruct sx, sy.
  - right. split; [done|]. simpl in *. destruct sy; simpl in *; lia.
  - right. split; [done|]. simpl in *. lia.
  - unfold SFsub. destruct (valid_finite_pos _ _ _ Hvx), (valid_finite_pos _ _ _ Hvy).
    apply binary_normalize_upper; [lia|done|done|].
    rewrite scaled_sub, !aligned_val by lia. done.
Qed.

End AddSub.

(** ** Products and quotients *)

Lemma nonneg_lower x : valid_binary x = true → lower 0 x → nonneg x.
Proof.
  intros Hv [->|[Hf Hle]]; [done|]. destruct x as [| | |[] m e]; try done.
  destruct (valid_finite_pos _ _ _ Hv). cbn [Zval cond_Zopp] in Hle. lia.
Qed.



Lemma Zval_one : Zval one64 = 2 ^ 1074.
Proof. reflexivity. Qed.

Lemma new_location_exact d r : new_location d r = loc_Exact ↔ r = 0.
Proof.
  unfold new_location, new_location_even, new_location_odd.
  destruct (Z.even d); destruct (Z.eqb_spec r 0); split; try done.
  all: by destruct (_ ?= _).
Qed.

(** [1 / y] for [y] at least one is between zero and one. *)
Lemma SFdiv_one_upper my ey :
  valid_binary (S754_finite false my ey) = true →
  2 ^ 1074 ≤ scaled (Z.pos my) ey →
  let q := SFdiv prec emax one64 (S754_finite false my ey) in
  SFfinite q ∧ 0 ≤ Zval q ≤ 2 ^ 1074.
Proof.
  intros Hv Hge. apply valid_finite in Hv as [Hc Hey].
  destruct (canon_bounds (Z.pos my) ey ltac:(lia) Hc) as [Hey' _].
  unfold one64, SFdiv, SFdiv_core_binary. rewrite fexp64_eq.
  change (Zdigits2 (Z.pos 4503599627370496)) with 53.
  set (d2 := Zdigits2 (Z.pos my)).
  assert (1 ≤ d2 + ey) as Hlev.
  { pose proof (level_le (2 ^ 52) (-52) (Z.pos my) ey ltac:(lia) ltac:(lia) ltac:(lia) Hey') as H.
    change (Zdigits2 (2 ^ 52)) with 53 in H. unfold d2. 
    assert (scaled (2 ^ 52) (-52) = 2 ^ 1074) as Hone by reflexivity. lia. }
  set (e' := Z.min (fexp64 (53 + -52 - (d2 + ey))) (-52 - ey)).
  assert (-1074 ≤ e' ∧ e' ≤ -53) as [He'1 He'2] by (unfold e', fexp64; lia).
  set (s := -52 - ey - e').
  assert (0 ≤ s) as Hs by (unfold s, e'; lia).
  set (m' := match s with Z.pos _ => Z.shiftl (Z.pos 4503599627370496) s
                        | 0 => Z.pos 4503599627370496 | Z.neg _ => 0 end).
  assert (m' = 2 ^ (52 + s)) as Hm'.
  { unfold m'. destruct s as [|p|p] eqn:Es; [done| |lia].
    rewrite Z.shiftl_mul_pow2 by lia. rewrite Z.pow_add_r by lia. done. }
  pose proof (Z.div_eucl_eq m' (Z.pos my) ltac:(lia)) as Hdiv.
  pose proof (Z.mod_pos_bound m' (Z.pos my) ltac:(lia)) as Hrem.
  unfold Z.modulo in Hrem.
  destruct (Z.div_eucl m' (Z.pos my)) as [q r] eqn:Hqr. cbn [snd] in Hrem.
  assert (0 < m') as Hm'pos by (rewrite Hm'; apply pow2_pos; lia).
  assert (0 ≤ q) as Hq by nia.
  set (T := 2 ^ 1074) in *.
  assert (0 < T) as HT by (apply pow2_pos; lia).
  set (P := 2 ^ (e' + 1074)).
  assert (0 < P) as HP by (apply pow2_pos; lia).
  set (Y := 2 ^ (ey + 1074)).
  assert (0 < Y) as HY by (apply pow2_pos; lia).
  assert (m' * P * Y = T * T) as Hprod.
  { rewrite Hm'. unfold P, Y, T. rewrite <- !Z.pow_add_r by lia. f_equal. unfold s. lia. }
  assert (scaled q e' ≤ T ∧ (r ≠ 0 → scaled q e' < T)) as [HV HVs].
  { unfold scaled in *. fold P. fold Y in Hge.
    assert (q * Z.pos my * (P * Y) ≤ T * T) as H1 by nia.
    assert (q * P * T ≤ q * P * (Z.pos my * Y)) as H2 by nia.
    split; [nia|]. intros Hr.
    assert (q * Z.pos my * (P * Y) < T * T) as H3 by nia.
    nia. }
  assert (scaled (Z.pos 4503599627370496) (-52) = T) as HA by reflexivity.
  cbv beta iota zeta. cbn [xorb].
  destruct (binary_round_aux_scaled false q e' (new_location (Z.pos my) r) Hq He'1)
    as (m2 & Hb & Hex & H53 & ->).
  destruct (round_upper q e' (Z.pos 4503599627370496) (-52) m2 (r = 0)
              Hq He'1 ltac:(lia) ltac:(lia) ltac:(reflexivity))
    as (Hm2 & He2 & He253).
  { by rewrite HA. }
  { rewrite HA. destruct (Z.eq_dec r 0); [by left|right; auto]. }
  { done. }
  { intros Hr. apply Hex. by apply new_location_exact. }
  set (e2 := Z.max e' (fexp64 (Zdigits2 q + e'))) in *.
  assert (-1074 ≤ e2) as He2' by (unfold e2; lia).
  assert (0 ≤ m2) as Hm2pos.
  { assert (0 ≤ scaled q e' / 2 ^ (e2 + 1074)); [|lia].
    apply Z.div_pos; [|apply pow2_pos; lia]. unfold scaled. fold P. nia. }
  rewrite HA in Hm2.
  destruct (packed_cases false m2 e2 Hm2pos He2') as [[_ ->]|[[_ Hinf]|[_ (m3 & e3 & -> & Hv)]]].
  - split; [done|]. simpl. lia.
  - exfalso. revert Hinf. apply packed_not_inf; lia.
  - split; [done|]. simpl. rewrite Hv.
    pose proof (pow2_pos (e2 + 1074) ltac:(lia)). nia.
Qed.

(** ** [round] on the scaled value *)

Lemma div_half_even_scale n d c :
  0 < d → 0 < c → PyNum.div_half_even (n * c) (d * c) = PyNum.div_half_even n d.
Proof.
  intros Hd Hc. unfold PyNum.div_half_even.
  rewrite Z.div_mul_cancel_r, Z.mul_mod_distr_r by lia.
  pose proof (Z.mod_pos_bound n d Hd).
  cbv zeta.
  destruct (Z.ltb_spec (2 * (n mod d)) d), (Z.ltb_spec (2 * (n mod d * c)) (d * c));
    [done|nia|nia|].
  destruct (Z.ltb_spec d (2 * (n mod d))), (Z.ltb_spec (d * c) (2 * (n mod d * c)));
    [done|nia|nia|done].
Qed.

Lemma div_half_even_exact k d : 0 < d → PyNum.div_half_even (k * d) d = k.
Proof.
  intros Hd. unfold PyNum.div_half_even.
  rewrite Z.div_mul, Z.mod_mul by lia. cbv zeta. rewrite Z.mul_0_r.
  destruct (Z.ltb_spec 0 d); [done|lia].
Qed.

Lemma div_half_even_mono n1 n2 d :
  0 < d → n1 ≤ n2 → PyNum.div_half_even n1 d ≤ PyNum.div_half_even n2 d.
Proof.
  intros Hd Hle. unfold PyNum.div_half_even.
  pose proof (Z.div_le_mono n1 n2 d Hd Hle) as Hq.
  pose proof (Z.div_mod n1 d ltac:(lia)). pose proof (Z.div_mod n2 d ltac:(lia)).
  pose proof (Z.mod_pos_bound n1 d Hd). pose proof (Z.mod_pos_bound n2 d Hd).
  destruct (Z.eq_dec (n1 / d) (n2 / d)) as [Heq|Hne].
  - rewrite Heq in *.
    destruct (Z.ltb_spec (2 * (n1 mod d)) d), (Z.ltb_spec (2 * (n2 mod d)) d); try lia.
    + destruct (Z.ltb_spec d (2 * (n2 mod d))); [lia|]. destruct (Z.even _); lia.
    + destruct (Z.ltb_spec d (2 * (n1 mod d))), (Z.ltb_spec d (2 * (n2 mod d))); try lia.
      destruct (Z.even _); lia.
  - assert (n1 / d + 1 ≤ n2 / d) by lia.
    assert (PyNum.div_half_even n1 d ≤ n1 / d + 1 ∧ n2 / d ≤ PyNum.div_half_even n2 d)
      as [Hup Hlow]; [|unfold PyNum.div_half_even in *; lia].
    unfold PyNum.div_half_even. split.
    + destruct (_ <? _); [lia|]. destruct (_ <? _); [lia|]. destruct (Z.even _); lia.
    + destruct (_ <? _); [lia|]. destruct (_ <? _); [lia|]. destruct (Z.even _); lia.
Qed.

Lemma div_half_even_nonneg n d : 0 < d → 0 ≤ n → 0 ≤ PyNum.div_half_even n d.
Proof.
  intros Hd Hn. rewrite <- (div_half_even_exact 0 d Hd). by apply div_half_even_mono.
Qed.

Lemma nearest_int_mono z1 z2 : z1 ≤ z2 → nearest_int z1 ≤ nearest_int z2.
Proof.
  intros Hle. unfold nearest_int.
  assert (0 < 2 ^ 1074) as HT by (apply pow2_pos; lia).
  destruct (Z.leb_spec 0 z1), (Z.leb_spec 0 z2); try lia.
  - by apply div_half_even_mono.
  - pose proof (div_half_even_nonneg (- z1) (2 ^ 1074) HT ltac:(lia)).
    pose proof (div_half_even_nonneg z2 (2 ^ 1074) HT ltac:(lia)). lia.
  - pose proof (div_half_even_mono (- z2) (- z1) (2 ^ 1074) HT ltac:(lia)). lia.
Qed.

Lemma round_scaled m e :
  -1074 ≤ e →
  (if 0 <=? e then Z.pos m * 2 ^ e else PyNum.div_half_even (Z.pos m) (2 ^ (- e)))
  = PyNum.div_half_even (scaled (Z.pos m) e) (2 ^ 1074).
Proof.
  intros He. unfold scaled. destruct (Z.leb_spec 0 e) as [Hpos|Hneg].
  - rewrite Z.pow_add_r, Z.mul_assoc by lia. rewrite div_half_even_exact; [done|].
    apply pow2_pos; lia.
  - rewrite (pow2_split 1074 (e + 1074)) by lia.
    replace (1074 - (e + 1074)) with (- e) by lia.
    rewrite div_half_even_scale; [done| |]; apply pow2_pos; lia.
Qed.

Lemma round_Ok x r :
  PyNum.round x = Ok r → SFfinite (Prim2SF x) ∧ r = nearest_int (Zval (Prim2SF x)).
Proof.
  unfold PyNum.round. pose proof (Prim2SF_valid x) as Hv.
  destruct (Prim2SF x) as [s|s| |s m e]; try done.
  - intros [= <-]. split; [done|]. unfold nearest_int. cbn [Zval].
    change (0 <=? 0) with true. cbv iota. symmetry.
    exact (div_half_even_exact 0 (2 ^ 1074) (pow2_pos 1074 ltac:(lia))).
  - destruct (valid_finite_pos _ _ _ Hv) as [He Hpos].
    rewrite round_scaled by done. intros [= <-]. split; [done|].
    unfold nearest_int. destruct s; cbn [Zval cond_Zopp].
    + destruct (Z.leb_spec 0 (- scaled (Z.pos m) e)); [lia|]. by rewrite Z.opp_involutive.
    + destruct (Z.leb_spec 0 (scaled (Z.pos m) e)); [done|lia].
Qed.

(** ** The steps of [rating_change], on primitive floats *)

Lemma Prim2SF_one : Prim2SF 1 = one64.
Proof. reflexivity. Qed.

Lemma Zval_one_pos : 0 < Zval one64.
Proof. rewrite Zval_one. apply pow2_pos. lia. Qed.

Lemma ltb_zero_nonneg x : (x <? 0)%float = false → nonneg (Prim2SF x).
Proof.
  rewrite ltb_spec. change (Prim2SF 0) with (S754_zero false). unfold SFltb.
  by destruct (Prim2SF x) as [s|[]| |[] m e].
Qed.



Section Steps.
Variable libm_pow : float → float → float.
Hypothesis libm_pow_sign : ∀ x, (libm_pow 10 x <? 0)%float = false.

Lemma pow10_nonneg e p : PyNum.pow10 libm_pow e = Ok p → nonneg (Prim2SF p).
Proof using libm_pow_sign.
  unfold PyNum.pow10. destruct (is_zero e); [by intros [= <-]|].
  destruct (is_nan e) eqn:Hnan.
  { intros [= <-]. unfold Prim2SF. by rewrite Hnan. }
  destruct (is_infinity e).
  { intros [= <-]. by destruct (0 <? e)%float. }
  destruct (is_infinity _); [done|]. intros [= <-]. apply ltb_zero_nonneg, libm_pow_sign.
Qed.

End Steps.

(** [1 + p] is a NaN, [+inf] or at least one. *)
Lemma add_one_lower p :
  nonneg (Prim2SF p) →
  Prim2SF (1 + p) = S754_nan ∨ lower (Zval one64) (Prim2SF (1 + p)).
Proof.
  rewrite add_spec, Prim2SF_one. pose proof (Prim2SF_valid p) as Hv.
  destruct (Prim2SF p) as [sp|sp| |sp mp ep] eqn:Hp; cbn [nonneg].
  - intros _. right. right. done.
  - intros ->. right. by left.
  - intros _. by left.
  - intros ->. right. apply SFadd_lower; try done.
    cbn [Zval cond_Zopp]. destruct (valid_finite_pos _ _ _ Hv).
    lia.
Qed.

(** [1 / s] is then a NaN or between zero and one. *)
Lemma div_one_unit s :
  Prim2SF s = S754_nan ∨ lower (Zval one64) (Prim2SF s) →
  Prim2SF (1 / s) = S754_nan ∨
  (SFfinite (Prim2SF (1 / s)) ∧ 0 ≤ Zval (Prim2SF (1 / s)) ≤ Zval one64).
Proof.
  rewrite div_spec, Prim2SF_one. pose proof (Prim2SF_valid s) as Hv.
  pose proof Zval_one_pos as Hone.
  intros [->|[->|[Hf Hle]]]; [by left| |].
  - right. change (SF64div one64 (S754_infinity false)) with (S754_zero false).
    split; [done|]. cbn [Zval]. lia.
  - right. destruct (Prim2SF s) as [ss|ss| |ss ms es]; try done.
    destruct ss.
    + destruct (valid_finite_pos _ _ _ Hv).
      change (Zval (S754_finite true ms es)) with (- scaled (Z.pos ms) es) in Hle. lia.
    + rewrite Zval_one in *. by apply SFdiv_one_upper.
Qed.

(** [1 - q] is then not below zero. *)
Lemma sub_one_nonneg q :
  Prim2SF q = S754_nan ∨ (SFfinite (Prim2SF q) ∧ 0 ≤ Zval (Prim2SF q) ≤ Zval one64) →
  nonneg (Prim2SF (1 - q)).
Proof.
  intros Hq. pose proof (Prim2SF_valid (1 - q)) as Hv. revert Hv.
  rewrite sub_spec, Prim2SF_one. pose proof (Prim2SF_valid q) as Hvq.
  destruct Hq as [->|[Hf Hb]]; [done|]. intros Hv.
  apply nonneg_lower; [done|].
  apply (SFsub_lower one64 (Prim2SF q) (S754_zero false)); try done.
  cbn [Zval]. lia.
Qed.





(** ** Integers below [2 ^ 53] convert exactly *)

Lemma binary_round_small s p :
  Z.pos p < 2 ^ 53 →
  ∃ m e, binary_round prec emax s p 0 = S754_finite s m e ∧
         valid_binary (S754_finite s m e) = true ∧
         -1074 ≤ e ∧ scaled (Z.pos m) e = Z.pos p * 2 ^ 1074.
Proof.
  intros Hlt.
  destruct (binary_round_scaled s p 0 ltac:(lia)) as (m2 & Hb & Hex & _ & ->).
  pose proof (Zdigits2_lt_pow2 (Z.pos p) 53 ltac:(lia) Hlt) as Hd.
  pose proof (Zdigits2_pos (Z.pos p) ltac:(lia)) as Hd0.
  rewrite Z.add_0_r in *.
  set (k := 53 - Zdigits2 (Z.pos p)).
  assert (fexp64 (Zdigits2 (Z.pos p)) = - k) as He2 by (unfold fexp64, k; lia).
  rewrite He2 in *.
  assert (scaled (Z.pos p) 0 = Z.pos p * 2 ^ k * 2 ^ (- k + 1074)) as HV.
  { unfold scaled. rewrite <- Z.mul_assoc, <- Z.pow_add_r by lia. do 2 f_equal. lia. }
  assert (0 < 2 ^ (- k + 1074)) as HW by (apply pow2_pos; lia).
  rewrite HV in Hb, Hex. rewrite Z.div_mul in Hb, Hex by lia. rewrite Z.mod_mul in Hex by lia.
  specialize (Hex eq_refl). subst m2.
  assert (Zdigits2 (Z.pos p * 2 ^ k) = 53) as Hdig.
  { rewrite Zdigits2_mul_pow2 by lia. lia. }
  assert (0 < Z.pos p * 2 ^ k) as Hpos by (pose proof (pow2_pos k ltac:(lia)); lia).
  pose proof (Zdigits2_bounds _ Hpos) as [_ Hub]. rewrite Hdig in Hub.
  unfold packed.
  destruct (Z.eqb_spec (Z.pos p * 2 ^ k) 0); [lia|].
  destruct (Z.eqb_spec (Z.pos p * 2 ^ k) (2 ^ 53)); [lia|].
  destruct (Z.leb_spec (- k) 971); [|lia].
  eexists _, _. split; [done|].
  assert (Z.pos (Z.to_pos (Z.pos p * 2 ^ k)) = Z.pos p * 2 ^ k) as Hm by (apply Z2Pos.id; lia).
  split; [|split; [lia|]].
  - unfold valid_binary, SpecFloat.valid_binary, bounded, canonical_mantissa.
    rewrite fexp64_eq. change (Z.pos (digits2_pos ?m)) with (Zdigits2 (Z.pos m)).
    rewrite Hm, Hdig. apply andb_true_iff. split.
    + apply Z.eqb_eq. unfold fexp64. lia.
    + apply Z.leb_le. change (emax - prec) with 971. lia.
  - rewrite Hm. unfold scaled in *. lia.
Qed.

Lemma float_exact_finite s m e z :
  valid_binary (S754_finite s m e) = true → -1074 ≤ e →
  cond_Zopp s (scaled (Z.pos m) e) = z * 2 ^ 1074 →
  (let f := SF2Prim (S754_finite s m e) in
   if is_infinity f then Raise OverflowError else PyNum.round f) = Ok z.
Proof.
  intros Hv He Hz. cbv zeta.
  assert (is_infinity (SF2Prim (S754_finite s m e)) = false) as ->.
  { unfold is_infinity. rewrite FloatAxioms.eqb_spec, abs_spec, Prim2SF_SF2Prim by done. done. }
  unfold PyNum.round. rewrite Prim2SF_SF2Prim by done.
  rewrite round_scaled by done. f_equal.
  assert (0 < 2 ^ 1074) as HT by (apply pow2_pos; lia).
  destruct s; cbn [cond_Zopp] in Hz.
  - replace (scaled (Z.pos m) e) with (- z * 2 ^ 1074) by lia.
    rewrite div_half_even_exact by done. lia.
  - rewrite Hz. by apply div_half_even_exact.
Qed.

(** Every integer of magnitude below [2 ^ 53] survives the conversion. *)
Lemma float_exact_small z : - 2 ^ 53 < z < 2 ^ 53 → float_exact z.
Proof.
  intros Hz. unfold float_exact, PyNum.float_of_int.
  destruct z as [|p|p].
  - reflexivity.
  - cbn [binary_normalize].
    destruct (binary_round_small false p ltac:(lia)) as (m & e & -> & Hv & He & Hs).
    pose proof (float_exact_finite false m e (Z.pos p) Hv He Hs) as H. cbv zeta in H.
    destruct (is_infinity _); [done|]. exact H.
  - cbn [binary_normalize].
    destruct (binary_round_small true p ltac:(lia)) as (m & e & -> & Hv & He & Hs).
    pose proof (float_exact_finite true m e (Z.neg p) Hv He ltac:(cbn [cond_Zopp]; lia)) as H.
    cbv zeta in H. destruct (is_infinity _); [done|]. exact H.
Qed.

(** ** The rating update never moves a rating the wrong way *)




(** A rating that a float cannot hold is lowered by a win, whatever [pow]
    is: [2 ^ 60 + 1] becomes [2 ^ 60]. *)
Lemma inexact_rating_decreases libm_pow :
  new_elos libm_pow (2 ^ 60 + 1) (2 ^ 60 + 1) 2 0 = Ok (2 ^ 60, 2 ^ 60).
Proof. vm_compute. reflexivity. Qed.

(** ** Starting a session with one or two players *)

(** C9, as amended: with exactly one active player [start_session] answers
    400 "Need at least 2 active players"; with exactly two active players and
    a table count of at least 1 (the default) it answers the snapshot and
    leaves an active session with exactly one match and an empty queue. *)
Theorem start_session_boundary tableCount σ :
  (length (active_players σ) = 1%nat →
     (start_session tableCount σ).1 = Ok insufficient_players) ∧
  (length (active_players σ) = 2%nat → 1 ≤ default 1 tableCount →
     started_one_match (start_session tableCount σ).1 (start_session tableCount σ).2).
Proof.
  split.
  - intros Hone. rewrite start_session_rejected by lia. done.
  - apply start_session_two.
Qed.

Lemma start_session_boundary_witness :
  (start_session None (initial_world [newcomer "1" true; newcomer "2" false])).1
    = Ok insufficient_players ∧
  started_one_match
    (start_session None (initial_world [newcomer "1" true; newcomer "2" true])).1
    (start_session None (initial_world [newcomer "1" true; newcomer "2" true])).2.
Proof.
  split.
  - apply (start_session_boundary None
             (initial_world [newcomer "1" true; newcomer "2" false])). reflexivity.
  - apply (start_session_boundary None
             (initial_world [newcomer "1" true; newcomer "2" true])); [reflexivity|].
    simpl. lia.
Defined.

(** With two active players and a table count of 0 the session starts with
    no match and both players waiting, so C9 needs a table. *)
Lemma start_session_two_players_no_table :
  ¬ (∀ tableCount σ,
       length (active_players σ) = 2%nat →
       started_one_match (start_session tableCount σ).1 (start_session tableCount σ).2).
Proof.
  intros H.
  specialize (H (Some 0) (initial_world [newcomer "1" true; newcomer "2" true]) eq_refl).
  destruct H as (_ & _ & Hlen & _). vm_compute in Hlen. discriminate.
Qed.

(** C6: a [start_session] that is rejected for want of players has already
    stored the requested table count.  With one active player and
    [tableCount = 3] the answer is the 400 error, and [max_tables] goes from
    0 to 3. *)
Theorem start_session_rejected_sets_max_tables :
  let σ := initial_world [newcomer "1" true] in
  (start_session (Some 3) σ).1 = Ok insufficient_players ∧
  max_tables (session_data σ) = 0 ∧
  max_tables (session_data (start_session (Some 3) σ).2) = 3.
Proof. vm_compute. done. Qed.

(** ** The capacity bound *)




(** The other way out of the bound: a rejected restart lowers [max_tables]
    under the matches that are being played. *)
Lemma rejected_restart_breaks_bound libm_pow :
  let σ := run libm_pow
             [StartSession (Some 2); TogglePlayerStatus "1"; TogglePlayerStatus "2";
              TogglePlayerStatus "3"; StartSession (Some 1)]
             (initial_world four_players) in
  length (active_matches (session_data σ)) = 2%nat ∧ max_tables (session_data σ) = 1.
Proof. vm_compute. done. Qed.

(** ** Recording a result for a pair that is not playing *)

Section RecordWithoutMatch.
Variable libm_pow : float → float → float.

(** C5, as amended: when [record_result] names two different players of the
    roster (session players too, when a session is active) who have no
    active match together, and the rating computation returns, the caller
    receives the usual 200 snapshot, both roster rows carry the new rating
    and the counted win or loss, and every match that was active is still
    active, in the same order. *)
Theorem record_result_without_match σ w l ws ls winner loser r :
  reachable libm_pow σ →
  find_by_id w (players_csv σ) = Some winner →
  find_by_id l (players_csv σ) = Some loser →
  w ≠ l →
  (is_active (session_data σ) = true →
     is_Some (players (session_data σ) !! w) ∧ is_Some (players (session_data σ) !! l)) →
  no_match_for w l σ →
  new_elos libm_pow (elo winner) (elo loser) ws ls = Ok r →
  snapshot_response (record_result libm_pow w l ws ls σ).1 ∧
  find_by_id w (players_csv (record_result libm_pow w l ws ls σ).2)
    = Some (set_wins (wins winner + 1) (set_elo r.1 winner)) ∧
  find_by_id l (players_csv (record_result libm_pow w l ws ls σ).2)
    = Some (set_losses (losses loser + 1) (set_elo r.2 loser)) ∧
  active_matches (session_data σ)
    `prefix_of` active_matches (session_data (record_result libm_pow w l ws ls σ).2).
Proof.
  intros Hreach Hw Hl Hne Hsession Hnomatch Hr.
  apply reachable_queue_known in Hreach as Hk.
  set (Post := λ (res : result response) (σ' : World),
    snapshot_response res ∧
    find_by_id w (players_csv σ') = Some (set_wins (wins winner + 1) (set_elo r.1 winner)) ∧
    find_by_id l (players_csv σ') = Some (set_losses (losses loser + 1) (set_elo r.2 loser)) ∧
    active_matches (session_data σ) `prefix_of` active_matches (session_data σ')).
  change (wp (record_result libm_pow w l ws ls) Post σ).
  assert (Hcsv_w : find_by_id w
            (update_first l (λ p, set_losses (losses p + 1) (set_elo r.2 p))
               (update_first w (λ p, set_wins (wins p + 1) (set_elo r.1 p)) (players_csv σ)))
            = Some (set_wins (wins winner + 1) (set_elo r.1 winner))).
  { rewrite find_by_id_update_first_ne by done.
    rewrite find_by_id_update_first_eq by done. by rewrite Hw. }
  assert (Hcsv_l : find_by_id l
            (update_first l (λ p, set_losses (losses p + 1) (set_elo r.2 p))
               (update_first w (λ p, set_wins (wins p + 1) (set_elo r.1 p)) (players_csv σ)))
            = Some (set_losses (losses loser + 1) (set_elo r.2 loser))).
  { rewrite find_by_id_update_first_eq by done.
    rewrite find_by_id_update_first_ne by done. by rewrite Hl. }
  unfold record_result. wp_steps. rewrite Hw, Hl. wp_steps. rewrite Hr. wp_steps.
  cbn [session_data].
  destruct (is_active (session_data σ)) eqn:Hactive.
  - destruct Hsession as [[pw Hpw] [pl Hpl]]; [done|].
    wp_steps. cbn [session_data]. rewrite Hpw. wp_steps.
    cbn [with_session session_data players set_players]. rewrite lookup_insert_eq. wp_steps.
    cbn [with_session session_data players set_players].
    rewrite lookup_insert_ne, lookup_insert_ne, Hpl by done. wp_steps.
    cbn [with_session session_data players set_players]. rewrite lookup_insert_eq. wp_steps.
    cbn [with_session session_data players set_players waiting_ids set_waiting_ids
         set_active_matches active_matches players_csv].
    match goal with |- match sorted_by_elo ?ps ?ids with _ => _ end =>
      assert (∀ pid, pid ∈ ids → is_Some (ps !! pid)) as Hk'
    end.
    { intros pid Hpid. rewrite !lookup_insert_is_Some'.
      apply elem_of_app in Hpid as [Hpid|Hpid].
      - do 4 right. by apply Hk.
      - apply elem_of_cons in Hpid as [->|Hpid%list_elem_of_singleton].
        + do 3 right. by left.
        + left. by subst. }
    destruct (sorted_by_elo_total _ _ Hk') as [sorted Hs]. rewrite Hs. wp_steps.
    final_world queue_known Hfin.
    { apply queue_known_fill. intros pid Hpid. cbn in *.
      apply sorted_by_elo_Permutation in Hs. rewrite Hs in Hpid. by apply Hk'. }
    destruct (queue_known_get_session_state _ Hfin) as [s Hsnap]. rewrite Hsnap.
    wp_steps. unfold Post. split_and!; [by exists s|done|done|].
    cbn [with_session session_data].
    etrans; [|apply fill_tables_matches_prefix].
    cbn [active_matches set_waiting_ids set_active_matches].
    by rewrite filter_Forall_id.
  - wp_steps. cbn [session_data].
    destruct (queue_known_get_session_state _ Hk) as [s Hsnap]. rewrite Hsnap.
    wp_steps. unfold Post. by split_and!; [exists s|..].
Qed.

End RecordWithoutMatch.

Lemma record_result_without_match_witness :
  let σ := (handle libm_unused (StartSession (Some 2)) (initial_world four_players)).2 in
  snapshot_response (record_result libm_unused "1" "3" 2 0 σ).1 ∧
  find_by_id "1" (players_csv (record_result libm_unused "1" "3" 2 0 σ).2)
    = Some (set_wins 1 (set_elo 1024 (newcomer "1" true))) ∧
  find_by_id "3" (players_csv (record_result libm_unused "1" "3" 2 0 σ).2)
    = Some (set_losses 1 (set_elo 976 (newcomer "3" true))) ∧
  active_matches (session_data σ)
    `prefix_of` active_matches (session_data (record_result libm_unused "1" "3" 2 0 σ).2).
Proof.
  apply (record_result_without_match libm_unused
           (handle libm_unused (StartSession (Some 2)) (initial_world four_players)).2
           "1" "3" 2 0 (newcomer "1" true) (newcomer "3" true) (1024, 976)).
  - apply reachable_step, reachable_initial.
  - reflexivity.
  - reflexivity.
  - discriminate.
  - intros _. split; vm_compute; eauto.
  - repeat constructor; intros [[H1 H2]|[H1 H2]]; vm_compute in H1, H2; discriminate.
  - reflexivity.
Defined.

(** With players 1 and 2 at one table and 3 and 4 at the other, a result
    recorded for 1 against 3 is answered with the 200 snapshot, not with an
    error. *)
Lemma record_result_has_no_match_not_found :
  ¬ ∃ libm_pow, match_not_found_claim libm_pow.
Proof.
  intros [libm_pow H].
  destruct (H (handle libm_pow (StartSession (Some 2)) (initial_world four_players)).2
              "1"%string "3"%string 2 0) as [(message & code & Hresp) _].
  - apply reachable_step, reachable_initial.
  - vm_compute. eauto.
  - vm_compute. eauto.
  - repeat constructor; intros [[H1 H2]|[H1 H2]]; vm_compute in H1, H2; discriminate.
  - vm_compute in Hresp. discriminate.
Qed.

(** ** Deactivating a player who is at a table *)

Section ToggleInMatch.
Variable libm_pow : float → float → float.

(** C10: while a session is active, toggling to inactive a roster player
    who sits in an active match answers 200, removes the id from the session
    players and from the queue, and leaves the match list as it was; the
    snapshot that follows is built without error and shows that match with
    [player1] or [player2] null. *)
Theorem toggle_player_in_match σ pid p m :
  reachable libm_pow σ →
  is_active (session_data σ) = true →
  find_by_id pid (players_csv σ) = Some p →
  is_playing p = true →
  m ∈ active_matches (session_data σ) →
  player1Id m = pid ∨ player2Id m = pid →
  let out := toggle_player_status pid σ in
  out.1 = Ok status_updated ∧
  players (session_data out.2) !! pid = None ∧
  (pid ∉ waiting_ids (session_data out.2)) ∧
  active_matches (session_data out.2) = active_matches (session_data σ) ∧
  ∃ s v,
    (get_session out.2).1 = Ok {| resp_body := JsonSession s; status := 200 |} ∧
    v ∈ activeMatches s ∧ view_match v = m ∧
    (player1 v = None ∨ player2 v = None).
Proof.
  intros Hreach Hactive Hfind Hplaying Hm Hpid. cbv zeta.
  pose proof (handle_queue_known libm_pow (TogglePlayerStatus pid) σ
                (reachable_queue_known libm_pow σ Hreach)) as Hk.
  cbn [handle] in Hk. revert Hk.
  destruct (toggle_first_found pid _ p Hfind) as [ps' Htoggle].
  rewrite Hplaying in Htoggle. cbn [negb] in Htoggle.
  unfold toggle_player_status, mbind, M_bind, get_players_from_csv, session,
    update_session, write_players_to_csv, json, mret, M_ret.
  rewrite Htoggle, Hactive.
  cbn [andb negb fst snd session_data players waiting_ids active_matches
       set_players set_waiting_ids players_csv].
  intros Hk. split_and!.
  - done.
  - apply lookup_delete_eq.
  - intros [Hne _]%list_elem_of_filter. done.
  - done.
  - destruct (queue_known_get_session_state _ Hk) as [s Hs].
    exists s, {| view_match := m;
                 player1 := delete pid (players (session_data σ)) !! player1Id m;
                 player2 := delete pid (players (session_data σ)) !! player2Id m |}.
    split_and!.
    + unfold get_session, get_session_state, mbind, M_bind, session, liftR, json,
        mret, M_ret. cbn [fst snd session_data] in *. by rewrite Hs.
    + rewrite (get_session_state_of_matches _ _ Hs). cbn [players active_matches].
      apply list_elem_of_fmap. by exists m.
    + done.
    + cbn [player1 player2]. destruct Hpid as [-> | ->]; [left|right]; apply lookup_delete_eq.
Qed.

End ToggleInMatch.

Lemma toggle_player_in_match_witness :
  let σ := (handle libm_unused (StartSession (Some 2)) (initial_world four_players)).2 in
  let out := toggle_player_status "1" σ in
  out.1 = Ok status_updated ∧
  players (session_data out.2) !! "1"%string = None ∧
  ("1"%string ∉ waiting_ids (session_data out.2)) ∧
  active_matches (session_data out.2) = active_matches (session_data σ) ∧
  ∃ s v,
    (get_session out.2).1 = Ok {| resp_body := JsonSession s; status := 200 |} ∧
    v ∈ activeMatches s ∧ view_match v = new_match "1" "2" ∧
    (player1 v = None ∨ player2 v = None).
Proof.
  apply (toggle_player_in_match libm_unused
           (handle libm_unused (StartSession (Some 2)) (initial_world four_players)).2
           "1" (newcomer "1" true) (new_match "1" "2")).
  - apply reachable_step, reachable_initial.
  - reflexivity.
  - reflexivity.
  - reflexivity.
  - vm_compute. constructor.
  - left. reflexivity.
Defined.

(** ** Where the code leaves its own invariants *)

(** C1: [record_result] puts both players back in the queue whether or not
    a match of theirs was removed.  With players 1 and 2 at one table and 3
    and 4 at the other, a result recorded for 1 against 3 ends, after
    [fill_empty_tables], with 1 and 3 in the queue and still at their
    tables. *)
Theorem record_result_requeues_playing_players libm_pow :
  let σ := run libm_pow [StartSession (Some 2); RecordResult "1" "3" 2 0]
             (initial_world four_players) in
  reachable libm_pow σ ∧
  waiting_ids (session_data σ) = ["1"; "3"]%string ∧
  playing_ids σ = ["1"; "2"; "3"; "4"]%string ∧
  ¬ queue_disjoint σ.
Proof.
  split_and!.
  - apply run_reachable, reachable_initial.
  - reflexivity.
  - reflexivity.
  - intros H. apply (H "1"%string); vm_compute; repeat constructor.
Qed.

(** C3: an id that the roster knows and the session does not gets past the
    404 check.  With player 3 in the roster but inactive, a result recorded
    for 1 against 3 during a session raises [KeyError] after the roster has
    been rewritten and the winner's session entry updated. *)
Theorem record_result_outside_session_mutates libm_pow :
  let σ := run libm_pow [StartSession (Some 1)] (initial_world two_and_a_spectator) in
  let out := record_result libm_pow "1" "3" 2 0 σ in
  reachable libm_pow σ ∧
  is_active (session_data σ) = true ∧
  players (session_data σ) !! "3"%string = None ∧
  out.1 = Raise (KeyError "3") ∧
  map elo (players_csv σ) = [1000; 1000; 1000] ∧
  map elo (players_csv out.2) = [1024; 1000; 976] ∧
  elo <$> players (session_data σ) !! "1"%string = Some 1000 ∧
  elo <$> players (session_data out.2) !! "1"%string = Some 1024.
Proof.
  split_and!; try reflexivity.
  apply run_reachable, reachable_initial.
Qed.

(** C7: the [KeyError] of C3 strikes after the winner's rating has changed
    and before the queue is sorted again.  With 3 and 4 waiting at 1000 each
    and 5 outside the session, a result recorded for 4 against 5 leaves the
    queue as 3 (1000) before 4 (1016). *)
Theorem record_result_failure_leaves_queue_unsorted libm_pow :
  let σ := run libm_pow [StartSession (Some 1)] (initial_world four_and_a_spectator) in
  let out := record_result libm_pow "4" "5" 2 1 σ in
  reachable libm_pow out.2 ∧
  queue_sorted σ ∧
  out.1 = Raise (KeyError "5") ∧
  waiting_ids (session_data out.2) = ["3"; "4"]%string ∧
  elo <$> players (session_data out.2) !! "3"%string = Some 1000 ∧
  elo <$> players (session_data out.2) !! "4"%string = Some 1016 ∧
  ¬ queue_sorted out.2.
Proof.
  split_and!; try reflexivity.
  - apply (reachable_step libm_pow (RecordResult "4" "5" 2 1)).
    apply run_reachable, reachable_initial.
  - repeat constructor. intros pa pb Hpa Hpb.
    vm_compute in Hpa, Hpb. injection Hpa as <-. injection Hpb as <-. done.
  - intros H. apply StronglySorted_inv in H as [_ H].
    apply Forall_inv in H.
    specialize (H (newcomer "3" true) (set_wins 1 (set_elo 1016 (newcomer "4" true)))
                  eq_refl eq_refl).
    vm_compute in H. by apply H.
Qed.

(** * Part IV: further properties of the code *)

(** ** What [fill_empty_tables] makes of the queue *)

Lemma fill_loop_count tables waiting matches :
  length (fill_loop tables waiting matches).2
    = (length matches + fill_count tables waiting matches)%nat ∧
  (length (fill_loop tables waiting matches).1 + 2 * fill_count tables waiting matches)%nat
    = length waiting.
Proof.
  unfold fill_count. remember (length waiting) as n eqn:Hn.
  revert waiting matches Hn.
  induction (lt_wf n) as [n _ IH]. intros waiting matches ->.
  destruct waiting as [|p1 [|p2 rest]]; cbn [fill_loop fst snd].
  - simpl. lia.
  - change (length [p1] / 2)%nat with 0%nat. simpl. lia.
  - assert (length (p1 :: p2 :: rest) / 2 = S (length rest / 2))%nat as Hdiv.
    { cbn [length]. replace (S (S (length rest))) with (length rest + 1 * 2)%nat by lia.
      rewrite Nat.div_add by lia. lia. }
    rewrite Hdiv.
    destruct (Z.ltb_spec (Z.of_nat (length matches)) tables); cbn [fst snd].
    + assert (Hlt : (length rest < length (p1 :: p2 :: rest))%nat) by (simpl; lia).
      destruct (IH _ Hlt rest (matches ++ [new_match p1 p2]) eq_refl) as [Hm Hw].
      rewrite length_app in Hm, Hw. cbn [length] in *. lia.
    + cbn [length]. lia.
Qed.

Lemma fill_loop_done tables waiting matches :
  tables ≤ Z.of_nat (length matches) ∨ (length waiting < 2)%nat →
  fill_loop tables waiting matches = (waiting, matches).
Proof.
  intros H. destruct waiting as [|p1 [|p2 rest]]; cbn [fill_loop]; try done.
  destruct (Z.ltb_spec (Z.of_nat (length matches)) tables); [|done].
  destruct H as [H|H]; [lia|simpl in H; lia].
Qed.

Lemma fill_loop_saturated tables waiting matches :
  tables ≤ Z.of_nat (length (fill_loop tables waiting matches).2) ∨
  (length (fill_loop tables waiting matches).1 < 2)%nat.
Proof.
  remember (length waiting) as n eqn:Hn.
  revert waiting matches Hn.
  induction (lt_wf n) as [n _ IH]. intros waiting matches ->.
  destruct waiting as [|p1 [|p2 rest]]; cbn [fill_loop fst snd].
  - right. simpl. lia.
  - right. simpl. lia.
  - destruct (Z.ltb_spec (Z.of_nat (length matches)) tables); cbn [fst snd].
    + apply (IH (length rest)); [simpl; lia|done].
    + by left.
Qed.

Lemma fill_tables_length sd :
  length (active_matches (fill_tables sd))
    = (length (active_matches sd)
       + fill_count (max_tables sd) (waiting_ids sd) (active_matches sd))%nat.
Proof.
  unfold fill_tables. cbn [active_matches set_active_matches set_waiting_ids].
  apply fill_loop_count.
Qed.

Lemma fill_tables_seated sd :
  match_ids (active_matches (fill_tables sd)) ++ waiting_ids (fill_tables sd)
    = match_ids (active_matches sd) ++ waiting_ids sd.
Proof.
  unfold fill_tables. cbn [active_matches waiting_ids set_active_matches set_waiting_ids].
  destruct (fill_loop_spec (max_tables sd) (waiting_ids sd) (active_matches sd))
    as (taken & added & Hw & Hm & Ht & _).
  rewrite Hm, match_ids_app, <- Ht, <- app_assoc, <- Hw. done.
Qed.

Lemma fill_tables_is_active sd : is_active (fill_tables sd) = is_active sd.
Proof. done. Qed.

(** X2: [fill_empty_tables] makes exactly one match for each free table as
    long as two players wait, each from two queued players, and stops only
    when the tables are full or fewer than two players are left in the
    queue. *)
Theorem fill_empty_tables_count sd :
  let k := fill_count (max_tables sd) (waiting_ids sd) (active_matches sd) in
  length (active_matches (fill_tables sd)) = (length (active_matches sd) + k)%nat ∧
  (length (waiting_ids (fill_tables sd)) + 2 * k)%nat = length (waiting_ids sd) ∧
  (max_tables sd ≤ Z.of_nat (length (active_matches (fill_tables sd))) ∨
   (length (waiting_ids (fill_tables sd)) < 2)%nat).
Proof.
  cbv zeta. split; [apply fill_tables_length|].
  unfold fill_tables. cbn [active_matches waiting_ids set_active_matches set_waiting_ids].
  destruct (fill_loop_count (max_tables sd) (waiting_ids sd) (active_matches sd)) as [_ Hw].
  split; [done|apply fill_loop_saturated].
Qed.

(** X3: [fill_empty_tables] seats the front of the queue in order and loses
    nobody: the players at the tables followed by the queue are the same
    list before and after, the matches that were running stay where they
    are, nothing else of the session changes, and a second call right after
    the first does nothing. *)
Theorem fill_empty_tables_conserves sd :
  match_ids (active_matches (fill_tables sd)) ++ waiting_ids (fill_tables sd)
    = match_ids (active_matches sd) ++ waiting_ids sd ∧
  active_matches sd `prefix_of` active_matches (fill_tables sd) ∧
  players (fill_tables sd) = players sd ∧
  is_active (fill_tables sd) = is_active sd ∧
  max_tables (fill_tables sd) = max_tables sd ∧
  fill_tables (fill_tables sd) = fill_tables sd.
Proof.
  pose proof (fill_loop_saturated (max_tables sd) (waiting_ids sd) (active_matches sd)) as Hsat.
  split; [apply fill_tables_seated|]. split; [apply fill_tables_matches_prefix|].
  unfold fill_tables. cbn [active_matches waiting_ids players is_active max_tables
    set_active_matches set_waiting_ids].
  split_and!; try done.
  rewrite (fill_loop_done _ _ _ Hsat). cbn [fst snd]. by destruct sd.
Qed.

(** ** Reading the session *)

(** X1: in every state the server can reach, [GET /api/session] answers 200
    with a snapshot and changes nothing; the snapshot has the session's
    flag, one entry for each running match and, for each queued id in
    order, the session's row of that player. *)
Theorem get_session_reachable libm_pow σ :
  reachable libm_pow σ →
  ∃ s, get_session σ = (Ok {| resp_body := JsonSession s; status := 200 |}, σ) ∧
       isActive s = is_active (session_data σ) ∧
       map view_match (activeMatches s) = active_matches (session_data σ) ∧
       Forall2 (λ pid p, players (session_data σ) !! pid = Some p)
         (waiting_ids (session_data σ)) (waitingPlayers s).
Proof.
  intros Hσ. apply reachable_queue_known in Hσ.
  destruct (queue_known_get_session_state σ Hσ) as [s Hs].
  exists s. unfold get_session, get_session_state, json, session, liftR, mbind, M_bind,
    mret, M_ret. rewrite Hs. split; [done|].
  unfold get_session_state_of in Hs.
  destruct (mapR _ (waiting_ids (session_data σ))) as [waiting|] eqn:Hw; [|done].
  simpl in Hs. injection Hs as <-. cbn [isActive activeMatches waitingPlayers].
  split_and!; [done| |].
  - rewrite map_map. cbn [view_match]. apply map_id.
  - apply mapR_Ok_Forall2 in Hw. eapply Forall2_impl; [exact Hw|].
    intros pid p Hp. cbn beta in Hp. by destruct (players (session_data σ) !! pid); simplify_eq.
Qed.

(** The snapshot after a session has started on four players and one table. *)
Lemma get_session_reachable_witness :
  reachable libm_unused (run libm_unused [StartSession (Some 1)] (initial_world four_players)) ∧
  ∃ s, get_session (run libm_unused [StartSession (Some 1)] (initial_world four_players))
         = (Ok {| resp_body := JsonSession s; status := 200 |},
            run libm_unused [StartSession (Some 1)] (initial_world four_players)) ∧
       isActive s = true ∧
       map view_match (activeMatches s) = [new_match "1" "2"] ∧
       Forall2 (λ pid p,
           players (session_data (run libm_unused [StartSession (Some 1)]
                                    (initial_world four_players))) !! pid = Some p)
         ["3"; "4"]%string (waitingPlayers s).
Proof.
  assert (reachable libm_unused
            (run libm_unused [StartSession (Some 1)] (initial_world four_players))) as Hr.
  { apply run_reachable. constructor. }
  split; [exact Hr|]. exact (get_session_reachable libm_unused _ Hr).
Defined.

(** ** Starting a session *)

Lemma start_session_accepted tableCount σ :
  (2 ≤ length (active_players σ))%nat →
  ∃ sorted s,
    sorted_by_elo (players_by_id (active_players σ)) (map id (active_players σ)) = Ok sorted ∧
    get_session_state_of (started_session (players_csv σ) (default 1 tableCount) sorted) = Ok s ∧
    start_session tableCount σ =
      (Ok {| resp_body := JsonSession s; status := 200 |},
       mkWorld (players_csv σ)
         (started_session (players_csv σ) (default 1 tableCount) sorted)).
Proof.
  intros Hn.
  destruct (start_session_sorted_total (active_players σ)) as [sorted Hs].
  exists sorted.
  assert (wp (start_session tableCount)
            (λ r σ', ∃ s,
               get_session_state_of
                 (started_session (players_csv σ) (default 1 tableCount) sorted) = Ok s ∧
               r = Ok {| resp_body := JsonSession s; status := 200 |} ∧
               σ' = mkWorld (players_csv σ)
                      (started_session (players_csv σ) (default 1 tableCount) sorted)) σ)
    as Hwp.
  { unfold start_session. wp_steps. cbn [players_csv with_session].
    fold (active_players σ). case_bool_decide; [lia|]. wp_steps.
    cbn [with_session session_data players set_players].
    rewrite Hs. wp_steps.
    assert (with_session fill_tables
              (with_session (set_active_matches [])
                 (with_session (set_waiting_ids sorted)
                    (with_session (set_players (players_by_id (active_players σ)))
                       (with_session (set_is_active true)
                          (with_session (set_max_tables (default 1 tableCount)) σ)))))
            = mkWorld (players_csv σ)
                (started_session (players_csv σ) (default 1 tableCount) sorted)) as ->.
    { done. }
    cbn [session_data].
    assert (queue_known (mkWorld (players_csv σ)
              (started_session (players_csv σ) (default 1 tableCount) sorted))) as Hk.
    { apply (queue_known_fill (mkWorld (players_csv σ)
               (fresh_session (players_csv σ) (default 1 tableCount) sorted))).
      intros pid Hpid. cbn in *.
      apply sorted_by_elo_Permutation in Hs. rewrite Hs in Hpid.
      apply list_elem_of_fmap in Hpid as (p & -> & Hp). by apply players_by_id_lookup. }
    destruct (queue_known_get_session_state _ Hk) as [s Hst]. cbn [session_data] in Hst.
    rewrite Hst. wp_steps. by exists s. }
  unfold wp in Hwp. destruct Hwp as (s & Hst & Hr & Hw). exists s.
  split_and!; [done|done|]. destruct (start_session tableCount σ) as [r σ'].
  cbn [fst snd] in *. by subst.
Qed.

(** X4: a successful [start_session] seats the active players by rating: the
    players at the tables, table by table, followed by the queue are the
    active players' ids sorted by descending rating with equal ratings in
    roster order, and there are min(tableCount, n / 2) matches for n active
    players (none for a negative count). *)
Theorem start_session_seats_by_rating tableCount σ :
  (2 ≤ length (active_players σ))%nat →
  let σ' := (start_session tableCount σ).2 in
  let seated := playing_ids σ' ++ waiting_ids (session_data σ') in
  sorted_by_elo (players_by_id (active_players σ)) (map id (active_players σ)) = Ok seated ∧
  seated ≡ₚ map id (active_players σ) ∧
  StronglySorted (elo_desc (players (session_data σ'))) seated ∧
  (∀ k, filter (λ pid, elo <$> players (session_data σ') !! pid = Some k) seated
        = filter (λ pid, elo <$> players (session_data σ') !! pid = Some k)
            (map id (active_players σ))) ∧
  length (active_matches (session_data σ'))
    = Nat.min (Z.to_nat (default 1 tableCount)) (length (active_players σ) / 2).
Proof.
  intros Hn. cbv zeta.
  destruct (start_session_accepted tableCount σ Hn) as (sorted & s & Hs & _ & ->).
  cbn [snd session_data]. unfold playing_ids. cbn [session_data].
  unfold started_session.
  rewrite fill_tables_seated, fill_tables_players, fill_tables_length. cbn [fresh_session active_matches waiting_ids players
    max_tables match_ids concat map app length].
  fold (active_players σ).
  pose proof (sorted_by_elo_Permutation _ _ _ Hs) as Hperm.
  split_and!.
  - done.
  - done.
  - by apply sorted_by_elo_sorted in Hs.
  - intros k. by apply sorted_by_elo_stable.
  - unfold fill_count. cbn [length]. rewrite Z.sub_0_r.
    by rewrite (Permutation_length Hperm), length_map.
Qed.

(** Four active players and a spectator, one table. *)
Lemma start_session_seats_by_rating_witness :
  let σ := initial_world four_and_a_spectator in
  (2 ≤ length (active_players σ))%nat ∧
  let σ' := (start_session (Some 1) σ).2 in
  let seated := playing_ids σ' ++ waiting_ids (session_data σ') in
  sorted_by_elo (players_by_id (active_players σ)) (map id (active_players σ)) = Ok seated ∧
  seated ≡ₚ map id (active_players σ) ∧
  StronglySorted (elo_desc (players (session_data σ'))) seated ∧
  (∀ k, filter (λ pid, elo <$> players (session_data σ') !! pid = Some k) seated
        = filter (λ pid, elo <$> players (session_data σ') !! pid = Some k)
            (map id (active_players σ))) ∧
  length (active_matches (session_data σ'))
    = Nat.min (Z.to_nat (default 1 (Some 1))) (length (active_players σ) / 2).
Proof.
  cbv zeta. split; [vm_compute; lia|].
  apply (start_session_seats_by_rating (Some 1) (initial_world four_and_a_spectator)).
  vm_compute. lia.
Defined.

(** X5: a successful [start_session] forgets the session that was running:
    its answer and the session it leaves depend on the roster and the table
    count only. *)
Theorem start_session_forgets tableCount σ1 σ2 :
  players_csv σ1 = players_csv σ2 →
  (2 ≤ length (active_players σ1))%nat →
  start_session tableCount σ1 = start_session tableCount σ2.
Proof.
  intros Heq Hn.
  assert (active_players σ1 = active_players σ2) as Hact.
  { unfold active_players. by rewrite Heq. }
  destruct (start_session_accepted tableCount σ1 Hn) as (sorted1 & s1 & Hs1 & Hst1 & ->).
  rewrite Hact in Hn.
  destruct (start_session_accepted tableCount σ2 Hn) as (sorted2 & s2 & Hs2 & Hst2 & ->).
  rewrite Hact, Hs2 in Hs1. injection Hs1 as ->.
  rewrite Heq, Hst2 in Hst1. injection Hst1 as ->. by rewrite Heq.
Qed.

(** Starting on one table gives the same from a fresh server and from a
    server that runs a session on two tables. *)
Lemma start_session_forgets_witness :
  let σ1 := initial_world four_players in
  let σ2 := run libm_unused [StartSession (Some 2)] (initial_world four_players) in
  players_csv σ1 = players_csv σ2 ∧
  (2 ≤ length (active_players σ1))%nat ∧
  start_session (Some 1) σ1 = start_session (Some 1) σ2.
Proof.
  cbv zeta. split; [reflexivity|]. split; [vm_compute; lia|].
  apply start_session_forgets; [reflexivity|vm_compute; lia].
Defined.

(** ** [int(str(n))] *)







(** ** New ids *)






(** ** Deleting a player *)

Lemma find_by_id_filter_eq pid ps :
  find_by_id pid (filter (λ p, id p ≠ pid) ps) = None.
Proof.
  unfold find_by_id. induction ps as [|p ps IH]; [done|].
  rewrite filter_cons. destruct (decide (id p ≠ pid)) as [Hp|Hp]; [|done].
  simpl. by rewrite bool_decide_eq_false_2.
Qed.

Lemma find_by_id_filter_ne pid q ps :
  q ≠ pid → find_by_id q (filter (λ p, id p ≠ pid) ps) = find_by_id q ps.
Proof.
  intros Hq. unfold find_by_id. induction ps as [|p ps IH]; [done|].
  rewrite filter_cons. destruct (decide (id p ≠ pid)) as [Hp|Hp]; simpl.
  - by rewrite IH.
  - rewrite bool_decide_eq_false_2; [done|]. intros Heq. apply Hp. congruence.
Qed.

Lemma find_by_id_None pid ps : find_by_id pid ps = None ↔ Forall (λ p, id p ≠ pid) ps.
Proof.
  unfold find_by_id. induction ps as [|p ps IH]; simpl; [by split|].
  case_bool_decide as Hp.
  - split; [done|]. intros H. by inversion H.
  - rewrite IH. split; [by constructor|]. intros H. by inversion H.
Qed.

Lemma filter_length_eq {A} (P : A → Prop) `{∀ x, Decision (P x)} (l : list A) :
  length (filter P l) = length l → Forall P l.
Proof.
  induction l as [|x l IH]; [done|]. rewrite filter_cons.
  pose proof (length_filter P l). destruct (decide (P x)); simpl; intros Hlen.
  - constructor; [done|]. apply IH. lia.
  - lia.
Qed.

Lemma delete_player_eq pid σ :
  delete_player pid σ =
    if bool_decide (Forall (λ p, id p ≠ pid) (players_csv σ))
    then (Ok player_not_found, σ)
    else (Ok player_deleted,
          mkWorld (filter (λ p, id p ≠ pid) (players_csv σ)) (session_data σ)).
Proof.
  unfold delete_player, mbind, M_bind, get_players_from_csv, write_players_to_csv, json,
    mret, M_ret.
  case_bool_decide as Hlen; case_bool_decide as Hall; try done.
  - destruct Hall. by apply (filter_length_eq (λ p, id p ≠ pid)).
  - destruct Hlen. by rewrite (filter_Forall_id _ _ Hall).
Qed.

(** X7: [delete_player] answers 404 and changes nothing when no row has the
    id; otherwise it removes every row with the id, so the id can no longer
    be found, while every other id is found as before.  It never touches the
    session: a player deleted during a session stays in its players, its
    queue and its matches. *)
Theorem delete_player_lookup pid σ :
  let out := delete_player pid σ in
  session_data out.2 = session_data σ ∧
  find_by_id pid (players_csv out.2) = None ∧
  (∀ q, q ≠ pid → find_by_id q (players_csv out.2) = find_by_id q (players_csv σ)) ∧
  (find_by_id pid (players_csv σ) = None → out = (Ok player_not_found, σ)) ∧
  (is_Some (find_by_id pid (players_csv σ)) → out.1 = Ok player_deleted).
Proof.
  cbv zeta. rewrite delete_player_eq. case_bool_decide as Hall; cbn [fst snd players_csv session_data].
  - split_and!; try done.
    + by apply find_by_id_None.
    + intros [p Hp]. apply find_by_id_None in Hall. congruence.
  - split_and!; try done.
    + apply find_by_id_filter_eq.
    + intros q Hq. by apply find_by_id_filter_ne.
    + intros Hnone. by apply find_by_id_None in Hnone.
Qed.

(** ** Toggling a player *)

Lemma toggle_first_spec pid ps :
  toggle_first pid ps =
    match find_by_id pid ps with
    | Some p => Some (update_first pid (set_is_playing (negb (is_playing p))) ps,
                      negb (is_playing p))
    | None => None
    end.
Proof.
  unfold find_by_id. induction ps as [|q ps IH]; simpl; [done|].
  case_bool_decide as Hq; [done|]. rewrite IH. by destruct (find _ ps).
Qed.

Lemma toggle_player_status_eq pid σ :
  toggle_player_status pid σ =
    match find_by_id pid (players_csv σ) with
    | Some p =>
        (Ok status_updated,
         mkWorld (update_first pid (set_is_playing (negb (is_playing p))) (players_csv σ))
           (toggled_session pid (negb (is_playing p)) (session_data σ)))
    | None => (Ok player_not_found, σ)
    end.
Proof.
  unfold toggle_player_status, mbind, M_bind, get_players_from_csv. cbn beta iota.
  rewrite toggle_first_spec. destruct (find_by_id pid (players_csv σ)) as [p|]; [|done].
  unfold toggled_session, session, update_session, write_players_to_csv, json, mret, M_ret.
  cbn [session_data players_csv].
  by destruct (is_active (session_data σ)), (is_playing p).
Qed.

Lemma update_first_twice pid b p ps :
  find_by_id pid ps = Some p →
  update_first pid (set_is_playing (is_playing p)) (update_first pid (set_is_playing b) ps) = ps.
Proof.
  unfold find_by_id. induction ps as [|q ps IH]; simpl; [done|].
  case_bool_decide as Hq; simpl.
  - intros [= ->]. rewrite bool_decide_eq_true_2 by done. by destruct p.
  - intros Hp. rewrite bool_decide_eq_false_2 by done. by rewrite IH.
Qed.

(** X8: toggling a player twice answers 200 both times and restores the
    roster; with no session active it restores everything.  During a session
    it does not restore the session: whichever way the player started, after
    the two toggles they are no longer among the session's players nor in the
    queue, and the running matches are as they were. *)
Theorem toggle_player_status_twice pid σ p :
  find_by_id pid (players_csv σ) = Some p →
  let out1 := toggle_player_status pid σ in
  let out2 := toggle_player_status pid out1.2 in
  out1.1 = Ok status_updated ∧ out2.1 = Ok status_updated ∧
  find_by_id pid (players_csv out1.2) = Some (set_is_playing (negb (is_playing p)) p) ∧
  players_csv out2.2 = players_csv σ ∧
  (is_active (session_data σ) = false → out2.2 = σ) ∧
  (is_active (session_data σ) = true →
     players (session_data out2.2) !! pid = None ∧
     (pid ∉ waiting_ids (session_data out2.2)) ∧
     active_matches (session_data out2.2) = active_matches (session_data σ)).
Proof.
  intros Hp. cbv zeta. rewrite (toggle_player_status_eq pid σ), Hp. cbn [fst snd].
  rewrite toggle_player_status_eq. cbn [players_csv session_data].
  rewrite find_by_id_update_first_eq by done. rewrite Hp. cbn [fmap option_fmap option_map fst snd].
  cbn [is_playing set_is_playing players_csv session_data]. rewrite negb_involutive.
  rewrite (update_first_twice pid _ p) by done.
  split_and!; try done.
  - intros Hact. unfold toggled_session. rewrite Hact. cbn [andb]. rewrite Hact. cbn [andb].
    clear. destruct σ. reflexivity.
  - intros Hact. unfold toggled_session. rewrite Hact. cbn [andb].
    destruct (is_playing p); cbn [negb is_active set_waiting_ids set_players
      players waiting_ids active_matches]; rewrite ?Hact; cbn [andb negb players
      waiting_ids active_matches set_waiting_ids set_players].
    + split_and!; [apply lookup_delete_eq| |done].
      intros [Hne _]%list_elem_of_filter. by apply Hne.
    + split_and!; [apply lookup_delete_eq| |done].
      intros [Hne _]%list_elem_of_filter. by apply Hne.
Qed.

(** Player 3 waits in a running session and is toggled twice. *)
Lemma toggle_player_status_twice_witness :
  let σ := run libm_unused [StartSession (Some 1)] (initial_world four_players) in
  find_by_id "3" (players_csv σ) = Some (newcomer "3" true) ∧
  let out1 := toggle_player_status "3" σ in
  let out2 := toggle_player_status "3" out1.2 in
  out1.1 = Ok status_updated ∧ out2.1 = Ok status_updated ∧
  find_by_id "3" (players_csv out1.2)
    = Some (set_is_playing (negb (is_playing (newcomer "3" true))) (newcomer "3" true)) ∧
  players_csv out2.2 = players_csv σ ∧
  (is_active (session_data σ) = false → out2.2 = σ) ∧
  (is_active (session_data σ) = true →
     players (session_data out2.2) !! "3"%string = None ∧
     ("3"%string ∉ waiting_ids (session_data out2.2)) ∧
     active_matches (session_data out2.2) = active_matches (session_data σ)).
Proof.
  cbv zeta. split; [reflexivity|].
  exact (toggle_player_status_twice "3"
           (run libm_unused [StartSession (Some 1)] (initial_world four_players))
           (newcomer "3" true) eq_refl).
Defined.

(** ** Adding a player *)






(** ** With no session active the session is empty *)

Lemma idle_empty_active σ : is_active (session_data σ) = true → idle_empty σ.
Proof. intros Ha Hi. congruence. Qed.

Ltac still_active Ha :=
  apply idle_empty_active; unfold with_session, fill_tables;
  cbn [session_data is_active set_players set_waiting_ids set_active_matches];
  exact Ha.

Section Idle.
Variable libm_pow : float → float → float.

Lemma add_player_idle_empty data_name σ :
  idle_empty σ → wp (add_player data_name) (λ _, idle_empty) σ.
Proof using Type.
  intros Hi. unfold add_player.
  destruct data_name as [raw|]; [|by wp_steps].
  case_bool_decide; [by wp_steps|].
  wp_steps. destruct (get_next_player_id _) as [new_id|]; [|done].
  wp_steps. cbn [session_data]. destruct (is_active (session_data σ)) eqn:Ha; [|by wp_steps].
  wp_steps. destruct (sorted_by_elo _ _) as [sorted|]; wp_steps; still_active Ha.
Qed.

Lemma record_result_idle_empty w l ws ls σ :
  idle_empty σ → wp (record_result libm_pow w l ws ls) (λ _, idle_empty) σ.
Proof using Type.
  intros Hi. unfold record_result. wp_steps.
  destruct (find_by_id w _) as [winner|]; [|by wp_steps].
  destruct (find_by_id l _) as [loser|]; [|by wp_steps].
  wp_steps. destruct (new_elos _ _ _ _ _) as [r|]; [|done].
  wp_steps. cbn [session_data].
  destruct (is_active (session_data σ)) eqn:Ha.
  - wp_steps. cbn [session_data].
    destruct (players (session_data σ) !! w) as [pw|]; [|still_active Ha]. wp_steps.
    cbn [with_session session_data players set_players]. rewrite lookup_insert_eq. wp_steps.
    cbn [with_session session_data players set_players].
    destruct (<[w:=_]> _ !! l) as [pl|]; [|still_active Ha]. wp_steps.
    cbn [with_session session_data players set_players]. rewrite lookup_insert_eq. wp_steps.
    destruct (sorted_by_elo _ _) as [sorted|]; [|still_active Ha]. wp_steps.
    destruct (get_session_state_of _); wp_steps; still_active Ha.
  - wp_steps. by destruct (get_session_state_of _); wp_steps.
Qed.

Lemma handle_idle_empty req σ : idle_empty σ → idle_empty (handle libm_pow req σ).2.
Proof using Type.
  intros Hi. destruct req as [| |data_name|pid|pid|tableCount| |w l ws ls]; cbn [handle].
  - unfold get_session, get_session_state, session, liftR, json, mbind, M_bind, mret, M_ret.
    by destruct (get_session_state_of _).
  - done.
  - by apply add_player_idle_empty.
  - rewrite delete_player_eq. by case_bool_decide.
  - rewrite toggle_player_status_eq. destruct (find_by_id pid _) as [p|]; [|done].
    cbn [snd]. unfold toggled_session.
    destruct (is_active (session_data σ)) eqn:Ha; [|exact Hi].
    apply idle_empty_active. cbn [session_data andb].
    by destruct (negb (negb (is_playing p))).
  - destruct (Nat.lt_ge_cases (length (active_players σ)) 2) as [Hfew|Hmany].
    + rewrite start_session_rejected by done. done.
    + destruct (start_session_accepted tableCount σ Hmany) as (sorted & s & _ & _ & ->).
      apply idle_empty_active. cbn [snd session_data]. unfold started_session.
      by rewrite fill_tables_is_active.
  - done.
  - by apply record_result_idle_empty.
Qed.

Lemma reachable_idle_empty σ : reachable libm_pow σ → idle_empty σ.
Proof using Type.
  induction 1 as [roster|req σ _ IH]; [done|by apply handle_idle_empty].
Qed.

(** X11: in every state the server can reach with no session active, the
    session has no players, no queue and no matches, and [GET /api/session]
    answers the empty snapshot. *)
Theorem idle_session_is_empty σ :
  reachable libm_pow σ →
  is_active (session_data σ) = false →
  players (session_data σ) = ∅ ∧
  waiting_ids (session_data σ) = [] ∧
  active_matches (session_data σ) = [] ∧
  get_session σ = (Ok idle_snapshot, σ).
Proof using Type.
  intros Hσ Hidle.
  destruct (reachable_idle_empty σ Hσ Hidle) as (Hp & Hw & Hm). split_and!; try done.
  unfold get_session, get_session_state, session, liftR, json, mbind, M_bind, mret, M_ret,
    get_session_state_of. by rewrite Hw, Hm, Hidle.
Qed.

End Idle.

(** A session is started, joined and ended. *)
Lemma idle_session_is_empty_witness :
  let σ := run libm_unused [StartSession (Some 1); AddPlayer (Some "Eve"%string); EndSession]
             (initial_world four_players) in
  reachable libm_unused σ ∧
  is_active (session_data σ) = false ∧
  players (session_data σ) = ∅ ∧
  waiting_ids (session_data σ) = [] ∧
  active_matches (session_data σ) = [] ∧
  get_session σ = (Ok idle_snapshot, σ).
Proof.
  cbv zeta.
  assert (reachable libm_unused
            (run libm_unused [StartSession (Some 1); AddPlayer (Some "Eve"%string); EndSession]
               (initial_world four_players))) as Hr.
  { apply run_reachable. constructor. }
  split; [exact Hr|]. split; [reflexivity|].
  exact (idle_session_is_empty libm_unused _ Hr eq_refl).
Defined.

(** ** Exact float arithmetic on small integers *)

Lemma float_of_int_holds z :
  - 2 ^ 53 < z < 2 ^ 53 → ∃ f, PyNum.float_of_int z = Ok f ∧ holds_int f z.
Proof.
  intros Hz. unfold PyNum.float_of_int, holds_int.
  assert (∀ s m e, valid_binary (S754_finite s m e) = true →
            cond_Zopp s (scaled (Z.pos m) e) = z * 2 ^ 1074 →
            ∃ f, (let f := SF2Prim (S754_finite s m e) in
                  if is_infinity f then Raise OverflowError else Ok f) = Ok f ∧
                 SFfinite (Prim2SF f) ∧ Zval (Prim2SF f) = z * 2 ^ 1074) as Hfin.
  { intros s m e Hv Hs. cbv zeta.
    assert (is_infinity (SF2Prim (S754_finite s m e)) = false) as ->.
    { unfold is_infinity. rewrite FloatAxioms.eqb_spec, abs_spec, Prim2SF_SF2Prim by done. done. }
    eexists. split; [done|]. by rewrite Prim2SF_SF2Prim by done. }
  destruct z as [|p|p].
  - exists 0%float. done.
  - cbn [binary_normalize].
    destruct (binary_round_small false p ltac:(lia)) as (m & e & -> & Hv & He & Hs).
    by apply Hfin.
  - cbn [binary_normalize].
    destruct (binary_round_small true p ltac:(lia)) as (m & e & -> & Hv & He & Hs).
    apply Hfin; [done|]. cbn [cond_Zopp]. lia.
Qed.

Lemma nearest_int_exact z : nearest_int (z * 2 ^ 1074) = z.
Proof.
  assert (0 < 2 ^ 1074) as HT by (apply pow2_pos; lia).
  unfold nearest_int. destruct (Z.leb_spec 0 (z * 2 ^ 1074)).
  - by apply div_half_even_exact.
  - replace (- (z * 2 ^ 1074)) with (- z * 2 ^ 1074) by lia.
    rewrite div_half_even_exact by done. lia.
Qed.

Lemma round_finite x :
  SFfinite (Prim2SF x) → PyNum.round x = Ok (nearest_int (Zval (Prim2SF x))).
Proof.
  intros Hf. destruct (PyNum.round x) as [r|err] eqn:Hr.
  - by apply round_Ok in Hr as [_ ->].
  - unfold PyNum.round in Hr. by destruct (Prim2SF x).
Qed.

Lemma round_holds x z : holds_int x z → PyNum.round x = Ok z.
Proof. intros [Hf Hz]. by rewrite round_finite, Hz, nearest_int_exact. Qed.

Lemma between_bounds A x : lower A x → upper A x → SFfinite x ∧ Zval x = A.
Proof.
  intros [->|[Hf Hl]] [Hu|[Hf' Hu]]; [done|by destruct Hf'|by subst; destruct Hf|].
  split; [done|lia].
Qed.

Lemma add_holds x y a b :
  holds_int x a → holds_int y b → - 2 ^ 53 < a + b < 2 ^ 53 → holds_int (x + y) (a + b).
Proof.
  intros [Hfx Hx] [Hfy Hy] Hab.
  destruct (float_of_int_holds (a + b) Hab) as (f & _ & Hff & Hf).
  unfold holds_int. rewrite add_spec, <- Hf.
  apply between_bounds.
  - apply SFadd_lower; try done; try apply Prim2SF_valid. lia.
  - apply SFadd_upper; try done; try apply Prim2SF_valid. lia.
Qed.

Lemma sub_holds x y a b :
  holds_int x a → holds_int y b → - 2 ^ 53 < a - b < 2 ^ 53 → holds_int (x - y) (a - b).
Proof.
  intros [Hfx Hx] [Hfy Hy] Hab.
  destruct (float_of_int_holds (a - b) Hab) as (f & _ & Hff & Hf).
  unfold holds_int. rewrite sub_spec, <- Hf.
  apply between_bounds.
  - apply SFsub_lower; try done; try apply Prim2SF_valid. lia.
  - apply SFsub_upper; try done; try apply Prim2SF_valid. lia.
Qed.

(** ** A match between equally rated players *)

Lemma rating_change_equal libm_pow e ws ls :
  ∃ d, rating_change libm_pow e e ws ls = Ok d ∧ holds_int d (even_match_points ws ls).
Proof.
  unfold rating_change, even_match_points. rewrite Z.sub_diag.
  case_bool_decide as Hs.
  - destruct Hs as [-> ->]. eexists. split; [reflexivity|]. split; [done|]. by vm_compute.
  - assert ((ws =? 2) && (ls =? 0) = false) as ->.
    { destruct (Z.eqb_spec ws 2), (Z.eqb_spec ls 0); try done. tauto. }
    eexists. split; [reflexivity|]. split; [done|]. by vm_compute.
Qed.

Lemma new_elos_equal libm_pow e ws ls :
  - 2 ^ 52 < e < 2 ^ 52 →
  new_elos libm_pow e e ws ls
    = Ok (e + even_match_points ws ls, e - even_match_points ws ls).
Proof.
  intros He. unfold new_elos, calculate_new_ratings.
  destruct (rating_change_equal libm_pow e ws ls) as (d & -> & Hd). cbn [mbind result_bind].
  destruct (float_of_int_holds e ltac:(lia)) as (f & -> & Hf). cbn [mbind result_bind fst snd].
  assert (0 < even_match_points ws ls ≤ 24) as Hk.
  { unfold even_match_points. case_bool_decide; lia. }
  rewrite (round_holds _ _ (add_holds _ _ _ _ Hf Hd ltac:(lia))).
  rewrite (round_holds _ _ (sub_holds _ _ _ _ Hf Hd ltac:(lia))). done.
Qed.

(** X12: between two players of the same rating the update is exact and
    needs nothing from the C library: the rating change is the float 16, or
    24 for a 2-0 result, and the stored ratings are the old one plus and
    minus that many points. *)
Theorem equal_ratings_exact libm_pow e ws ls :
  - 2 ^ 52 < e < 2 ^ 52 →
  (∃ d, rating_change libm_pow e e ws ls = Ok d ∧
        PyNum.round d = Ok (even_match_points ws ls)) ∧
  new_elos libm_pow e e ws ls
    = Ok (e + even_match_points ws ls, e - even_match_points ws ls).
Proof.
  intros He. split; [|by apply new_elos_equal].
  destruct (rating_change_equal libm_pow e ws ls) as (d & Hd & Hh).
  exists d. split; [done|by apply round_holds].
Qed.

(** Two players rated 1500, a 2-1 result. *)
Lemma equal_ratings_exact_witness :
  - 2 ^ 52 < 1500 < 2 ^ 52 ∧
  (∃ d, rating_change libm_unused 1500 1500 2 1 = Ok d ∧
        PyNum.round d = Ok (even_match_points 2 1)) ∧
  new_elos libm_unused 1500 1500 2 1
    = Ok (1500 + even_match_points 2 1, 1500 - even_match_points 2 1).
Proof.
  split; [lia|]. apply equal_ratings_exact. lia.
Defined.

(** ** The rating change is at most K *)

(** [1 - q] for [q] between zero and one is between zero and one. *)
Lemma sub_one_within q :
  within (Zval one64) (Prim2SF q) → within (Zval one64) (Prim2SF (1 - q)).
Proof.
  intros Hq. pose proof (sub_one_nonneg q Hq) as Hnn. revert Hnn.
  pose proof (Prim2SF_valid (1 - q)) as Hv. revert Hv.
  rewrite sub_spec, Prim2SF_one. pose proof (Prim2SF_valid q) as Hvq.
  destruct Hq as [->|[Hf Hb]]; [by left|]. intros Hv Hnn. right.
  destruct (SFsub_upper one64 (Prim2SF q) one64) as [Hinf|[Hfin Hle]]; try done.
  - lia.
  - unfold SF64sub in Hnn. by rewrite Hinf in Hnn.
  - split; [done|]. split; [|done].
    unfold SF64sub in *. destruct (SFsub prec emax one64 (Prim2SF q)) as [| | |[] m e];
      try done. cbn [Zval cond_Zopp]. destruct (valid_finite_pos _ _ _ Hv). lia.
Qed.

(** A product with a factor between zero and one is between zero and the
    other factor. *)
Lemma SFmul_within mk ek x :
  valid_binary (S754_finite false mk ek) = true →
  2 ^ 106 ≤ scaled (Z.pos mk) ek →
  valid_binary x = true →
  within (Zval one64) x →
  within (scaled (Z.pos mk) ek) (SFmul prec emax (S754_finite false mk ek) x).
Proof.
  intros HvK HK Hvx [->|[Hf [H0 H1]]]; [by left|]. right.
  apply valid_finite in HvK as [HcK HeK].
  destruct (canon_bounds (Z.pos mk) ek ltac:(lia) HcK) as [HeK' HmK].
  destruct x as [sx|sx| |[] mt et]; try done.
  - cbn [SFmul Zval]. split; [done|]. lia.
  - destruct (valid_finite_pos _ _ _ Hvx). cbn [Zval cond_Zopp] in H0. lia.
  - cbn [Zval cond_Zopp] in H1. rewrite Zval_one in H1.
    apply valid_finite in Hvx as [Hct Het].
    destruct (canon_bounds (Z.pos mt) et ltac:(lia) Hct) as [Het' Hmt].
    cbn [SFmul xorb]. rewrite Pos2Z.inj_mul.
    set (m := Z.pos mk * Z.pos mt). set (e := ek + et).
    assert (0 < m) as Hm by (unfold m; lia).
    assert (0 < 2 ^ 1074) as HT by (apply pow2_pos; lia).
    assert (0 < 2 ^ (et + 1074)) as Hpt by (apply pow2_pos; lia).
    assert (0 < 2 ^ (ek + 1074)) as Hpk by (apply pow2_pos; lia).
    assert (et ≤ 0) as Het0.
    { destruct (Z.le_gt_cases et 0) as [|Hpos]; [done|]. exfalso.
      unfold scaled in H1. rewrite Z.pow_add_r in H1 by lia.
      pose proof (pow2_le 1 et ltac:(lia) ltac:(lia)) as H2. change (2 ^ 1) with 2 in H2.
      assert (2 * 2 ^ 1074 ≤ Z.pos mt * (2 ^ et * 2 ^ 1074)); [|lia].
      rewrite Z.mul_assoc. apply Z.mul_le_mono_nonneg_r; [lia|]. nia. }
    destruct (Z.le_gt_cases (-1074) e) as [He|He].
    + destruct (binary_round_aux_scaled false m e loc_Exact ltac:(lia) He)
        as (m2 & Hb & Hex & H53 & ->).
      assert (scaled m e ≤ scaled (Z.pos mk) ek) as HV.
      { unfold scaled in *. unfold m.
        assert (2 ^ (e + 1074) * 2 ^ 1074 = 2 ^ (et + 1074) * 2 ^ (ek + 1074)) as Hsplit.
        { rewrite <- !Z.pow_add_r by lia. f_equal. unfold e. lia. }
        assert (0 < 2 ^ (e + 1074)) by (apply pow2_pos; lia). nia. }
      destruct (round_upper m e (Z.pos mk) ek m2 True ltac:(lia) He ltac:(unfold e; lia)
                  ltac:(lia) HcK HV ltac:(by left) Hb ltac:(auto)) as (Hm2 & He2 & He253).
      set (e2 := Z.max e (fexp64 (Zdigits2 m + e))) in *.
      assert (-1074 ≤ e2) as He2' by (unfold e2; lia).
      assert (0 ≤ m2) as Hm2pos.
      { assert (0 ≤ scaled m e / 2 ^ (e2 + 1074)); [|lia].
        apply Z.div_pos; [|apply pow2_pos; lia].
        pose proof (scaled_pos m e Hm He). lia. }
      destruct (packed_cases false m2 e2 Hm2pos He2')
        as [[_ ->]|[[_ Hinf]|[_ (m3 & e3 & -> & Hv3)]]].
      * split; [done|]. cbn [Zval]. lia.
      * exfalso. revert Hinf. apply packed_not_inf; lia.
      * split; [done|]. cbn [Zval cond_Zopp]. rewrite Hv3.
        pose proof (pow2_pos (e2 + 1074) ltac:(lia)). split; [nia|exact Hm2].
    + destruct (binary_round_aux_shape false m e loc_Exact ltac:(lia))
        as (m2 & Hb & _ & H53 & ->).
      assert (Zdigits2 m ≤ 106) as Hdig.
      { apply Zdigits2_lt_pow2; [done|]. unfold m.
        change (2 ^ 106) with (2 ^ 53 * 2 ^ 53). nia. }
      pose proof (Zdigits2_pos m Hm) as Hdpos.
      set (e2 := Z.max e (fexp64 (Zdigits2 m + e))) in *.
      assert (-1074 ≤ e2 ≤ -1021) as He2 by (unfold e2, fexp64; lia).
      assert (0 ≤ m2) as Hm2pos.
      { assert (0 ≤ m / 2 ^ (e2 - e)); [|lia].
        apply Z.div_pos; [lia|apply pow2_pos; lia]. }
      destruct (packed_cases false m2 e2 Hm2pos ltac:(lia))
        as [[_ ->]|[[_ Hinf]|[_ (m3 & e3 & -> & Hv3)]]].
      * split; [done|]. cbn [Zval]. lia.
      * exfalso. revert Hinf. apply packed_not_inf; lia.
      * split; [done|]. cbn [Zval cond_Zopp]. rewrite Hv3.
        pose proof (pow2_pos (e2 + 1074) ltac:(lia)) as Hp2.
        pose proof (pow2_le (e2 + 1074) 53 ltac:(lia) ltac:(lia)) as Hp53.
        split; [nia|].
        apply Z.le_trans with (2 ^ 53 * 2 ^ 53); [|by change (2 ^ 53 * 2 ^ 53) with (2 ^ 106)].
        apply Z.mul_le_mono_nonneg; lia.
Qed.

Lemma K_holds ws ls :
  ∃ mk ek, Prim2SF (K_BASE * (if ((ws =? 2) && (ls =? 0))%Z then 1.5 else 1.0))
             = S754_finite false mk ek ∧
           valid_binary (S754_finite false mk ek) = true ∧
           scaled (Z.pos mk) ek = max_points ws ls * 2 ^ 1074.
Proof.
  unfold max_points. case_bool_decide as Hs.
  - destruct Hs as [-> ->]. eexists _, _. split; [reflexivity|]. split; by vm_compute.
  - assert ((ws =? 2) && (ls =? 0) = false) as ->.
    { destruct (Z.eqb_spec ws 2), (Z.eqb_spec ls 0); try done. tauto. }
    eexists _, _. split; [reflexivity|]. split; by vm_compute.
Qed.

Lemma max_points_bounds ws ls : 32 ≤ max_points ws ls ≤ 48.
Proof. unfold max_points. case_bool_decide; lia. Qed.

Lemma rating_change_within libm_pow w l ws ls d :
  (∀ x, (libm_pow 10 x <? 0)%float = false) →
  rating_change libm_pow w l ws ls = Ok d →
  within (max_points ws ls * 2 ^ 1074) (Prim2SF d).
Proof.
  intros Hpow. unfold rating_change.
  destruct (PyNum.int_true_divide (l - w) 400) as [e|]; simpl; [|done].
  destruct (PyNum.pow10 libm_pow e) as [p|] eqn:Hp; simpl; [|done].
  unfold PyNum.float_div. destruct (is_zero (1 + p)); simpl; [done|].
  intros [= <-]. rewrite mul_spec.
  destruct (K_holds ws ls) as (mk & ek & -> & Hv & Hs).
  pose proof (max_points_bounds ws ls) as HK.
  rewrite <- Hs. apply SFmul_within; [done| |apply Prim2SF_valid|].
  - rewrite Hs. assert (0 < 2 ^ 1074) by (apply pow2_pos; lia).
    assert (2 ^ 106 ≤ 32 * 2 ^ 1074) by (by vm_compute). nia.
  - apply sub_one_within.
    destruct (div_one_unit (1 + p)) as [Hn|Hu]; [|by left|by right].
    apply add_one_lower. by apply (pow10_nonneg libm_pow Hpow e).
Qed.

Lemma within_number A x d :
  within A (Prim2SF d) → SFfinite (Prim2SF x) →
  SFfinite (SFadd prec emax (Prim2SF x) (Prim2SF d)) ∨
  SFfinite (SFsub prec emax (Prim2SF x) (Prim2SF d)) →
  SFfinite (Prim2SF d) ∧ 0 ≤ Zval (Prim2SF d) ≤ A.
Proof.
  intros [Hn|H] Hx Hxd; [|done]. rewrite Hn in Hxd.
  by destruct (Prim2SF x), Hxd.
Qed.

Lemma add_between x d a c :
  holds_int x a → within (c * 2 ^ 1074) (Prim2SF d) →
  - 2 ^ 53 < a + c < 2 ^ 53 →
  SFfinite (Prim2SF (x + d)) →
  a * 2 ^ 1074 ≤ Zval (Prim2SF (x + d)) ≤ (a + c) * 2 ^ 1074.
Proof.
  intros [Hfx Hx] Hd Hac. rewrite add_spec. intros Hfin.
  destruct (within_number _ x d Hd Hfx ltac:(by left)) as [Hfd Hdb].
  destruct (float_of_int_holds (a + c) Hac) as (f & _ & Hff & Hf).
  rewrite <- Hx, <- Hf. split.
  - destruct (SFadd_lower (Prim2SF x) (Prim2SF d) (Prim2SF x)) as [Hinf|[_ Hle]];
      try done; try apply Prim2SF_valid; [lia|].
    unfold SF64add in Hfin. by rewrite Hinf in Hfin.
  - destruct (SFadd_upper (Prim2SF x) (Prim2SF d) (Prim2SF f)) as [Hinf|[_ Hle]];
      try done; try apply Prim2SF_valid; [lia|].
    unfold SF64add in Hfin. by rewrite Hinf in Hfin.
Qed.

Lemma sub_between x d a c :
  holds_int x a → within (c * 2 ^ 1074) (Prim2SF d) →
  - 2 ^ 53 < a - c < 2 ^ 53 →
  SFfinite (Prim2SF (x - d)) →
  (a - c) * 2 ^ 1074 ≤ Zval (Prim2SF (x - d)) ≤ a * 2 ^ 1074.
Proof.
  intros [Hfx Hx] Hd Hac. rewrite sub_spec. intros Hfin.
  destruct (within_number _ x d Hd Hfx ltac:(by right)) as [Hfd Hdb].
  destruct (float_of_int_holds (a - c) Hac) as (f & _ & Hff & Hf).
  rewrite <- Hx, <- Hf. split.
  - destruct (SFsub_lower (Prim2SF x) (Prim2SF d) (Prim2SF f)) as [Hinf|[_ Hle]];
      try done; try apply Prim2SF_valid; [lia|].
    unfold SF64sub in Hfin. by rewrite Hinf in Hfin.
  - destruct (SFsub_upper (Prim2SF x) (Prim2SF d) (Prim2SF x)) as [Hinf|[_ Hle]];
      try done; try apply Prim2SF_valid; [lia|].
    unfold SF64sub in Hfin. by rewrite Hinf in Hfin.
Qed.

(** X13: no match moves a rating by more than K, which is 32 points, or 48
    for a 2-0 result: provided the C library's [pow] never returns a
    negative number, whenever the update returns for ratings below 2^52 in
    magnitude, the winner's new rating lies between the old one and the old
    one plus K, and the loser's between the old one minus K and the old
    one. *)
Theorem rating_change_bounded libm_pow w l ws ls w' l' :
  (∀ x, (libm_pow 10 x <? 0)%float = false) →
  - 2 ^ 52 < w < 2 ^ 52 → - 2 ^ 52 < l < 2 ^ 52 →
  new_elos libm_pow w l ws ls = Ok (w', l') →
  w ≤ w' ≤ w + max_points ws ls ∧ l - max_points ws ls ≤ l' ≤ l.
Proof.
  intros Hpow Hw Hl. unfold new_elos, calculate_new_ratings.
  destruct (rating_change libm_pow w l ws ls) as [d|] eqn:Hd; simpl; [|done].
  apply (rating_change_within libm_pow w l ws ls d Hpow) in Hd.
  pose proof (max_points_bounds ws ls) as HK.
  destruct (float_of_int_holds w ltac:(lia)) as (wr & -> & Hwr).
  destruct (float_of_int_holds l ltac:(lia)) as (lr & -> & Hlr). simpl.
  destruct (PyNum.round (wr + d)) as [nw|] eqn:Hnw; simpl; [|done].
  destruct (PyNum.round (lr - d)) as [nl|] eqn:Hnl; simpl; [|done].
  intros [= <- <-].
  apply round_Ok in Hnw as [Hfnw ->]. apply round_Ok in Hnl as [Hfnl ->].
  destruct (add_between wr d w (max_points ws ls) Hwr Hd ltac:(lia) Hfnw) as [Hw1 Hw2].
  destruct (sub_between lr d l (max_points ws ls) Hlr Hd ltac:(lia) Hfnl) as [Hl1 Hl2].
  apply nearest_int_mono in Hw1, Hw2, Hl1, Hl2.
  rewrite nearest_int_exact in Hw1, Hw2, Hl1, Hl2. done.
Qed.

(** Ratings 1000 and 1400: the underdog wins 2-1 and gains 29 points. *)
Lemma rating_change_bounded_witness :
  (∀ x, (libm_sample 10 x <? 0)%float = false) ∧
  - 2 ^ 52 < 1000 < 2 ^ 52 ∧ - 2 ^ 52 < 1400 < 2 ^ 52 ∧
  new_elos libm_sample 1000 1400 2 1 = Ok (1029, 1371) ∧
  1000 ≤ 1029 ≤ 1000 + max_points 2 1 ∧ 1400 - max_points 2 1 ≤ 1371 ≤ 1400.
Proof.
  assert (∀ x, (libm_sample 10 x <? 0)%float = false) as Hpow.
  { intros x. unfold libm_sample. destruct (x =? 1)%float; [reflexivity|].
    destruct (_ && _); reflexivity. }
  split; [exact Hpow|]. split; [lia|]. split; [lia|]. split; [reflexivity|].
  apply (rating_change_bounded libm_sample 1000 1400 2 1 1029 1371 Hpow); [lia|lia|reflexivity].
Defined.

(** ** Recording a result during a session *)

Section RecordInSession.
Variable libm_pow : float → float → float.


End RecordInSession.


(** ** Names of whitespace only *)





(** ** Results that name nobody, or one player twice *)

Section RecordEdges.
Variable libm_pow : float → float → float.

(** X16: a result that names an id the roster does not have is answered
    404 before anything is computed or written: the roster and the session
    are as they were, whatever the scores and whether a session is running.
    That is the only 404 of [record_result]: when the roster has both ids
    the answer is the snapshot or an uncaught exception. *)
Theorem record_result_unknown_player σ w l ws ls :
  (find_by_id w (players_csv σ) = None ∨ find_by_id l (players_csv σ) = None →
   record_result libm_pow w l ws ls σ = (Ok not_in_master_list, σ)) ∧
  (is_Some (find_by_id w (players_csv σ)) → is_Some (find_by_id l (players_csv σ)) →
   (record_result libm_pow w l ws ls σ).1 ≠ Ok not_in_master_list).
Proof using Type.
  split; [apply record_result_not_in_roster|].
  intros [winner Hw] [loser Hl].
  change (wp (record_result libm_pow w l ws ls) (λ r _, r ≠ Ok not_in_master_list) σ).
  unfold record_result. wp_steps. rewrite Hw, Hl. wp_steps.
  destruct (new_elos _ _ _ _ _) as [r|]; [|done].
  wp_steps. cbn [session_data].
  destruct (is_active (session_data σ)).
  - wp_steps. cbn [session_data].
    destruct (players (session_data σ) !! w) as [pw|]; [|done]. wp_steps.
    cbn [with_session session_data players set_players]. rewrite lookup_insert_eq. wp_steps.
    cbn [with_session session_data players set_players].
    destruct (<[w:=_]> _ !! l) as [pl|]; [|done]. wp_steps.
    cbn [with_session session_data players set_players]. rewrite lookup_insert_eq. wp_steps.
    destruct (sorted_by_elo _ _) as [sorted|]; [|done]. wp_steps.
    by destruct (get_session_state_of _); wp_steps.
  - wp_steps. by destruct (get_session_state_of _); wp_steps.
Qed.


End RecordEdges.


(** ** The queue order and the roster across requests *)

(** X18: the queue is in descending order of rating when the server starts,
    and every request that returns, rather than ending in an uncaught
    exception, leaves it so. *)
Theorem queue_sorted_while_requests_return libm_pow :
  (∀ roster, queue_sorted (initial_world roster)) ∧
  (∀ req σ, queue_sorted σ → is_Ok (handle libm_pow req σ).1 = true →
     queue_sorted (handle libm_pow req σ).2).
Proof.
  split; [intros roster; constructor|]. intros req σ. apply handle_queue_sorted.
Qed.

(** Four players are seated and queued, then player 3 is switched off. *)
Lemma queue_sorted_while_requests_return_witness :
  let σ := run libm_unused [StartSession (Some 1)] (initial_world four_players) in
  queue_sorted (initial_world four_players) ∧
  queue_sorted σ ∧
  is_Ok (handle libm_unused (TogglePlayerStatus "3") σ).1 = true ∧
  queue_sorted (handle libm_unused (TogglePlayerStatus "3") σ).2.
Proof.
  cbv zeta.
  assert (queue_sorted (initial_world four_players)) as H0
    by apply (proj1 (queue_sorted_while_requests_return libm_unused)).
  assert (queue_sorted (run libm_unused [StartSession (Some 1)] (initial_world four_players)))
    as H1.
  { apply (proj2 (queue_sorted_while_requests_return libm_unused)
             (StartSession (Some 1)) (initial_world four_players) H0). reflexivity. }
  split; [exact H0|]. split; [exact H1|]. split; [reflexivity|].
  apply (proj2 (queue_sorted_while_requests_return libm_unused) _ _ H1). reflexivity.
Defined.

(** X19: reading the session or the roster and starting or ending a session
    never change the roster, whether the request succeeds, is rejected or
    raises: only [add_player], [delete_player], [toggle_player_status] and
    [record_result] write [players.csv]. *)
Theorem session_requests_keep_roster σ :
  players_csv (get_session σ).2 = players_csv σ ∧
  players_csv (get_players σ).2 = players_csv σ ∧
  (∀ tableCount, players_csv (start_session tableCount σ).2 = players_csv σ) ∧
  players_csv (end_session σ).2 = players_csv σ.
Proof.
  split_and!; try done.
  - unfold get_session, get_session_state, session, liftR, json, mbind, M_bind, mret, M_ret.
    by destruct (get_session_state_of _).
  - intros tableCount.
    destruct (Nat.lt_ge_cases (length (active_players σ)) 2) as [Hfew|Hmany].
    + by rewrite start_session_rejected by done.
    + by destruct (start_session_accepted tableCount σ Hmany) as (sorted & s & _ & _ & ->).
Qed.
